(** * Kohones.py: account clustering with a self-organising map

    A shallow embedding of the script [Kohones.py] and the properties its
    specification states about it.

    Modelling conventions.
    - Python values that reach the script from its loaders (cells of a
      spreadsheet, of a Word or PDF table, or the literals of [raw_data]) are
      the constructors of [PyVal].
    - A Python [float] that holds a finite number is a rational of [Q]:
      rounding to binary64, infinities and NaN are outside the model.  The one
      place where the range of binary64 changes the control flow, the
      conversion [float(n)] of a Python integer, keeps its range check.  The
      size of the map, an integer computed from an integer, is evaluated on
      binary64 numbers as [numpy] does, with Rocq's primitive floats.
    - [str] is Rocq's [string]; only ASCII white space and ASCII digits are
      recognised by [strip] and by the pattern [\d].
    - An uncaught exception is the [Raise] of the [result] type; the script
      has a single [try]/[except], in [clean_currency].
    - [pandas.pivot_table], the [numpy] reductions and [MiniSom.winner] are
      written out from their documented behaviour.  What [MiniSom] does with
      its random generator (the initial weights and the training loop) stays
      behind the interface [MiniSomLib]. *)

From Stdlib Require Import ZArith QArith Qminmax Psatz Lia String Ascii List.
From Stdlib Require Import OrderedTypeEx Reals Qreals.
From Stdlib Require Floats.
From stdpp Require Import gmap strings list pretty sorting.

Local Open Scope string_scope.
Local Open Scope Z_scope.

(** ** Python values, exceptions *)

Inductive PyVal : Type :=
  | PyInt (z : Z)
  | PyFloat (q : Q)
  | PyBool (b : bool)
  | PyStr (s : string)
  | PyNone.

Inductive PyErr : Type := KeyError | ValueError | OverflowError.

Definition exc_name (e : PyErr) : string :=
  match e with
  | KeyError => "KeyError"
  | ValueError => "ValueError"
  | OverflowError => "OverflowError"
  end.

Inductive result (A : Type) : Type :=
  | Ok (a : A)
  | Raise (e : PyErr).
Arguments Ok {A} a.
Arguments Raise {A} e.

Definition bind {A B} (r : result A) (k : A -> result B) : result B :=
  match r with
  | Ok a => k a
  | Raise e => Raise e
  end.

Notation "'let*' x ':=' r 'in' k" := (bind r (fun x => k))
  (at level 10, x name, r at level 100, k at level 200).

Fixpoint mapM {A B} (f : A -> result B) (l : list A) : result (list B) :=
  match l with
  | [] => Ok []
  | a :: l' => let* b := f a in let* bs := mapM f l' in Ok (b :: bs)
  end.

(** ** Text helpers: the [str] methods and the pattern the script uses *)

Module Text.

Definition is_digit (c : ascii) : bool :=
  let n := N_of_ascii c in ((48 <=? n) && (n <=? 57))%N.

(** ASCII characters for which [str.isspace] holds: TAB, LF, VT, FF, CR,
    the separators 0x1c..0x1f and the space. *)
Definition is_space (c : ascii) : bool :=
  let n := N_of_ascii c in
  (((9 <=? n) && (n <=? 13)) || ((28 <=? n) && (n <=? 32)))%N.

Definition is_empty (s : string) : bool :=
  match s with EmptyString => true | String _ _ => false end.

Fixpoint lstrip (s : string) : string :=
  match s with
  | EmptyString => EmptyString
  | String c s' => if is_space c then lstrip s' else s
  end.

Fixpoint rstrip (s : string) : string :=
  match s with
  | EmptyString => EmptyString
  | String c s' =>
      let t := rstrip s' in
      if is_space c && is_empty t then EmptyString else String c t
  end.

(** [s.strip()] *)
Definition strip (s : string) : string := rstrip (lstrip s).

(** [s.split('.')[0]]: the text before the first dot, all of [s] when it
    has none. *)
Fixpoint before_dot (s : string) : string :=
  match s with
  | EmptyString => EmptyString
  | String c s' =>
      if Ascii.eqb c "."%char then EmptyString else String c (before_dot s')
  end.

(** [re.sub(r'[^\d,-]', '', s)]: every character that is not a digit, a
    comma or a hyphen is deleted. *)
Definition amount_char (c : ascii) : bool :=
  is_digit c || Ascii.eqb c ","%char || Ascii.eqb c "-"%char.

Fixpoint re_sub_non_amount (s : string) : string :=
  match s with
  | EmptyString => EmptyString
  | String c s' =>
      if amount_char c then String c (re_sub_non_amount s')
      else re_sub_non_amount s'
  end.

(** [s.replace(',', '.')] *)
Fixpoint replace_comma (s : string) : string :=
  match s with
  | EmptyString => EmptyString
  | String c s' =>
      String (if Ascii.eqb c ","%char then "."%char else c) (replace_comma s')
  end.

(** Reads the longest prefix of digits: its value (continuing [acc]), the
    number of digits read, and the rest of the text. *)
Fixpoint span_digits (s : string) (acc : Z) (cnt : nat) : Z * nat * string :=
  match s with
  | EmptyString => (acc, cnt, EmptyString)
  | String c s' =>
      if is_digit c
      then span_digits s' (10 * acc + (Z.of_N (N_of_ascii c) - 48)) (S cnt)
      else (acc, cnt, s)
  end.

Definition signed (neg : bool) (q : Q) : Q := if neg then Qopp q else q.

(** [float(s)] for a text [s] over digits, dots and hyphens, which is all
    that [clean_currency] hands to it: an optional [-], then digits with an
    optional dot among them, at least one digit in all.  [None] stands for
    the [ValueError] of any other text. *)
Definition float_of_text (s : string) : option Q :=
  let '(neg, body) :=
    match s with
    | String c t => if Ascii.eqb c "-"%char then (true, t) else (false, s)
    | EmptyString => (false, s)
    end in
  let '(ip, n1, r1) := span_digits body 0 0 in
  match r1 with
  | EmptyString =>
      if Nat.eqb n1 0 then None else Some (signed neg (inject_Z ip))
  | String c r2 =>
      if Ascii.eqb c "."%char then
        let '(fp, n2, r3) := span_digits r2 0 0 in
        if is_empty r3 && negb (Nat.eqb (n1 + n2) 0) then
          Some (signed neg
                  (Qmake (ip * 10 ^ Z.of_nat n2 + fp)
                         (Z.to_pos (10 ^ Z.of_nat n2))))
        else None
      else None
  end.

End Text.

(** ** Part 1 of the script: cleaning amounts and paragraph labels *)

(** [float(n)] of a Python integer raises [OverflowError] as soon as [n]
    rounds to a magnitude of [2^1024], that is from [2^1024 - 2^970] on. *)
Definition float_int_limit : Z := 2 ^ 1024 - 2 ^ 970.

Definition float_of_int (z : Z) : result Q :=
  if Z.abs z <? float_int_limit then Ok (inject_Z z) else Raise OverflowError.

Section Script.

(** [repr] of a float: the shortest decimal text that reads back as the
    same binary64 number.  It depends on the bit pattern of the float and
    is a parameter of the model. *)
Variable float_repr : Q -> string.

(** [str(value)] *)
Definition py_str (value : PyVal) : string :=
  match value with
  | PyInt z => pretty z
  | PyFloat q => float_repr q
  | PyBool b => if b then "True" else "False"
  | PyStr s => s
  | PyNone => "None"
  end.

Definition clean_currency (value : PyVal) : result Q :=
  match value with
  | PyInt z => float_of_int z
  | PyBool b => Ok (if b then 1%Q else 0%Q)
  | PyFloat q => Ok q
  | _ =>
      let value := Text.strip (py_str value) in
      let value := Text.re_sub_non_amount value in
      let value := Text.replace_comma value in
      match Text.float_of_text value with
      | Some q => Ok q
      | None => Ok 0%Q
      end
  end.

Definition clean_paragraph (value : PyVal) : string :=
  Text.strip (Text.before_dot (py_str value)).

End Script.

(** ** Parts 3 and 4 of the script: the frame of operations and its pivot *)

(** One dictionary of [raw_data].  The account is a text, as the record of
    the specification has it; the two other cells hold any value. *)
Record Operation : Type := mkOperation {
  konto : string;
  paragraf : PyVal;
  kwota : PyVal
}.

(** One line of the frame once both columns are cleaned. *)
Record Row : Type := mkRow {
  r_konto : string;
  r_paragraf : string;
  r_kwota : Q
}.

(** [df[name]] on [pd.DataFrame(raw_data)]: a frame built from an empty list
    has no column at all, so the lookup raises [KeyError]. *)
Definition getitem {A} (col : Operation -> A) (df : list Operation)
  : result (list A) :=
  match df with
  | [] => Raise KeyError
  | _ :: _ => Ok (map col df)
  end.

Fixpoint make_rows (ks ps : list string) (qs : list Q) : list Row :=
  match ks, ps, qs with
  | k :: ks', p :: ps', q :: qs' => mkRow k p q :: make_rows ks' ps' qs'
  | _, _, _ => []
  end.

(** The pivot: its row labels, its column labels and its array of values. *)
Record Pivot : Type := mkPivot {
  index : list string;
  columns : list string;
  values : list (list Q)
}.

Module Pandas.

(** Labels are ordered as Python orders [str]: character by character. *)
Fixpoint insert_label (s : string) (l : list string) : list string :=
  match l with
  | [] => [s]
  | t :: l' =>
      match String.compare s t with
      | Lt => s :: l
      | Eq => l
      | Gt => t :: insert_label s l'
      end
  end.

(** The sorted distinct labels of a column, as [groupby] lists its keys. *)
Definition sorted_unique (l : list string) : list string :=
  foldr insert_label [] l.

(** [groupby(['konto', 'paragraf']).sum()]: every line adds its amount to
    the running sum of its group, which starts at 0. *)
Definition sum_step (acc : gmap (string * string) Q) (r : Row)
  : gmap (string * string) Q :=
  let key := (r_konto r, r_paragraf r) in
  <[key := (default 0%Q (acc !! key) + r_kwota r)%Q]> acc.

Definition group_sum (rows : list Row) : gmap (string * string) Q :=
  foldl sum_step ∅ rows.

(** [df.pivot_table(index='konto', columns='paragraf', values='kwota',
    aggfunc='sum', fill_value=0)] *)
Definition pivot_table (rows : list Row) : Pivot :=
  let sums := group_sum rows in
  let idx := sorted_unique (map r_konto rows) in
  let cols := sorted_unique (map r_paragraf rows) in
  {| index := idx;
     columns := cols;
     values := map (fun e => map (fun c => default 0%Q (sums !! (e, c))) cols)
                   idx |}.

(** Position of a label in an axis. *)
Fixpoint get_loc (s : string) (l : list string) : option nat :=
  match l with
  | [] => None
  | t :: l' => if String.eqb s t then Some 0%nat else S <$> get_loc s l'
  end.

(** [pivot_df.loc[e, c]] *)
Definition loc (p : Pivot) (e c : string) : option Q :=
  i ← get_loc e (index p); j ← get_loc c (columns p);
  row ← values p !! i; row !! j.

End Pandas.

Section Frame.

Variable float_repr : Q -> string.

(** Lines 122 to 130: the frame, its two cleaned columns, the pivot. *)
Definition clean_frame (raw_data : list Operation) : result (list Row) :=
  let df := raw_data in
  let* kw := getitem kwota df in
  let* amounts := mapM (clean_currency float_repr) kw in
  let* pg := getitem paragraf df in
  let labels := map (clean_paragraph float_repr) pg in
  Ok (make_rows (map konto df) labels amounts).

Definition build (raw_data : list Operation) : result Pivot :=
  let* df := clean_frame raw_data in
  Ok (Pandas.pivot_table df).

End Frame.

(** ** Part 2 of the script: the loaders of Word and PDF tables *)

(** A call into [docx] or [pdfplumber]: it returns a value or it raises.  The
    loaders catch every exception, so which one it is does not matter. *)
Inductive attempt (A : Type) : Type :=
  | Got (a : A)
  | Fails.
Arguments Got {A} a.
Arguments Fails {A}.

Module Word.

(** A document as the loader reads it: [doc.tables], the [rows] of every
    table, and the texts of the [cells] of every row. *)
Abbreviation Row := (attempt (list string)).
Abbreviation Table := (attempt (list Row)).
Abbreviation Doc := (attempt (list Table)).

(** The dictionary of lines 56 to 60. *)
Definition record (cells : list string) : option Operation :=
  match cells with
  | c0 :: c1 :: c2 :: _ => Some (mkOperation c0 (PyStr c1) (PyStr c2))
  | _ => None
  end.

(** The loop over the rows of one table, from row [i] on: the data so far,
    and whether the loop went to its end.  Row 0 is skipped before its cells
    are read. *)
Fixpoint rows_loop (i : nat) (rows : list Row) (data : list Operation)
  : list Operation * bool :=
  match rows with
  | [] => (data, true)
  | row :: rows' =>
      if Nat.eqb i 0 then rows_loop (S i) rows' data
      else
        match row with
        | Fails => (data, false)
        | Got texts =>
            let cells := map Text.strip texts in
            let data :=
              if (3 <=? length cells)%nat
              then match record cells with
                   | Some r => (data ++ [r])%list
                   | None => data
                   end
              else data in
            rows_loop (S i) rows' data
        end
  end.

Fixpoint tables_loop (tables : list Table) (data : list Operation)
  : list Operation * bool :=
  match tables with
  | [] => (data, true)
  | table :: tables' =>
      match table with
      | Fails => (data, false)
      | Got rows =>
          let '(data, finished) := rows_loop 0 rows data in
          if finished then tables_loop tables' data else (data, false)
      end
  end.

End Word.

(** Lines 45 to 63: [doc] is what [docx.Document(filepath)] gives.  An
    exception ends the loops; the data read until then is returned. *)
Definition load_from_word (doc : Word.Doc) : list Operation :=
  match doc with
  | Fails => []
  | Got tables => fst (Word.tables_loop tables [])
  end.

Module Pdf.

(** A file as the loader reads it: [pdf.pages], and for every page what
    [extract_table()] returns, [None] or the rows of a table, whose cells
    are texts or [None]. *)
Abbreviation Row := (list (option string)).
Abbreviation Page := (attempt (option (list Row))).
Abbreviation Doc := (attempt (list Page)).

(** [[x for x in row if x is not None]] *)
Definition not_none (row : Row) : list string := omap (fun x => x) row.

Fixpoint rows_loop (i : nat) (table : list Row) (data : list Operation)
  : list Operation :=
  match table with
  | [] => data
  | row :: table' =>
      if Nat.eqb i 0 then rows_loop (S i) table' data
      else
        let row := not_none row in
        let data :=
          if (3 <=? length row)%nat
          then match Word.record row with
               | Some r => (data ++ [r])%list
               | None => data
               end
          else data in
        rows_loop (S i) table' data
  end.

Fixpoint pages_loop (pages : list Page) (data : list Operation)
  : list Operation :=
  match pages with
  | [] => data
  | page :: pages' =>
      match page with
      | Fails => data
      | Got None => pages_loop pages' data
      | Got (Some []) => pages_loop pages' data
      | Got (Some table) => pages_loop pages' (rows_loop 0 table data)
      end
  end.

End Pdf.

(** Lines 65 to 85: [pdf] is what [pdfplumber.open(filepath)] gives. *)
Definition load_from_pdf (pdf : Pdf.Doc) : list Operation :=
  match pdf with
  | Fails => []
  | Got pages => Pdf.pages_loop pages []
  end.

(** ** Part 5 of the script: normalisation and the size of the map *)

Module Numpy.

(** [a.min(axis=0)] and [a.max(axis=0)]: a reduction along an axis of
    length 0 raises [ValueError]. *)
Definition axis0 (f : Q -> Q -> Q) (a : list (list Q)) : result (list Q) :=
  match a with
  | [] => Raise ValueError
  | r :: rs => Ok (foldl (zip_with f) r rs)
  end.

(** [a - v] and [a / v] with the vector [v] broadcast over the rows. *)
Definition rows_sub (a : list (list Q)) (v : list Q) : list (list Q) :=
  map (fun row => zip_with Qminus row v) a.

Definition rows_div (a : list (list Q)) (v : list Q) : list (list Q) :=
  map (fun row => zip_with Qdiv row v) a.

End Numpy.

Definition epsilon : Q := 1 # 10000000000.

(** Line 140. *)
Definition normalize (data_values : list (list Q)) : result (list (list Q)) :=
  let* mins := Numpy.axis0 Qmin data_values in
  let* maxs := Numpy.axis0 Qmax data_values in
  let* mins' := Numpy.axis0 Qmin data_values in
  Ok (Numpy.rows_div (Numpy.rows_sub data_values mins)
        (map (fun d => (d + epsilon)%Q) (zip_with Qminus maxs mins'))).

Module Float64.

Definition float := PrimFloat.float.

(** [float64(n)] of a length; exact below [2^53]. *)
Definition of_len (n : Z) : float := PrimFloat.of_uint63 (Uint63.of_Z n).

Definition five : float := PrimFloat.of_uint63 (Uint63.of_Z 5).

(** [int(f)]: a finite float cut towards zero. *)
Definition to_int (f : float) : Z :=
  match FloatOps.Prim2SF f with
  | SpecFloat.S754_finite s m e =>
      let a := if e <? 0 then Z.shiftr (Z.pos m) (- e)
               else Z.shiftl (Z.pos m) e in
      if s then - a else a
  | _ => 0
  end.

End Float64.

(** Line 143: [int(np.sqrt(5 * np.sqrt(len(pivot_df)))) + 2], computed on
    binary64 numbers as the script does. *)
Definition map_size (n : Z) : Z :=
  Float64.to_int
    (PrimFloat.sqrt (PrimFloat.mul Float64.five
                       (PrimFloat.sqrt (Float64.of_len n)))) + 2.

(** ** The map: what the script uses of [MiniSom] *)

Abbreviation Grid := (list (list (list Q))).

(** The operations of [MiniSom] that consume its random generator.  [rng] is
    the state of a [numpy.random.RandomState]. *)
Class MiniSomLib : Type := {
  rng : Type;
  (** [RandomState(seed)] for an integer seed *)
  seeded : Z -> rng;
  (** the weights the constructor draws, and the generator after them *)
  constructor_weights : rng -> nat -> nat -> nat -> Grid * rng;
  (** [random_weights_init(data)] on the weights and the generator *)
  lib_random_weights_init : Grid * rng -> list (list Q) -> Grid * rng;
  (** [train_random(data, num_iteration)] with the constructor's [sigma] and
      [learning_rate] *)
  lib_train_random :
    Q -> Q -> Grid * rng -> list (list Q) -> nat -> Grid * rng
}.

Record Som `{MiniSomLib} : Type := mkSom {
  som_x : nat;
  som_y : nat;
  input_len : nat;
  sigma : Q;
  learning_rate : Q;
  random_seed : option Z;
  random_generator : rng;
  weights : Grid
}.
Arguments mkSom {_} _ _ _ _ _ _ _ _.

Section Map.

Context `{L : MiniSomLib}.

(** [MiniSom(x, y, input_len, sigma, learning_rate, random_seed)].  With
    [random_seed=None] the generator is seeded by [RandomState(None)], from
    what the operating system supplies at that moment: [entropy]. *)
Definition MiniSom (x y input_len : nat) (sigma learning_rate : Q)
    (random_seed : option Z) (entropy : rng) : Som :=
  let g := match random_seed with
           | Some s => seeded s
           | None => entropy
           end in
  let '(w, g') := constructor_weights g x y input_len in
  mkSom x y input_len sigma learning_rate random_seed g' w.

Definition random_weights_init (som : Som) (data : list (list Q)) : Som :=
  let '(w, g) :=
    lib_random_weights_init (weights som, random_generator som) data in
  mkSom (som_x som) (som_y som) (input_len som) (sigma som)
        (learning_rate som) (random_seed som) g w.

Definition train_random (som : Som) (data : list (list Q))
    (num_iteration : nat) : Som :=
  let '(w, g) :=
    lib_train_random (sigma som) (learning_rate som)
      (weights som, random_generator som) data num_iteration in
  mkSom (som_x som) (som_y som) (input_len som) (sigma som)
        (learning_rate som) (random_seed som) g w.

End Map.

(** The square of [linalg.norm(subtract(x, w))], for [x] and [w] of the same
    length, which [input_len] is for both in the script.  The norm is its
    square root; a smaller square is a smaller norm, an equal square an equal
    norm, so [argmin] picks the same entry on either. *)
Definition sq_distance (x w : list Q) : Q :=
  foldr Qplus 0%Q (zip_with (fun a b => ((a - b) * (a - b))%Q) x w).

(** The first position of a best value of a non-empty array, where
    [keeps b v] tells that the best value so far, [b], is kept when [v]
    comes; [ValueError] on an empty array. *)
Fixpoint first_best_from (keeps : Q -> Q -> bool) (best : nat) (bv : Q)
    (i : nat) (l : list Q) : nat :=
  match l with
  | [] => best
  | v :: l' =>
      if keeps bv v then first_best_from keeps best bv (S i) l'
      else first_best_from keeps i v (S i) l'
  end.

Definition first_best (keeps : Q -> Q -> bool) (l : list Q) : result nat :=
  match l with
  | [] => Raise ValueError
  | v :: l' => Ok (first_best_from keeps 0%nat v 1%nat l')
  end.

(** [a.argmin()] on the flattened array: the first position of the least
    value. *)
Definition argmin : list Q -> result nat := first_best Qle_bool.

(** [a.argmax()]: the first position of the greatest value. *)
Definition argmax : list Q -> result nat :=
  first_best (fun b v => Qle_bool v b).

(** [unravel_index(i, (x, y))] *)
Definition unravel_index (i : nat) (shape : nat * nat) : nat * nat :=
  ((i / snd shape)%nat, (i mod snd shape)%nat).

Definition activation_map (w : Grid) (x : list Q) : list (list Q) :=
  map (map (sq_distance x)) w.

(** [MiniSom.winner] on the weights [w] of shape [shape]. *)
Definition winner_of (w : Grid) (shape : nat * nat) (x : list Q)
  : result (nat * nat) :=
  let* i := argmin (concat (activation_map w x)) in
  Ok (unravel_index i shape).

Definition winner `{MiniSomLib} (som : Som) (x : list Q) : result (nat * nat) :=
  winner_of (weights som) (som_x som, som_y som) x.

(** ** Part 6 of the script: the groups and their dominant paragraph *)

Abbreviation Groups := (list ((nat * nat) * list string)).

(** [if winner not in d: d[winner] = []] then [d[winner].append(name)], on a
    dictionary kept in insertion order. *)
Fixpoint dict_append (k : nat * nat) (name : string) (d : Groups) : Groups :=
  match d with
  | [] => [(k, [name])]
  | (k', names) :: d' =>
      if decide (k = k') then (k', (names ++ [name])%list) :: d'
      else (k', names) :: dict_append k name d'
  end.

Fixpoint group_loop (win : list Q -> result (nat * nat))
    (pairs : list (string * list Q)) (d : Groups) : result Groups :=
  match pairs with
  | [] => Ok d
  | (account_name, row_data) :: rest =>
      let* w := win row_data in
      group_loop win rest (dict_append w account_name d)
  end.

(** Lines 151 to 156. *)
Definition grouped_accounts (win : list Q -> result (nat * nat))
    (pivot_df : Pivot) (data_normalized : list (list Q)) : result Groups :=
  group_loop win (zip (index pivot_df) data_normalized) [].

(** [pivot_df.loc[accounts]]: the lines of the listed labels. *)
Definition loc_rows (p : Pivot) (accounts : list string)
  : result (list (list Q)) :=
  mapM (fun a =>
          match Pandas.get_loc a (index p) ≫= (fun i => values p !! i) with
          | Some row => Ok row
          | None => Raise KeyError
          end) accounts.

(** [frame.mean()]: the mean of every column. *)
Definition mean (ncols : nat) (rows : list (list Q)) : list Q :=
  map (fun s => (s / inject_Z (Z.of_nat (length rows)))%Q)
      (foldl (zip_with Qplus) (replicate ncols 0%Q) rows).

(** [series.idxmax()]: the label of the first greatest value. *)
Definition idxmax (labels : list string) (vals : list Q) : result string :=
  let* i := argmax vals in
  match labels !! i with
  | Some c => Ok c
  | None => Raise KeyError
  end.

(** Lines 164 and 165. *)
Definition top_para (pivot_df : Pivot) (accounts : list string)
  : result string :=
  let* group_vectors := loc_rows pivot_df accounts in
  idxmax (columns pivot_df) (mean (length (columns pivot_df)) group_vectors).

(** ** The whole script *)

Section Run.

Context `{L : MiniSomLib}.
Variable float_repr : Q -> string.

(** Line 144: the call that makes the map. *)
Definition make_som (pivot_df : Pivot) (entropy : rng) : Som :=
  let map_size := Z.to_nat (map_size (Z.of_nat (length (index pivot_df)))) in
  MiniSom map_size map_size (length (columns pivot_df)) 1%Q (1 # 2)%Q
          None entropy.

(** Lines 144 to 147. *)
Definition trained_som (pivot_df : Pivot) (data_normalized : list (list Q))
    (entropy : rng) : Som :=
  let som := make_som pivot_df entropy in
  let som := random_weights_init som data_normalized in
  train_random som data_normalized 1000.

(** What the script prints: every group with its accounts and its dominant
    paragraph, in the order of the dictionary. *)
Definition run (entropy : rng) (raw_data : list Operation)
  : result (list ((nat * nat) * list string * string)) :=
  let* pivot_df := build float_repr raw_data in
  let data_values := values pivot_df in
  let* data_normalized := normalize data_values in
  let som := trained_som pivot_df data_normalized entropy in
  let* grouped := grouped_accounts (winner som) pivot_df data_normalized in
  mapM (fun '(coords, accounts) =>
          let* top := top_para pivot_df accounts in
          Ok (coords, accounts, top)) grouped.

End Run.

(** * The numeric lines of the script on binary64 numbers

    The definitions above hold their numbers as exact rationals: they serve
    where a property is about labels, shapes, groups and exceptions.  What
    the script computes with its amounts is computed on binary64 numbers;
    the definitions below are the numeric lines again, on Rocq's primitive
    floats, for the properties that are about the values. *)

Module Binary64.

Abbreviation float := PrimFloat.float.

(** [float(z)] of an integer: the nearest binary64 number, ties to even. *)
Definition of_Z (z : Z) : float :=
  FloatOps.SF2Prim
    (SpecFloat.binary_normalize FloatOps.prec FloatOps.emax z 0 false).

Definition zero : float := of_Z 0.

Definition neg_infinity : float := PrimFloat.neg_infinity.

(** [np.isnan] *)
Definition is_nan (f : float) : bool := negb (PrimFloat.eqb f f).

(** The literal [1e-10] of line 140: the binary64 number nearest to it,
    [0x1.b7cdfd9d7bdbbp-34]. *)
Definition epsilon : float := PrimFloat.div (of_Z 1) (of_Z 10000000000).

(** Adding the entries of an array one after the other, from 0. *)
Definition sum (l : list float) : float := foldl PrimFloat.add zero l.

(** ** The frame and its pivot *)

Record Row : Type := mkRow {
  r_konto : string;
  r_paragraf : string;
  r_kwota : float
}.

Record Pivot : Type := mkPivot {
  index : list string;
  columns : list string;
  values : list (list float)
}.

(** The sum of a group, line after line; a NaN is skipped.  Versions of
    [pandas] from 1.2 on carry a compensation term beside the sum, which
    stays 0 as long as every addition is exact. *)
Definition sum_step (acc : gmap (string * string) float) (r : Row)
  : gmap (string * string) float :=
  let key := (r_konto r, r_paragraf r) in
  let sumx := default zero (acc !! key) in
  <[key := if is_nan (r_kwota r) then sumx
           else PrimFloat.add sumx (r_kwota r)]> acc.

Definition group_sum (rows : list Row) : gmap (string * string) float :=
  foldl sum_step ∅ rows.

(** Line 130, with [fill_value=0] where a pair has no line. *)
Definition pivot_table (rows : list Row) : Pivot :=
  let sums := group_sum rows in
  let idx := Pandas.sorted_unique (map r_konto rows) in
  let cols := Pandas.sorted_unique (map r_paragraf rows) in
  {| index := idx;
     columns := cols;
     values := map (fun e => map (fun c => default zero (sums !! (e, c))) cols)
                   idx |}.

(** [pivot_df.loc[e, c]] *)
Definition loc (p : Pivot) (e c : string) : option float :=
  i ← Pandas.get_loc e (index p); j ← Pandas.get_loc c (columns p);
  row ← values p !! i; row !! j.

(** ** Line 140: the normalisation *)

(** [np.minimum] and [np.maximum] of two numbers: a NaN wins. *)
Definition minimum (a b : float) : float :=
  if PrimFloat.leb a b || is_nan a then a else b.

Definition maximum (a b : float) : float :=
  if PrimFloat.leb b a || is_nan a then a else b.

(** [a.min(axis=0)] and [a.max(axis=0)]. *)
Definition axis0 (f : float -> float -> float) (a : list (list float))
  : result (list float) :=
  match a with
  | [] => Raise ValueError
  | r :: rs => Ok (foldl (zip_with f) r rs)
  end.

Definition normalize (data_values : list (list float))
  : result (list (list float)) :=
  let* mins := axis0 minimum data_values in
  let* maxs := axis0 maximum data_values in
  let* mins' := axis0 minimum data_values in
  Ok (map (fun row =>
             zip_with PrimFloat.div (zip_with PrimFloat.sub row mins)
               (map (fun d => PrimFloat.add d epsilon)
                    (zip_with PrimFloat.sub maxs mins')))
          data_values).

(** ** [MiniSom.winner] *)

Section Winner.

(** [numpy.add.reduce] along the last axis.  The order in which [numpy] adds
    the entries depends on their number and on the layout of the array (it
    adds in blocks from 8 entries on): the reduction is a parameter. *)
Variable add_reduce : list float -> float.

(** [subtract(x, w)] for one weight vector, with the broadcasting of
    [numpy]: equal lengths, or one of the two of length 1. *)
Definition subtract (x w : list float) : result (list float) :=
  if Nat.eqb (length x) (length w) then Ok (zip_with PrimFloat.sub x w)
  else match x, w with
       | [a], _ => Ok (map (fun b => PrimFloat.sub a b) w)
       | _, [b] => Ok (map (fun a => PrimFloat.sub a b) x)
       | _, _ => Raise ValueError
       end.

(** [linalg.norm(d, axis=-1)]: the square root of the sum of the squares. *)
Definition norm (d : list float) : float :=
  PrimFloat.sqrt (add_reduce (map (fun a => PrimFloat.mul a a) d)).

Definition euclidean_distance (x w : list float) : result float :=
  let* d := subtract x w in Ok (norm d).

Definition activation_map (w : list (list (list float))) (x : list float)
  : result (list (list float)) :=
  mapM (mapM (euclidean_distance x)) w.

(** [a.argmin()] on the flattened array: the first position of the least
    value, or of the first NaN when there is one. *)
Fixpoint argmin_from (best : nat) (mp : float) (i : nat) (l : list float)
  : nat :=
  match l with
  | [] => best
  | v :: l' =>
      if PrimFloat.leb mp v then argmin_from best mp (S i) l'
      else if is_nan v then i
      else argmin_from i v (S i) l'
  end.

Definition argmin (l : list float) : result nat :=
  match l with
  | [] => Raise ValueError
  | v :: l' => Ok (if is_nan v then 0%nat else argmin_from 0%nat v 1%nat l')
  end.

Definition winner_of (w : list (list (list float))) (shape : nat * nat)
    (x : list float) : result (nat * nat) :=
  let* a := activation_map w x in
  let* i := argmin (concat a) in
  Ok (unravel_index i shape).

End Winner.

(** ** Lines 164 and 165: the dominant paragraph *)

Definition loc_rows (p : Pivot) (accounts : list string)
  : result (list (list float)) :=
  mapM (fun a =>
          match Pandas.get_loc a (index p) ≫= (fun i => values p !! i) with
          | Some row => Ok row
          | None => Raise KeyError
          end) accounts.

(** [frame.mean()]: for every column, the sum of its entries that are not
    NaN over their number. *)
Definition column_mean (col : list float) : float :=
  let present := filter (fun v => is_nan v = false) col in
  PrimFloat.div (sum present) (of_Z (Z.of_nat (length present))).

Definition mean (ncols : nat) (rows : list (list float)) : list float :=
  map (fun j => column_mean (omap (fun row => row !! j) rows)) (seq 0 ncols).

(** [a.argmax()] where no entry is NaN: the first position of the greatest
    value. *)
Fixpoint argmax_from (best : nat) (mp : float) (i : nat) (l : list float)
  : nat :=
  match l with
  | [] => best
  | v :: l' =>
      if PrimFloat.leb v mp then argmax_from best mp (S i) l'
      else argmax_from i v (S i) l'
  end.

(** [series.idxmax()]: a NaN counts as minus infinity; when every value is
    NaN the call raises [ValueError] ([pandas] before 3.0 returns NaN with a
    warning). *)
Definition idxmax (labels : list string) (vals : list float)
  : result string :=
  if forallb is_nan vals then Raise ValueError
  else
    match map (fun v => if is_nan v then neg_infinity else v) vals with
    | [] => Raise ValueError
    | v :: l =>
        match labels !! argmax_from 0%nat v 1%nat l with
        | Some c => Ok c
        | None => Raise KeyError
        end
    end.

Definition top_para (pivot_df : Pivot) (accounts : list string)
  : result string :=
  let* group_vectors := loc_rows pivot_df accounts in
  idxmax (columns pivot_df) (mean (length (columns pivot_df)) group_vectors).

End Binary64.

(** * The notions the properties are stated with *)

Local Close Scope string_scope.

(** The order of the labels: [s < t] as Python compares two [str]. *)
Definition label_lt (s t : string) : Prop := String.compare s t = Lt.

(** The lines of the frame that belong to account [e] and paragraph [c]. *)
Definition matches (e c : string) (r : Row) : Prop :=
  r_konto r = e /\ r_paragraf r = c.

#[local] Instance matches_dec e c r : Decision (matches e c r).
Proof. unfold matches. apply _. Defined.

(** The sum of the amounts of the lines of [(e, c)], written as the
    specification words it. *)
Definition sum_amounts (rows : list Row) (e c : string) : Q :=
  foldr Qplus 0%Q (map r_kwota (filter (matches e c) rows)).

(** The label under which an operation is aggregated. *)
Definition label_of (float_repr : Q -> string) (op : Operation) : string :=
  clean_paragraph float_repr (paragraf op).

(** The entries of column [j], from top to bottom. *)
Definition column (j : nat) (a : list (list Q)) : list Q :=
  omap (fun row => row !! j) a.

(** The rescaling of one entry, as the specification writes it. *)
Definition rescale (x mn mx : Q) : Q := ((x - mn) / (mx - mn + epsilon))%Q.

(** [floor(sqrt(5 * sqrt(n)))] in integer arithmetic: the fourth root of
    [25 * n], rounded down. *)
Definition grid_root (n : Z) : Z := Z.sqrt (Z.sqrt (25 * n)).

(** The binary64 computation of line 143 agrees with [grid_root] on the
    [fuel] lengths from [n] on. *)
Fixpoint agree (fuel : nat) (n : Z) : bool :=
  match fuel with
  | O => true
  | S f => (map_size n =? grid_root n + 2) && agree f (n + 1)
  end.

(** The greatest number of accounts for which [map_size] is evaluated here. *)
Definition max_accounts : Z := 100000.

(** [v] stands at position [p] of [l], no entry of [l] beats it, and every
    entry before [p] is beaten by it. *)
Definition is_first_best (keeps : Q -> Q -> bool) (l : list Q) (p : nat)
    (v : Q) : Prop :=
  l !! p = Some v /\
  forall q u, l !! q = Some u ->
    keeps v u = true /\ ((q < p)%nat -> keeps u v = false).

(** The weight vector of the neuron at [(i, j)]. *)
Definition neuron (w : Grid) (i j : nat) : option (list Q) :=
  w !! i ≫= (fun row => row !! j).

(** The Euclidean distance of [linalg.norm(subtract(x, w))], over the reals. *)
Definition euclidean_distance (x w : list Q) : R :=
  sqrt (Q2R (sq_distance x w)).

(** [(i, j)] comes before [(i', j')], or is it, in the order of pairs. *)
Definition lex_le (a b : nat * nat) : Prop :=
  (fst a < fst b)%nat \/ (fst a = fst b /\ (snd a <= snd b)%nat).

(** All the accounts of the groups, group after group. *)
Definition members (d : Groups) : list string := concat (map snd d).

(** The sum of a list of numbers. *)
Definition Qsum (l : list Q) : Q := foldr Qplus 0%Q l.

(** The mean, over the accounts of a group, of the entries of the pivot in
    column [c]: the values before normalisation. *)
Definition group_mean (p : Pivot) (accounts : list string) (c : string) : Q :=
  (Qsum (map (fun a => default 0%Q (Pandas.loc p a c)) accounts)
   / inject_Z (Z.of_nat (length accounts)))%Q.

(** A text made of digits only. *)
Fixpoint all_digits (s : string) : bool :=
  match s with
  | EmptyString => true
  | String c s' => Text.is_digit c && all_digits s'
  end.

(** The number a text of digits writes in base ten, digit by position. *)
Fixpoint decimal (s : string) : Z :=
  match s with
  | EmptyString => 0
  | String c s' =>
      (Z.of_N (N_of_ascii c) - 48) * 10 ^ Z.of_nat (String.length s')
      + decimal s'
  end.

(** How many times a character occurs in a text. *)
Fixpoint count_char (c : ascii) (s : string) : nat :=
  match s with
  | EmptyString => 0%nat
  | String a s' => ((if Ascii.eqb a c then 1 else 0) + count_char c s')%nat
  end.

(** The text of a sign. *)
Definition sign_text (neg : bool) : string :=
  if neg then String "-" EmptyString else EmptyString.

(** A document, or a file, every part of which is read without an
    exception. *)
Definition word_readable (tables : list (list (list string))) : Word.Doc :=
  Got (map (fun rows => Got (map Got rows)) tables).

Definition pdf_readable (pages : list (option (list Pdf.Row))) : Pdf.Doc :=
  Got (map Got pages).

(** The operations of the rows below the first one, for the rows that have
    three cells or more. *)
Definition word_table_records (rows : list (list string)) : list Operation :=
  omap (fun texts => Word.record (map Text.strip texts)) (drop 1 rows).

Definition pdf_page_records (page : option (list Pdf.Row)) : list Operation :=
  match page with
  | Some table => omap (fun row => Word.record (Pdf.not_none row)) (drop 1 table)
  | None => []
  end.

(** An operation all of whose cells are texts. *)
Definition text_cells (op : Operation) : Prop :=
  exists p k, paragraf op = PyStr p /\ kwota op = PyStr k.

(** The accounts listed under the key [k] of a dictionary, none when the
    key is absent. *)
Fixpoint dict_get (k : nat * nat) (d : Groups) : list string :=
  match d with
  | [] => []
  | (k', names) :: d' => if decide (k = k') then names else dict_get k d'
  end.

(** The accounts of the pairs whose row has the winner [k], in the order of
    the pairs. *)
Definition filed_under (win : list Q -> result (nat * nat)) (k : nat * nat)
    (pairs : list (string * list Q)) : list string :=
  omap (fun pr => match win (snd pr) with
                  | Ok k' => if decide (k' = k) then Some (fst pr) else None
                  | Raise _ => None
                  end) pairs.

(** A grid of [x] by [y] neurons. *)
Definition grid_shape (w : Grid) (x y : nat) : Prop :=
  length w = x /\ Forall (fun row => length row = y) w.

(** An operation whose amount is an integer too large for a float. *)
Definition oversized (op : Operation) : Prop :=
  exists z, kwota op = PyInt z /\ float_int_limit <= Z.abs z.

(** A text of ASCII characters: the texts on which a character of the model
    is a character of a [str]. *)
Fixpoint is_ascii (s : string) : bool :=
  match s with
  | EmptyString => true
  | String c s' => (N_of_ascii c <? 128)%N && is_ascii s'
  end.


(** A rational number that is a binary64 number: [m / 2^k] with [m] below
    [2^53] in absolute value and [k] up to 1074.  [float] of a text that
    writes such a number is the number. *)
Definition binary64_number (q : Q) : Prop :=
  exists m k : Z,
    Z.abs m < 2 ^ 53 /\ 0 <= k <= 1074 /\
    (q * inject_Z (2 ^ k) == inject_Z m)%Q.

(** An operation as the data of the script have them: the paragraph is an
    ASCII text, and the amount an integer of fifteen digits at most or an
    ASCII text of fifteen characters at most. *)
Definition plain (op : Operation) : Prop :=
  (exists s, paragraf op = PyStr s /\ is_ascii s = true) /\
  ((exists z, kwota op = PyInt z /\ Z.abs z < 10 ^ 15) \/
   (exists s, kwota op = PyStr s /\ is_ascii s = true /\
              (String.length s <= 15)%nat)).

(** ** Notions for the binary64 lines *)

(** A specified float that is NaN. *)
Definition sf_nan (x : SpecFloat.spec_float) : bool :=
  match x with SpecFloat.S754_nan => true | _ => false end.

(** A specified float that is a number, zero included, and no infinity. *)
Definition sf_finite (x : SpecFloat.spec_float) : bool :=
  match x with
  | SpecFloat.S754_zero _ | SpecFloat.S754_finite _ _ _ => true
  | _ => false
  end.


(** [p * 2^k]. *)
Definition shl (p : positive) (k : Z) : positive :=
  match k with Zpos d => Pos.iter xO p d | _ => p end.

(** The specified float of an integer, and the magnitude of an integer that
    is not 0. *)
Definition sf_int (z : Z) : SpecFloat.spec_float :=
  SpecFloat.binary_normalize FloatOps.prec FloatOps.emax z 0 false.

Definition mag (z : Z) : positive := Z.to_pos (Z.abs z).

(** A line of a frame whose amounts are integers, and the line of the frame
    of the script that holds it. *)
Abbreviation IntRow := (string * string * Z)%type.

Definition float_row (r : IntRow) : Binary64.Row :=
  Binary64.mkRow r.1.1 r.1.2 (Binary64.of_Z r.2).

(** The amounts of the lines of account [e] and paragraph [c], in the order
    of the lines. *)
Definition amounts_of (rows : list IntRow) (e c : string) : list Z :=
  map snd (filter (fun r => r.1.1 = e /\ r.1.2 = c) rows).

Definition Zsum (l : list Z) : Z := foldr Z.add 0 l.


(** The weight vector of the neuron at [(i, j)]. *)
Definition neuron64 (w : list (list (list Binary64.float))) (i j : nat)
  : option (list Binary64.float) :=
  w !! i ≫= (fun row => row !! j).

(** The distance of a vector to a weight vector of the same length, as the
    square root, in binary64, of the reduction of the squares of the
    differences. *)
Definition binary64_distance (add_reduce : list Binary64.float -> Binary64.float)
    (x w : list Binary64.float) : Binary64.float :=
  PrimFloat.sqrt
    (add_reduce
       (zip_with (fun a b => PrimFloat.mul (PrimFloat.sub a b) (PrimFloat.sub a b))
                 x w)).

(** The number a binary64 number stands for; 0 for an infinity or a NaN. *)
Definition exact_value (f : Binary64.float) : Q :=
  match FloatOps.Prim2SF f with
  | SpecFloat.S754_finite s m e =>
      let n := if s then Z.neg m else Z.pos m in
      if 0 <=? e then inject_Z (n * 2 ^ e) else n # Z.to_pos (2 ^ (- e))
  | _ => 0%Q
  end.

(** The first least value of a list of binary64 numbers stands at [p], or
    the first NaN when there is one. *)
Definition first_least (l : list Binary64.float) (p : nat) : Prop :=
  exists v, l !! p = Some v /\
    (Binary64.is_nan v = false ->
       forall q u, l !! q = Some u ->
         PrimFloat.leb v u = true /\ ((q < p)%nat -> PrimFloat.leb u v = false)) /\
    (Binary64.is_nan v = true ->
       forall q u, l !! q = Some u -> (q < p)%nat -> Binary64.is_nan u = false).





(** ** Data and a library instance to run the script on *)

(** The operations of lines 100 to 107. *)
Definition raw_data : list Operation :=
  [ mkOperation "Konto_A" (PyStr "4210") (PyInt 5000);
    mkOperation "Konto_A" (PyStr "4300") (PyInt 100);
    mkOperation "Konto_B" (PyStr "4300") (PyInt 4000);
    mkOperation "Konto_B" (PyStr "4210") (PyInt 100);
    mkOperation "Konto_C" (PyStr "4210") (PyInt 4800);
    mkOperation "Konto_D" (PyStr "4300") (PyInt 4200) ].

(** Their frame once cleaned. *)
Definition raw_rows : list Row :=
  [ mkRow "Konto_A" "4210" 5000; mkRow "Konto_A" "4300" 100;
    mkRow "Konto_B" "4300" 4000; mkRow "Konto_B" "4210" 100;
    mkRow "Konto_C" "4210" 4800; mkRow "Konto_D" "4300" 4200 ].

(** The same lines, with their amounts as integers. *)
Definition raw_int_rows : list IntRow :=
  [ ("Konto_A", "4210", 5000); ("Konto_A", "4300", 100);
    ("Konto_B", "4300", 4000); ("Konto_B", "4210", 100);
    ("Konto_C", "4210", 4800); ("Konto_D", "4300", 4200) ].

(** A grid of two by two neurons in the plane, in binary64. *)
Definition small_grid64 : list (list (list Binary64.float)) :=
  map (map (map Binary64.of_Z)) [ [ [1; 1]; [0; 0] ]; [ [1; 0]; [0; 0] ] ].




(** No operation of [raw_data] holds a float: any [repr] will do. *)
Definition no_repr : Q -> string := fun _ => EmptyString.

(** A stand-in for [MiniSom], to evaluate the script: the generator is a
    counter, [random_weights_init] lays the data rows on the grid starting
    from the row the counter points at, and training leaves the weights as
    they are.  It is not the algorithm of the library; it shares with it
    that the weights depend on the state of the generator. *)
#[local] Instance sample_lib : MiniSomLib := {|
  rng := nat;
  seeded := fun z => Z.to_nat z;
  constructor_weights := fun g x y k =>
    (replicate x (replicate y (replicate k 0%Q)), g);
  lib_random_weights_init := fun wg data =>
    (imap (fun i row =>
             imap (fun j _ =>
                     default [] (data !! ((snd wg + i * length row + j)
                                          mod length data)%nat)) row)
          (fst wg),
     S (snd wg));
  lib_train_random := fun _ _ wg _ _ => wg
|}.

(** A grid of two by two neurons in the plane. *)
Definition small_grid : Grid :=
  [ [ [1; 1]; [0; 0] ]; [ [1 # 2; 0]; [0; 0] ] ]%Q.

(** The pivot of [raw_data], its normalised values, and its groups under
    [nearest]. *)
Definition raw_pivot : Pivot := Pandas.pivot_table raw_rows.

Definition raw_normalized : list (list Q) :=
  match normalize (values raw_pivot) with
  | Ok n => n
  | Raise _ => []
  end.

(** The winners on [small_grid], a grid that needs no training. *)
Definition nearest : list Q -> result (nat * nat) :=
  winner_of small_grid (2%nat, 2%nat).

Definition raw_groups : Groups :=
  match grouped_accounts nearest raw_pivot raw_normalized with
  | Ok d => d
  | Raise _ => []
  end.

(** * Properties *)

(** ** The result type *)

Lemma bind_Ok {A B} (r : result A) (k : A -> result B) (b : B) :
  bind r k = Ok b <-> exists a, r = Ok a /\ k a = Ok b.
Proof.
  destruct r as [a|e]; simpl.
  - split; [eauto | intros (a' & [= <-] & H); exact H].
  - split; [discriminate | intros (a' & [=] & _)].
Qed.

Lemma mapM_Ok {A B} (f : A -> result B) (l : list A) (bs : list B) :
  mapM f l = Ok bs <-> Forall2 (fun a b => f a = Ok b) l bs.
Proof.
  revert bs. induction l as [|a l IH]; intros bs; simpl.
  - split; [intros [= <-]; constructor | intros H; inversion H; reflexivity].
  - rewrite bind_Ok. split.
    + intros (b & Hb & H). apply bind_Ok in H as (bs' & Hbs & [= <-]).
      constructor; [exact Hb | apply IH, Hbs].
    + intros H. inversion H as [|? b ? bs' Hb Hbs]; subst.
      exists b. split; [exact Hb |]. apply bind_Ok. exists bs'.
      split; [apply IH, Hbs | reflexivity].
Qed.

(** ** Labels and their order *)

Lemma label_lt_trans s t u : label_lt s t -> label_lt t u -> label_lt s u.
Proof.
  unfold label_lt. change String.compare with String_as_OT.cmp.
  rewrite !String_as_OT.cmp_lt. apply String_as_OT.lt_trans.
Qed.

Lemma compare_refl s : String.compare s s = Eq.
Proof.
  pose proof (String.compare_antisym s s) as H.
  destruct (String.compare s s); simpl in H; congruence.
Qed.

Lemma label_lt_irrefl s : ~ label_lt s s.
Proof. unfold label_lt. rewrite compare_refl. discriminate. Qed.

Lemma compare_Gt_lt s t : String.compare s t = Gt -> label_lt t s.
Proof.
  unfold label_lt. rewrite (String.compare_antisym t s). intros ->. reflexivity.
Qed.

Lemma elem_of_insert_label x s l :
  x ∈ Pandas.insert_label s l <-> x = s \/ x ∈ l.
Proof.
  induction l as [|t l IH]; simpl.
  - rewrite list_elem_of_singleton, elem_of_nil. tauto.
  - destruct (String.compare s t) eqn:E.
    + apply String.compare_eq_iff in E as ->. rewrite elem_of_cons. tauto.
    + rewrite !elem_of_cons. tauto.
    + rewrite !elem_of_cons, IH. tauto.
Qed.

Lemma insert_label_sorted s l :
  StronglySorted label_lt l -> StronglySorted label_lt (Pandas.insert_label s l).
Proof.
  induction 1 as [|t l Hs IH Hall]; simpl.
  - repeat constructor.
  - destruct (String.compare s t) eqn:E.
    + constructor; assumption.
    + constructor; [constructor; assumption |].
      constructor; [exact E |].
      eapply Forall_impl; [exact Hall |].
      intros u Hu. eapply label_lt_trans; [exact E | exact Hu].
    + constructor; [exact IH |].
      apply Forall_forall. intros u Hu.
      apply elem_of_insert_label in Hu as [-> | Hu].
      * apply compare_Gt_lt, E.
      * rewrite Forall_forall in Hall. apply Hall, Hu.
Qed.

Lemma elem_of_sorted_unique x l : x ∈ Pandas.sorted_unique l <-> x ∈ l.
Proof.
  unfold Pandas.sorted_unique. induction l as [|t l IH]; simpl.
  - reflexivity.
  - rewrite elem_of_insert_label, IH, elem_of_cons. tauto.
Qed.

Lemma sorted_unique_sorted l : StronglySorted label_lt (Pandas.sorted_unique l).
Proof.
  unfold Pandas.sorted_unique. induction l as [|t l IH]; simpl.
  - constructor.
  - apply insert_label_sorted, IH.
Qed.

Lemma sorted_labels_NoDup l : StronglySorted label_lt l -> NoDup l.
Proof.
  induction 1 as [|t l Hs IH Hall]; constructor; [| exact IH].
  intros Hin. rewrite Forall_forall in Hall.
  exact (label_lt_irrefl t (Hall t Hin)).
Qed.

Lemma sorted_unique_NoDup l : NoDup (Pandas.sorted_unique l).
Proof. apply sorted_labels_NoDup, sorted_unique_sorted. Qed.

Lemma get_loc_lookup s l i : Pandas.get_loc s l = Some i -> l !! i = Some s.
Proof.
  revert i. induction l as [|t l IH]; intros i; simpl; [discriminate |].
  destruct (String.eqb s t) eqn:E.
  - apply String.eqb_eq in E as ->. intros [= <-]. reflexivity.
  - destruct (Pandas.get_loc s l) as [j|]; simpl; [| discriminate].
    intros [= <-]. simpl. apply IH. reflexivity.
Qed.

Lemma get_loc_elem s l : s ∈ l -> exists i, Pandas.get_loc s l = Some i.
Proof.
  induction l as [|t l IH]; simpl; [intros H; inversion H |].
  intros H. destruct (String.eqb s t) eqn:E; [eauto |].
  apply elem_of_cons in H as [-> | H].
  - rewrite String.eqb_refl in E. discriminate.
  - destruct (IH H) as [i ->]. simpl. eauto.
Qed.

Lemma get_loc_NoDup l i s :
  NoDup l -> l !! i = Some s -> Pandas.get_loc s l = Some i.
Proof.
  intros Hnd. revert i. induction Hnd as [|t l Hnin Hnd IH]; intros i; simpl.
  - rewrite lookup_nil. discriminate.
  - destruct i as [|i]; simpl.
    + intros [= ->]. rewrite String.eqb_refl. reflexivity.
    + intros Hi. destruct (String.eqb s t) eqn:E.
      * apply String.eqb_eq in E as ->. exfalso. apply Hnin.
        eapply list_elem_of_lookup_2, Hi.
      * rewrite (IH _ Hi). reflexivity.
Qed.

(** ** The pivot holds the sums of the groups *)

Lemma sum_step_acc rows acc e c :
  (default 0 (foldl Pandas.sum_step acc rows !! (e, c))
   == default 0 (acc !! (e, c)) + sum_amounts rows e c)%Q.
Proof.
  revert acc. induction rows as [|r rows IH]; intros acc; simpl.
  - unfold sum_amounts. simpl. ring.
  - rewrite IH. unfold sum_amounts, Pandas.sum_step.
    destruct (decide (matches e c r)) as [Hm | Hm].
    + rewrite (filter_cons_True _ _ _ Hm). destruct Hm as [<- <-].
      rewrite lookup_insert_eq. simpl. ring.
    + rewrite (filter_cons_False _ _ _ Hm).
      rewrite lookup_insert_ne; [reflexivity |].
      intros [= He Hc]. apply Hm. split; assumption.
Qed.

Lemma sum_step_absent rows acc e c :
  acc !! (e, c) = None ->
  Forall (fun r => ~ matches e c r) rows ->
  foldl Pandas.sum_step acc rows !! (e, c) = None.
Proof.
  intros Hacc Hall. revert acc Hacc.
  induction Hall as [|r rows Hr Hall IH]; intros acc Hacc; simpl.
  - exact Hacc.
  - apply IH. unfold Pandas.sum_step.
    rewrite lookup_insert_ne; [exact Hacc |].
    intros [= He Hc]. apply Hr. split; assumption.
Qed.

Lemma loc_pivot_table rows e c :
  e ∈ map r_konto rows -> c ∈ map r_paragraf rows ->
  Pandas.loc (Pandas.pivot_table rows) e c
  = Some (default 0%Q (Pandas.group_sum rows !! (e, c))).
Proof.
  intros He Hc. unfold Pandas.loc, Pandas.pivot_table. simpl.
  apply elem_of_sorted_unique, get_loc_elem in He as [i Hi].
  apply elem_of_sorted_unique, get_loc_elem in Hc as [j Hj].
  rewrite Hi, Hj. simpl.
  apply get_loc_lookup in Hi, Hj.
  rewrite list_lookup_fmap, Hi. simpl.
  rewrite list_lookup_fmap, Hj. reflexivity.
Qed.

(** A line whose amount is 0, as every amount that does not read as a number
    is, leaves every sum as it is. *)
Lemma sum_amounts_zero_line rows r e c :
  (r_kwota r == 0)%Q ->
  (sum_amounts (rows ++ [r]) e c == sum_amounts rows e c)%Q.
Proof.
  intros Hr. unfold sum_amounts. rewrite filter_app, map_app, foldr_app.
  assert (E : (foldr Qplus 0 (map r_kwota (filter (matches e c) [r])) == 0)%Q).
  { destruct (decide (matches e c r)) as [Hm | Hm].
    - rewrite (filter_cons_True _ _ _ Hm). simpl. rewrite Hr. ring.
    - rewrite (filter_cons_False _ _ _ Hm). simpl. reflexivity. }
  revert E. generalize (foldr Qplus 0%Q (map r_kwota (filter (matches e c) [r]))).
  intros z Hz. induction (map r_kwota (filter (matches e c) rows)) as [|q l IH];
    simpl; [exact Hz | rewrite IH; reflexivity].
Qed.

(** ** Normalisation *)

Lemma foldl_zip_with_length (f : Q -> Q -> Q) k rs r :
  length r = k -> Forall (fun row => length row = k) rs ->
  length (foldl (zip_with f) r rs) = k.
Proof.
  intros Hr Hall. revert r Hr.
  induction Hall as [|r1 rs H1 Hall IH]; intros r Hr; simpl; [exact Hr |].
  apply IH. rewrite length_zip_with. lia.
Qed.

Lemma foldl_zip_with_lookup (f : Q -> Q -> Q) k rs r j x :
  Forall (fun row => length row = k) rs ->
  r !! j = Some x -> (j < k)%nat ->
  foldl (zip_with f) r rs !! j = Some (foldl f x (column j rs)) /\
  length (column j rs) = length rs.
Proof.
  intros Hall. revert r x.
  induction Hall as [|r1 rs H1 Hall IH]; intros r x Hx Hj; simpl.
  - split; [exact Hx | reflexivity].
  - destruct (lookup_lt_is_Some_2 r1 j) as [x1 Hx1]; [lia |].
    unfold column. simpl. rewrite Hx1. simpl.
    destruct (IH (zip_with f r r1) (f x x1)) as [IH1 IH2]; [| exact Hj |].
    + rewrite lookup_zip_with, Hx, Hx1. reflexivity.
    + split; [exact IH1 |]. unfold column in IH2. rewrite IH2. reflexivity.
Qed.

Lemma Qmin_cases x y : Qmin x y = x \/ Qmin x y = y.
Proof.
  unfold Qmin, GenericMinMax.gmin. destruct (x ?= y)%Q; auto.
Qed.

Lemma Qmax_cases x y : Qmax x y = x \/ Qmax x y = y.
Proof.
  unfold Qmax, GenericMinMax.gmax. destruct (x ?= y)%Q; auto.
Qed.

Lemma foldl_Qmin_least l x :
  foldl Qmin x l ∈ x :: l /\
  forall y, y ∈ x :: l -> (foldl Qmin x l <= y)%Q.
Proof.
  revert x. induction l as [|z l IH]; intros x; simpl.
  - split; [apply list_elem_of_here |].
    intros y Hy. apply list_elem_of_singleton in Hy as ->. apply Qle_refl.
  - destruct (IH (Qmin x z)) as [Hin Hle]. split.
    + apply elem_of_cons in Hin as [-> | Hin].
      * destruct (Qmin_cases x z) as [-> | ->];
          [apply list_elem_of_here | apply list_elem_of_further, list_elem_of_here].
      * do 2 apply list_elem_of_further. exact Hin.
    + intros y Hy.
      assert (Hm : (foldl Qmin (Qmin x z) l <= Qmin x z)%Q)
        by apply Hle, list_elem_of_here.
      apply elem_of_cons in Hy as [-> | Hy].
      * eapply Qle_trans; [exact Hm | apply Q.le_min_l].
      * apply elem_of_cons in Hy as [-> | Hy].
        -- eapply Qle_trans; [exact Hm | apply Q.le_min_r].
        -- apply Hle, list_elem_of_further, Hy.
Qed.

Lemma foldl_Qmax_greatest l x :
  foldl Qmax x l ∈ x :: l /\
  forall y, y ∈ x :: l -> (y <= foldl Qmax x l)%Q.
Proof.
  revert x. induction l as [|z l IH]; intros x; simpl.
  - split; [apply list_elem_of_here |].
    intros y Hy. apply list_elem_of_singleton in Hy as ->. apply Qle_refl.
  - destruct (IH (Qmax x z)) as [Hin Hle]. split.
    + apply elem_of_cons in Hin as [-> | Hin].
      * destruct (Qmax_cases x z) as [-> | ->];
          [apply list_elem_of_here | apply list_elem_of_further, list_elem_of_here].
      * do 2 apply list_elem_of_further. exact Hin.
    + intros y Hy.
      assert (Hm : (Qmax x z <= foldl Qmax (Qmax x z) l)%Q)
        by apply Hle, list_elem_of_here.
      apply elem_of_cons in Hy as [-> | Hy].
      * eapply Qle_trans; [apply Q.le_max_l | exact Hm].
      * apply elem_of_cons in Hy as [-> | Hy].
        -- eapply Qle_trans; [apply Q.le_max_r | exact Hm].
        -- apply Hle, list_elem_of_further, Hy.
Qed.

Lemma epsilon_pos : (0 < epsilon)%Q.
Proof. reflexivity. Qed.

Lemma rescale_bounds x mn mx :
  (mn <= x)%Q -> (x <= mx)%Q -> (0 <= rescale x mn mx <= 1)%Q.
Proof.
  intros H1 H2. pose proof epsilon_pos as He. unfold rescale.
  assert (Hd : (0 < mx - mn + epsilon)%Q) by lra.
  split.
  - apply Qle_shift_div_l; [exact Hd | lra].
  - apply Qle_shift_div_r; [exact Hd | lra].
Qed.

Lemma rescale_constant x mn mx :
  (mn <= x)%Q -> (x <= mx)%Q -> (mx == mn)%Q -> (rescale x mn mx == 0)%Q.
Proof.
  intros H1 H2 H3. unfold rescale.
  assert (Hx : (x - mn == 0)%Q) by lra.
  rewrite Hx. unfold Qdiv. ring.
Qed.

(** The two reductions of line 140 on an array with lines of length [k]. *)
Lemma axis0_column (f : Q -> Q -> Q) k r rs v j m :
  Forall (fun row => length row = k) (r :: rs) ->
  Numpy.axis0 f (r :: rs) = Ok v -> v !! j = Some m ->
  exists x, r !! j = Some x /\ m = foldl f x (column j rs) /\
            column j (r :: rs) = x :: column j rs.
Proof.
  intros Hall [= <-] Hm. inversion Hall as [|? ? Hr Hrs]; subst.
  assert (Hj : (j < length r)%nat).
  { apply lookup_lt_Some in Hm.
    rewrite (foldl_zip_with_length f (length r) rs r) in Hm; auto. }
  destruct (lookup_lt_is_Some_2 r j Hj) as [x Hx].
  destruct (foldl_zip_with_lookup f (length r) rs r j x Hrs Hx Hj) as [Hl _].
  rewrite Hl in Hm. injection Hm as <-.
  exists x. repeat split; [exact Hx |].
  unfold column. simpl. rewrite Hx. reflexivity.
Qed.

(** ** The size of the map *)

Lemma agree_spec fuel n :
  agree fuel n = true ->
  forall i, n <= i < n + Z.of_nat fuel -> map_size i = grid_root i + 2.
Proof.
  revert n. induction fuel as [|f IH]; intros n H i Hi; [lia |].
  simpl in H. apply andb_prop in H as [H1 H2].
  destruct (Z.eq_dec i n) as [-> | Hne]; [apply Z.eqb_eq, H1 |].
  apply (IH (n + 1) H2). lia.
Qed.

Lemma agree_max_accounts : agree (Z.to_nat (max_accounts + 1)) 0 = true.
Proof. vm_compute. reflexivity. Qed.

Lemma map_size_grid_root n :
  0 <= n <= max_accounts -> map_size n = grid_root n + 2.
Proof.
  intros Hn. apply (agree_spec _ 0 agree_max_accounts).
  rewrite Z2Nat.id; unfold max_accounts in *; lia.
Qed.



(** ** The first best position of an array *)

Section FirstBest.

Variable keeps : Q -> Q -> bool.
Hypothesis keeps_total : forall a b, keeps a b = true \/ keeps b a = true.
Hypothesis keeps_trans :
  forall a b c, keeps a b = true -> keeps b c = true -> keeps a c = true.

Lemma first_best_from_spec l pre best bv :
  is_first_best keeps pre best bv ->
  exists v,
    is_first_best keeps (pre ++ l)
      (first_best_from keeps best bv (length pre) l) v.
Proof.
  revert pre best bv.
  induction l as [|v l IH]; intros pre best bv Hpre; simpl.
  - exists bv. rewrite app_nil_r. exact Hpre.
  - destruct Hpre as [Hb Hall].
    assert (Hlt : (best < length pre)%nat) by (eapply lookup_lt_Some, Hb).
    replace (pre ++ v :: l) with ((pre ++ [v]) ++ l)
      by (rewrite <- app_assoc; reflexivity).
    replace (S (length pre)) with (length (pre ++ [v]))
      by (rewrite length_app; simpl; lia).
    destruct (keeps bv v) eqn:E; apply IH; split.
    + rewrite lookup_app_l by exact Hlt. exact Hb.
    + intros q u Hq. apply lookup_app_Some in Hq as [Hq | [Hge Hq]].
      * apply Hall, Hq.
      * apply list_lookup_singleton_Some in Hq as [_ <-].
        split; [exact E | lia].
    + rewrite lookup_app_r by lia. rewrite Nat.sub_diag. reflexivity.
    + intros q u Hq.
      assert (Hvb : keeps v bv = true)
        by (destruct (keeps_total v bv) as [H | H]; congruence).
      apply lookup_app_Some in Hq as [Hq | [Hge Hq]].
      * destruct (Hall q u Hq) as [Hk _]. split.
        -- eapply keeps_trans; [exact Hvb | exact Hk].
        -- intros _. destruct (keeps u v) eqn:Euv; [| reflexivity].
           rewrite (keeps_trans bv u v Hk Euv) in E. discriminate.
      * apply list_lookup_singleton_Some in Hq as [Hq <-].
        split; [destruct (keeps_total v v); assumption | lia].
Qed.

Lemma first_best_spec l :
  l <> [] ->
  exists p v, first_best keeps l = Ok p /\ is_first_best keeps l p v.
Proof.
  destruct l as [|v l]; [congruence |]. intros _. simpl.
  destruct (first_best_from_spec l [v] 0%nat v) as [v' Hv'].
  - split; [reflexivity |]. intros q u Hq.
    apply list_lookup_singleton_Some in Hq as [-> <-].
    split; [destruct (keeps_total v v); assumption | lia].
  - exists (first_best_from keeps 0%nat v 1%nat l), v'.
    split; [reflexivity | exact Hv'].
Qed.

End FirstBest.

Lemma Qle_bool_total a b : Qle_bool a b = true \/ Qle_bool b a = true.
Proof.
  rewrite !Qle_bool_iff. destruct (Qlt_le_dec a b) as [H | H];
    [left; apply Qlt_le_weak, H | right; exact H].
Qed.

Lemma Qle_bool_trans a b c :
  Qle_bool a b = true -> Qle_bool b c = true -> Qle_bool a c = true.
Proof. rewrite !Qle_bool_iff. apply Qle_trans. Qed.

Lemma Qle_bool_false a b : Qle_bool a b = false <-> (b < a)%Q.
Proof.
  rewrite <- not_true_iff_false, Qle_bool_iff. split.
  - apply Qnot_le_lt.
  - apply Qlt_not_le.
Qed.

(** The least value of a non-empty array and its first position. *)
Lemma argmin_spec l :
  l <> [] ->
  exists p v, argmin l = Ok p /\ l !! p = Some v /\
    forall q u, l !! q = Some u ->
      (v <= u)%Q /\ ((q < p)%nat -> (v < u)%Q).
Proof.
  intros Hl.
  destruct (first_best_spec Qle_bool Qle_bool_total Qle_bool_trans l Hl)
    as (p & v & Hp & Hv & Hall).
  exists p, v. split; [exact Hp |]. split; [exact Hv |].
  intros q u Hq. destruct (Hall q u Hq) as [H1 H2].
  split; [apply Qle_bool_iff, H1 |].
  intros Hlt. apply Qle_bool_false, H2, Hlt.
Qed.

(** The greatest value of a non-empty array and its first position. *)
Lemma argmax_spec l :
  l <> [] ->
  exists p v, argmax l = Ok p /\ l !! p = Some v /\
    forall q u, l !! q = Some u ->
      (u <= v)%Q /\ ((q < p)%nat -> (u < v)%Q).
Proof.
  intros Hl.
  destruct (first_best_spec (fun b v => Qle_bool v b)
              (fun a b => Qle_bool_total b a)
              (fun a b c H1 H2 => Qle_bool_trans c b a H2 H1) l Hl)
    as (p & v & Hp & Hv & Hall).
  exists p, v. split; [exact Hp |]. split; [exact Hv |].
  intros q u Hq. destruct (Hall q u Hq) as [H1 H2].
  split; [apply Qle_bool_iff, H1 |].
  intros Hlt. apply Qle_bool_false, H2, Hlt.
Qed.

(** ** The winner *)

Lemma Qsquare_nonneg (d : Q) : (0 <= d * d)%Q.
Proof.
  destruct (Qlt_le_dec d 0) as [H | H].
  - assert (E : (d * d == (- d) * (- d))%Q) by ring.
    rewrite E. apply Qmult_le_0_compat; lra.
  - apply Qmult_le_0_compat; exact H.
Qed.

Lemma sq_distance_nonneg x w : (0 <= sq_distance x w)%Q.
Proof.
  unfold sq_distance. revert w.
  induction x as [|a x IH]; intros [|b w]; simpl; try apply Qle_refl.
  specialize (IH w).
  pose proof (Qsquare_nonneg (a - b)). lra.
Qed.

Lemma euclidean_le x w w' :
  (sq_distance x w <= sq_distance x w')%Q ->
  (euclidean_distance x w <= euclidean_distance x w')%R.
Proof.
  intros H. unfold euclidean_distance. apply sqrt_le_1_alt, Qle_Rle, H.
Qed.

Lemma euclidean_eq x w w' :
  euclidean_distance x w' = euclidean_distance x w ->
  (sq_distance x w' == sq_distance x w)%Q.
Proof.
  unfold euclidean_distance. intros H. apply eqR_Qeq, sqrt_inj.
  - replace 0%R with (Q2R 0) by (unfold Q2R; simpl; lra).
    apply Qle_Rle, sq_distance_nonneg.
  - replace 0%R with (Q2R 0) by (unfold Q2R; simpl; lra).
    apply Qle_Rle, sq_distance_nonneg.
  - exact H.
Qed.

Lemma concat_mjoin {A} (ls : list (list A)) : concat ls = mjoin ls.
Proof. induction ls as [|l ls IH]; simpl; [reflexivity |]. rewrite IH. reflexivity. Qed.

Lemma activation_map_lookup w x gy p v :
  Forall (fun row => length row = gy) w ->
  concat (activation_map w x) !! p = Some v <->
  exists i j wv, neuron w i j = Some wv /\ v = sq_distance x wv /\
                 p = (i * gy + j)%nat /\ (j < gy)%nat.
Proof.
  intros Hw. rewrite concat_mjoin.
  rewrite (join_lookup_Some_same_length gy).
  2:{ unfold activation_map. apply Forall_fmap.
      eapply Forall_impl; [exact Hw |]. intros row Hrow. simpl.
      rewrite length_fmap. exact Hrow. }
  unfold activation_map, neuron. split.
  - intros (i & row & j & Hi & Hj & ->).
    rewrite list_lookup_fmap in Hi.
    destruct (w !! i) as [wrow|] eqn:Ewi; simpl in Hi; [| discriminate].
    injection Hi as <-. rewrite list_lookup_fmap in Hj.
    destruct (wrow !! j) as [wv|] eqn:Ewj; simpl in Hj; [| discriminate].
    injection Hj as <-. exists i, j, wv. rewrite Ewi. simpl.
    split; [exact Ewj |]. split; [reflexivity |]. split; [reflexivity |].
    apply lookup_lt_Some in Ewj. rewrite Forall_forall in Hw.
    rewrite <- (Hw wrow); [exact Ewj |]. eapply list_elem_of_lookup_2, Ewi.
  - intros (i & j & wv & Hn & -> & -> & Hj).
    destruct (w !! i) as [wrow|] eqn:Ewi; simpl in Hn; [| discriminate].
    exists i, (map (sq_distance x) wrow), j.
    rewrite !list_lookup_fmap, Ewi, Hn. auto.
Qed.

(** ** The frame and the shape of the pivot *)

Section FrameFacts.

Variable float_repr : Q -> string.

Lemma make_rows_konto ks ps qs :
  length ps = length ks -> length qs = length ks ->
  map r_konto (make_rows ks ps qs) = ks /\
  map r_paragraf (make_rows ks ps qs) = ps /\
  map r_kwota (make_rows ks ps qs) = qs.
Proof.
  revert ps qs. induction ks as [|k ks IH]; intros [|p ps] [|q qs];
    simpl; intros H1 H2; try discriminate; [auto |].
  destruct (IH ps qs) as (E1 & E2 & E3); [lia | lia |].
  rewrite E1, E2, E3. auto.
Qed.

Lemma getitem_Ok {A} (col : Operation -> A) (df : list Operation) :
  df <> [] -> getitem col df = Ok (map col df).
Proof. destruct df; [congruence | reflexivity]. Qed.

Lemma clean_frame_Ok raw rows :
  clean_frame float_repr raw = Ok rows ->
  raw <> [] /\
  map r_konto rows = map konto raw /\
  map r_paragraf rows = map (label_of float_repr) raw /\
  Forall2 (fun op q => clean_currency float_repr (kwota op) = Ok q)
          raw (map r_kwota rows).
Proof.
  unfold clean_frame. intros H.
  destruct (decide (raw = [])) as [-> | Hne]; [discriminate |].
  rewrite !getitem_Ok in H by exact Hne. cbn [bind] in H.
  apply bind_Ok in H as (amounts & Ha & [= <-]).
  apply mapM_Ok in Ha. apply Forall2_fmap_l in Ha.
  pose proof (Forall2_length _ _ _ Ha) as Hlen.
  destruct (make_rows_konto (map konto raw)
              (map (clean_paragraph float_repr) (map paragraf raw)) amounts)
    as (E1 & E2 & E3).
  - rewrite !length_map. reflexivity.
  - rewrite length_map. symmetry. exact Hlen.
  - split; [exact Hne |]. split; [exact E1 |]. split.
    + rewrite E2. rewrite <- list_fmap_compose. reflexivity.
    + rewrite E3. exact Ha.
Qed.

Lemma clean_frame_total raw :
  raw <> [] ->
  Forall (fun op => exists q, clean_currency float_repr (kwota op) = Ok q) raw ->
  exists rows, clean_frame float_repr raw = Ok rows.
Proof.
  intros Hne Hall. unfold clean_frame.
  rewrite !getitem_Ok by exact Hne. cbn [bind].
  assert (H : exists amounts,
             mapM (clean_currency float_repr) (map kwota raw) = Ok amounts).
  { clear Hne. induction Hall as [|o l [q Hq] Hall IH]; simpl.
    - eauto.
    - destruct IH as [qs Hqs]. rewrite Hq, Hqs. simpl. eauto. }
  destruct H as [amounts ->]. cbn [bind]. eauto.
Qed.

Lemma build_Ok raw p :
  build float_repr raw = Ok p ->
  exists rows,
    clean_frame float_repr raw = Ok rows /\ p = Pandas.pivot_table rows /\
    raw <> [] /\
    index p = Pandas.sorted_unique (map konto raw) /\
    columns p = Pandas.sorted_unique (map (label_of float_repr) raw).
Proof.
  unfold build. intros H. apply bind_Ok in H as (rows & Hrows & [= <-]).
  exists rows. destruct (clean_frame_Ok raw rows Hrows) as (Hne & E1 & E2 & _).
  split; [exact Hrows |]. split; [reflexivity |]. split; [exact Hne |].
  simpl. rewrite E1, E2. auto.
Qed.

Lemma sorted_unique_nonempty l : l <> [] -> Pandas.sorted_unique l <> [].
Proof.
  destruct l as [|x l]; [congruence |]. intros _ H.
  assert (Hx : x ∈ Pandas.sorted_unique (x :: l))
    by (apply elem_of_sorted_unique, list_elem_of_here).
  rewrite H in Hx. inversion Hx.
Qed.

Lemma pivot_table_shape rows :
  length (values (Pandas.pivot_table rows))
  = length (index (Pandas.pivot_table rows)) /\
  Forall (fun row => length row = length (columns (Pandas.pivot_table rows)))
         (values (Pandas.pivot_table rows)).
Proof.
  unfold Pandas.pivot_table. simpl. split.
  - rewrite length_map. reflexivity.
  - apply Forall_fmap, Forall_forall. intros e _. simpl.
    rewrite length_map. reflexivity.
Qed.

End FrameFacts.

(** ** The groups *)

Lemma dict_append_members k name d :
  members (dict_append k name d) ≡ₚ name :: members d.
Proof.
  unfold members. induction d as [|[k' names] d IH]; simpl.
  - reflexivity.
  - destruct (decide (k = k')) as [-> | Hne]; simpl.
    + rewrite <- app_assoc. simpl.
      rewrite <- Permutation_middle. reflexivity.
    + rewrite IH. rewrite <- Permutation_middle. reflexivity.
Qed.

Lemma dict_append_keys k name d k0 :
  k0 ∈ map fst (dict_append k name d) <-> k0 = k \/ k0 ∈ map fst d.
Proof.
  induction d as [|[k' names] d IH]; simpl.
  - rewrite list_elem_of_singleton, elem_of_nil. tauto.
  - destruct (decide (k = k')) as [-> | Hne]; simpl.
    + rewrite elem_of_cons. tauto.
    + rewrite !elem_of_cons, IH. tauto.
Qed.

Lemma dict_append_keys_NoDup k name d :
  NoDup (map fst d) -> NoDup (map fst (dict_append k name d)).
Proof.
  induction d as [|[k' names] d IH]; simpl; intros Hnd.
  - apply NoDup_singleton.
  - apply NoDup_cons in Hnd as [Hnin Hnd].
    destruct (decide (k = k')) as [-> | Hne]; simpl.
    + apply NoDup_cons. auto.
    + apply NoDup_cons. split; [| apply IH, Hnd].
      rewrite dict_append_keys. intros [-> | H]; [congruence | auto].
Qed.

Lemma dict_append_nonempty k name d :
  Forall (fun g => snd g <> []) d ->
  Forall (fun g => snd g <> []) (dict_append k name d).
Proof.
  induction 1 as [|[k' names] d Hg Hall IH]; simpl.
  - constructor; [discriminate | constructor].
  - destruct (decide (k = k')) as [-> | Hne]; constructor; simpl; auto.
    destruct names; discriminate.
Qed.

Lemma group_loop_spec win pairs d0 d :
  group_loop win pairs d0 = Ok d ->
  members d ≡ₚ members d0 ++ map fst pairs /\
  (NoDup (map fst d0) -> NoDup (map fst d)) /\
  (Forall (fun g => snd g <> []) d0 -> Forall (fun g => snd g <> []) d).
Proof.
  revert d0. induction pairs as [|[name row] pairs IH]; intros d0; simpl.
  - intros [= <-]. rewrite app_nil_r. auto.
  - intros H. apply bind_Ok in H as (k & _ & H).
    destruct (IH _ H) as (Hp & Hk & Hn). split; [| split].
    + rewrite Hp, dict_append_members. simpl.
      rewrite <- Permutation_middle. reflexivity.
    + intros Hd0. apply Hk, dict_append_keys_NoDup, Hd0.
    + intros Hd0. apply Hn, dict_append_nonempty, Hd0.
Qed.

(** Lists without a common element stand at different places of a
    concatenation without repetition. *)
Lemma NoDup_concat_unique {A} (ls : list (list A)) i j a b x :
  NoDup (concat ls) ->
  ls !! i = Some a -> ls !! j = Some b -> x ∈ a -> x ∈ b -> i = j.
Proof.
  revert i j. induction ls as [|l ls IH]; intros i j Hnd Hi Hj Ha Hb.
  - rewrite lookup_nil in Hi. discriminate.
  - simpl in Hnd. apply NoDup_app in Hnd as (Hl & Hdis & Hls).
    assert (Hin : forall k c, ls !! k = Some c -> x ∈ c -> x ∈ concat ls).
    { intros k c Hk Hc. apply list_elem_of_In, in_concat. exists c.
      split; apply list_elem_of_In; [eapply list_elem_of_lookup_2, Hk | exact Hc]. }
    destruct i as [|i], j as [|j]; simpl in Hi, Hj.
    + reflexivity.
    + injection Hi as <-. exfalso. apply (Hdis x Ha). eapply Hin; eauto.
    + injection Hj as <-. exfalso. apply (Hdis x Hb). eapply Hin; eauto.
    + f_equal. eapply IH; eauto.
Qed.

Lemma normalize_length a n : normalize a = Ok n -> length n = length a.
Proof.
  unfold normalize. destruct a as [|r rs]; [discriminate |].
  cbn [Numpy.axis0 bind]. intros [= <-].
  simpl. unfold Numpy.rows_div, Numpy.rows_sub.
  rewrite !List.length_map. reflexivity.
Qed.

(** C7.  Once the accounts are assigned, whatever the trained map returns
    as winners, the lists of accounts of the groups split the accounts of the
    input: an account of the input is in a group and every member of a group
    is an account of the input, no account occurs twice in or across the
    lists, and the groups that hold a given account are one and the same. *)
Theorem C7_groups_partition_accounts (float_repr : Q -> string)
    (raw : list Operation) (pivot_df : Pivot) (data_normalized : list (list Q))
    (win : list Q -> result (nat * nat)) (d : Groups) :
  build float_repr raw = Ok pivot_df ->
  normalize (values pivot_df) = Ok data_normalized ->
  grouped_accounts win pivot_df data_normalized = Ok d ->
  (forall e, e ∈ map konto raw <-> e ∈ members d) /\
  NoDup (members d) /\
  (forall e i j gi gj,
      d !! i = Some gi -> d !! j = Some gj ->
      e ∈ snd gi -> e ∈ snd gj -> i = j).
Proof.
  intros Hb Hn Hg.
  destruct (build_Ok float_repr raw pivot_df Hb) as (rows & _ & Hp & _ & Hidx & _).
  apply normalize_length in Hn.
  assert (Hlen : length data_normalized = length (index pivot_df)).
  { rewrite Hn, Hp. apply pivot_table_shape. }
  unfold grouped_accounts in Hg.
  destruct (group_loop_spec _ _ _ _ Hg) as (Hperm & _ & _).
  simpl in Hperm. rewrite fst_zip in Hperm by lia.
  assert (Hnd : NoDup (members d)).
  { rewrite Hperm, Hidx. apply sorted_unique_NoDup. }
  split; [| split].
  - intros e. rewrite Hperm, Hidx, elem_of_sorted_unique. reflexivity.
  - exact Hnd.
  - intros e i j gi gj Hi Hj Hei Hej.
    apply (NoDup_concat_unique (map snd d) i j (snd gi) (snd gj) e Hnd);
      [rewrite list_lookup_fmap, Hi | rewrite list_lookup_fmap, Hj | |];
      auto.
Qed.

(** ** The dominant paragraph of a group *)

Lemma foldl_Qplus_Qsum l x : (foldl Qplus x l == x + Qsum l)%Q.
Proof.
  revert x. induction l as [|y l IH]; intros x; simpl.
  - ring.
  - rewrite IH. ring.
Qed.


(** The lines that [loc] reads for accounts of the index. *)
Lemma loc_rows_Ok (p : Pivot) (accounts : list string) :
  length (values p) = length (index p) ->
  Forall (fun a => a ∈ index p) accounts ->
  exists gv, loc_rows p accounts = Ok gv /\
    Forall2 (fun a row => exists i, Pandas.get_loc a (index p) = Some i /\
                                    values p !! i = Some row) accounts gv.
Proof.
  intros Hlen Hall. unfold loc_rows.
  induction Hall as [|a accounts Ha Hall IH]; simpl.
  - exists []. split; [reflexivity | constructor].
  - destruct IH as (gv & Hgv & Hf).
    destruct (get_loc_elem a (index p) Ha) as [i Hi].
    destruct (lookup_lt_is_Some_2 (values p) i) as [row Hrow].
    { rewrite Hlen. eapply lookup_lt_Some, get_loc_lookup, Hi. }
    rewrite Hi. simpl. rewrite Hrow. simpl. rewrite Hgv. simpl.
    exists (row :: gv). split; [reflexivity |].
    constructor; [eauto | exact Hf].
Qed.

Lemma group_column (p : Pivot) (accounts : list string) gv j c :
  NoDup (columns p) -> columns p !! j = Some c ->
  Forall (fun row => length row = length (columns p)) (values p) ->
  Forall2 (fun a row => exists i, Pandas.get_loc a (index p) = Some i /\
                                  values p !! i = Some row) accounts gv ->
  column j gv = map (fun a => default 0%Q (Pandas.loc p a c)) accounts /\
  Forall (fun row => length row = length (columns p)) gv.
Proof.
  intros Hnd Hj Hshape Hf.
  pose proof (get_loc_NoDup _ _ _ Hnd Hj) as Hloc.
  induction Hf as [|a row accounts gv (i & Hi & Hrow) Hf [IH1 IH2]]; simpl.
  - split; [reflexivity | constructor].
  - assert (Hlen : length row = length (columns p)).
    { rewrite Forall_forall in Hshape. apply Hshape.
      eapply list_elem_of_lookup_2, Hrow. }
    destruct (lookup_lt_is_Some_2 row j) as [v Hv].
    { rewrite Hlen. eapply lookup_lt_Some, Hj. }
    split; [| constructor; assumption].
    unfold column in *. simpl. rewrite Hv. simpl. rewrite IH1. f_equal.
    unfold Pandas.loc. rewrite Hi, Hloc. simpl. rewrite Hrow. simpl.
    rewrite Hv. reflexivity.
Qed.

(** The means that [frame.mean()] returns, column by column. *)
Lemma mean_lookup (p : Pivot) (accounts : list string) gv j c :
  NoDup (columns p) -> columns p !! j = Some c ->
  Forall (fun row => length row = length (columns p)) (values p) ->
  Forall2 (fun a row => exists i, Pandas.get_loc a (index p) = Some i /\
                                  values p !! i = Some row) accounts gv ->
  exists m, mean (length (columns p)) gv !! j = Some m /\
            (m == group_mean p accounts c)%Q.
Proof.
  intros Hnd Hj Hshape Hf.
  destruct (group_column p accounts gv j c Hnd Hj Hshape Hf) as [Hcol Hgv].
  assert (Hjk : (j < length (columns p))%nat) by (eapply lookup_lt_Some, Hj).
  destruct (foldl_zip_with_lookup Qplus (length (columns p)) gv
              (replicate (length (columns p)) 0%Q) j 0%Q Hgv) as [Hl _];
    [apply lookup_replicate_2, Hjk | exact Hjk |].
  unfold mean. rewrite list_lookup_fmap, Hl. simpl.
  eexists. split; [reflexivity |].
  unfold group_mean. rewrite foldl_Qplus_Qsum, Hcol.
  rewrite (Forall2_length _ _ _ Hf). unfold Qdiv. ring.
Qed.

Lemma mean_length (k : nat) gv :
  Forall (fun row => length row = k) gv -> length (mean k gv) = k.
Proof.
  intros H. unfold mean. rewrite length_fmap.
  apply foldl_zip_with_length; [apply length_replicate | exact H].
Qed.

(** ** Cleaning of the labels *)

Lemma lstrip_head s :
  Text.lstrip s = EmptyString \/
  exists c t, Text.lstrip s = String c t /\ Text.is_space c = false.
Proof.
  induction s as [|c s IH]; simpl; [auto |].
  destruct (Text.is_space c) eqn:E; [exact IH | right; eauto].
Qed.

Lemma rstrip_idem s : Text.rstrip (Text.rstrip s) = Text.rstrip s.
Proof.
  induction s as [|c s IH]; simpl; [reflexivity |].
  destruct (Text.is_space c && Text.is_empty (Text.rstrip s)) eqn:E;
    [reflexivity |].
  simpl. rewrite IH, E. reflexivity.
Qed.

Lemma strip_idem s : Text.strip (Text.strip s) = Text.strip s.
Proof.
  unfold Text.strip. destruct (lstrip_head s) as [-> | (c & t & -> & Hc)];
    [reflexivity |].
  simpl. rewrite Hc. simpl. rewrite Hc. simpl. rewrite Hc. simpl.
  rewrite rstrip_idem. reflexivity.
Qed.

Lemma before_dot_idem s : Text.before_dot (Text.before_dot s) = Text.before_dot s.
Proof.
  induction s as [|c s IH]; simpl; [reflexivity |].
  destruct (Ascii.eqb c ".") eqn:E; [reflexivity |].
  simpl. rewrite E, IH. reflexivity.
Qed.

Lemma before_dot_lstrip s :
  Text.before_dot s = s -> Text.before_dot (Text.lstrip s) = Text.lstrip s.
Proof.
  induction s as [|c s IH]; simpl; [reflexivity |].
  destruct (Ascii.eqb c ".") eqn:E; [discriminate |]. intros [= H].
  destruct (Text.is_space c); [apply IH, H |].
  simpl. rewrite E, H. reflexivity.
Qed.

Lemma before_dot_rstrip s :
  Text.before_dot s = s -> Text.before_dot (Text.rstrip s) = Text.rstrip s.
Proof.
  induction s as [|c s IH]; simpl; [reflexivity |].
  destruct (Ascii.eqb c ".") eqn:E; [discriminate |]. intros [= H].
  destruct (Text.is_space c && Text.is_empty (Text.rstrip s)); [reflexivity |].
  simpl. rewrite E, (IH H). reflexivity.
Qed.

Lemma before_dot_strip s :
  Text.before_dot (Text.strip (Text.before_dot s))
  = Text.strip (Text.before_dot s).
Proof.
  unfold Text.strip. apply before_dot_rstrip, before_dot_lstrip, before_dot_idem.
Qed.

Lemma before_dot_app code rest :
  Text.before_dot code = code ->
  Text.before_dot (code ++ String "." rest)%string = code.
Proof.
  induction code as [|c code IH]; simpl; [reflexivity |].
  destruct (Ascii.eqb c ".") eqn:E; [discriminate |]. intros [= H].
  rewrite (IH H). reflexivity.
Qed.

(** ** Cleaning of the amounts *)

Lemma re_sub_chars s c :
  c ∈ list_ascii_of_string (Text.re_sub_non_amount s) ->
  Text.amount_char c = true.
Proof.
  induction s as [|a s IH]; simpl; [intros H; inversion H |].
  destruct (Text.amount_char a) eqn:E; [| exact IH].
  simpl. intros H. apply elem_of_cons in H as [-> | H]; [exact E | apply IH, H].
Qed.

Lemma replace_comma_chars s c :
  (forall a, a ∈ list_ascii_of_string s -> Text.amount_char a = true) ->
  c ∈ list_ascii_of_string (Text.replace_comma s) ->
  Text.is_digit c = true \/ c = "."%char \/ c = "-"%char.
Proof.
  induction s as [|a s IH]; simpl; intros Hs H; [inversion H |].
  apply elem_of_cons in H as [-> | H].
  - destruct (Ascii.eqb a ",") eqn:E; [auto |].
    assert (Ha : Text.amount_char a = true)
      by apply Hs, list_elem_of_here.
    unfold Text.amount_char in Ha. rewrite E in Ha.
    rewrite orb_false_r in Ha. apply orb_true_iff in Ha as [Ha | Ha];
      [auto | apply Ascii.eqb_eq in Ha; auto].
  - apply IH; [| exact H]. intros b Hb. apply Hs, list_elem_of_further, Hb.
Qed.

(** ** Empty input *)

(** C3, as the script has it.  With no operation at all, the only input with
    no account or no paragraph, the lookup of the column [kwota] raises
    [KeyError] at line 125: the script stops there, before the pivot, the
    normalisation and the training, and nothing catches the exception.  A
    pivot that is built has at least one account and one paragraph. *)
Theorem C3_empty_input_raises_KeyError `{L : MiniSomLib}
    (float_repr : Q -> string) (entropy : rng) :
  build float_repr [] = Raise KeyError /\
  run float_repr entropy [] = Raise KeyError /\
  forall raw pivot_df,
    build float_repr raw = Ok pivot_df ->
    raw <> [] /\ index pivot_df <> [] /\ columns pivot_df <> [].
Proof.
  split; [reflexivity |]. split; [reflexivity |].
  intros raw p Hb.
  destruct (build_Ok float_repr raw p Hb) as (_ & _ & _ & Hne & Hi & Hc).
  split; [exact Hne |]. rewrite Hi, Hc.
  split; apply sorted_unique_nonempty; destruct raw;
    solve [congruence | discriminate].
Qed.

(** The exception of the empty input is not named [EmptyInputError]. *)
Lemma C3_counterexample :
  ~ exists e, build no_repr [] = Raise e /\
              exc_name e = "EmptyInputError"%string.
Proof. intros (e & [= <-] & H). discriminate H. Qed.

(** ** The random generator of the map *)

Section Generator.

Context `{L : MiniSomLib}.

Lemma random_weights_init_shape som data :
  som_x (random_weights_init som data) = som_x som /\
  som_y (random_weights_init som data) = som_y som /\
  random_seed (random_weights_init som data) = random_seed som.
Proof.
  unfold random_weights_init.
  destruct (lib_random_weights_init _ _) as [w g]. auto.
Qed.

Lemma train_random_shape som data n :
  som_x (train_random som data n) = som_x som /\
  som_y (train_random som data n) = som_y som /\
  random_seed (train_random som data n) = random_seed som.
Proof.
  unfold train_random.
  destruct (lib_train_random _ _ _ _ _) as [w g]. auto.
Qed.

Lemma make_som_shape pivot_df entropy :
  let g := Z.to_nat (map_size (Z.of_nat (length (index pivot_df)))) in
  som_x (make_som pivot_df entropy) = g /\
  som_y (make_som pivot_df entropy) = g /\
  random_seed (make_som pivot_df entropy) = None.
Proof.
  unfold make_som, MiniSom.
  destruct (constructor_weights _ _ _ _) as [w g']. auto.
Qed.

Lemma trained_som_shape pivot_df dn entropy :
  let g := Z.to_nat (map_size (Z.of_nat (length (index pivot_df)))) in
  som_x (trained_som pivot_df dn entropy) = g /\
  som_y (trained_som pivot_df dn entropy) = g /\
  random_seed (trained_som pivot_df dn entropy) = None.
Proof.
  unfold trained_som.
  destruct (train_random_shape
              (random_weights_init (make_som pivot_df entropy) dn) dn 1000)
    as (-> & -> & ->).
  destruct (random_weights_init_shape (make_som pivot_df entropy) dn)
    as (-> & -> & ->).
  apply make_som_shape.
Qed.

Lemma group_loop_ext win1 win2 pairs d :
  (forall x, win1 x = win2 x) ->
  group_loop win1 pairs d = group_loop win2 pairs d.
Proof.
  intros H. revert d. induction pairs as [|[name row] pairs IH]; intros d; simpl.
  - reflexivity.
  - rewrite H. destruct (win2 row); simpl; [apply IH | reflexivity].
Qed.

End Generator.

(** ** Amounts *)


(** ** The output of a run *)

Lemma normalize_built (float_repr : Q -> string) raw p :
  build float_repr raw = Ok p -> exists dn, normalize (values p) = Ok dn.
Proof.
  intros Hb.
  destruct (build_Ok float_repr raw p Hb) as (rows & _ & Hp & Hne & Hi & _).
  assert (Hv : values p <> []).
  { intros E. destruct (pivot_table_shape rows) as [Hlen _].
    rewrite <- Hp, E, Hi in Hlen. simpl in Hlen.
    apply (sorted_unique_nonempty (map konto raw));
      [destruct raw; solve [congruence | discriminate] |].
    apply nil_length_inv. symmetry. exact Hlen. }
  unfold normalize. destruct (values p); [congruence |]. simpl. eauto.
Qed.

Section RunFacts.

Context `{L : MiniSomLib}.
Variable float_repr : Q -> string.

(** A run that prints its groups went through every stage, and what it
    prints are the groups of [grouped_accounts], each with its [top_para]. *)
Lemma run_Ok entropy raw out :
  run float_repr entropy raw = Ok out ->
  exists pivot_df data_normalized d,
    build float_repr raw = Ok pivot_df /\
    normalize (values pivot_df) = Ok data_normalized /\
    grouped_accounts (winner (trained_som pivot_df data_normalized entropy))
      pivot_df data_normalized = Ok d /\
    Forall2 (fun g o => o.1 = g /\ top_para pivot_df g.2 = Ok o.2) d out.
Proof.
  unfold run. intros H.
  apply bind_Ok in H as (p & Hp & H).
  apply bind_Ok in H as (dn & Hdn & H).
  apply bind_Ok in H as (d & Hd & H).
  exists p, dn, d. repeat split; try assumption.
  apply mapM_Ok in H. eapply Forall2_impl; [exact H |].
  intros [coords accounts] o Ho. simpl in Ho.
  apply bind_Ok in Ho as (top & Htop & [= <-]). simpl. auto.
Qed.

End RunFacts.

(** ** The properties on the data of the script *)

Example raw_data_frame : clean_frame no_repr raw_data = Ok raw_rows.
Proof. reflexivity. Qed.

Example raw_groups_value :
  raw_groups = [ ((1, 0)%nat, ["Konto_A"; "Konto_C"]%string);
                 ((0, 1)%nat, ["Konto_B"; "Konto_D"]%string) ].
Proof. vm_compute. reflexivity. Qed.

(** The scenario of the specification on a grid that tells the two kinds of
    accounts apart: A and C fall in one group under paragraph 4210, B and D
    in another under 4300. *)
Example raw_groups_top_para :
  mapM (fun g => top_para raw_pivot g.2) raw_groups
  = Ok ["4210"; "4300"]%string.
Proof. vm_compute. reflexivity. Qed.

Example map_size_of_four_accounts : map_size 4 = 5.
Proof. reflexivity. Qed.

Example amount_with_spaces_and_comma :
  clean_currency no_repr (PyStr "1 200,50 zl") = Ok (120050 # 100)%Q.
Proof. reflexivity. Qed.

Example paragraph_of_spreadsheet_float :
  clean_paragraph (fun _ => "4210.0"%string) (PyFloat 4210) = "4210"%string.
Proof. reflexivity. Qed.

Lemma C7_witness :
  build no_repr raw_data = Ok raw_pivot /\
  normalize (values raw_pivot) = Ok raw_normalized /\
  grouped_accounts nearest raw_pivot raw_normalized = Ok raw_groups /\
  (forall e, e ∈ map konto raw_data <-> e ∈ members raw_groups) /\
  NoDup (members raw_groups) /\
  (forall e i j gi gj,
      raw_groups !! i = Some gi -> raw_groups !! j = Some gj ->
      e ∈ snd gi -> e ∈ snd gj -> i = j).
Proof.
  assert (H1 : build no_repr raw_data = Ok raw_pivot) by reflexivity.
  assert (H2 : normalize (values raw_pivot) = Ok raw_normalized)
    by (vm_compute; reflexivity).
  assert (H3 : grouped_accounts nearest raw_pivot raw_normalized = Ok raw_groups)
    by (vm_compute; reflexivity).
  split; [exact H1 |]. split; [exact H2 |]. split; [exact H3 |].
  exact (C7_groups_partition_accounts no_repr raw_data raw_pivot raw_normalized
           nearest raw_groups H1 H2 H3).
Defined.

(** * Further properties of the script *)

(** ** Texts of digits *)

#[local] Arguments String.append !s1 s2 /.

Lemma string_length_app a b :
  String.length (a ++ b)%string = (String.length a + String.length b)%nat.
Proof. induction a as [|c a IH]; simpl; [reflexivity | rewrite IH; reflexivity]. Qed.

Lemma decimal_app a b :
  decimal (a ++ b)%string
  = decimal a * 10 ^ Z.of_nat (String.length b) + decimal b.
Proof.
  induction a as [|c a IH]; simpl; [ring |].
  rewrite IH. rewrite string_length_app, Nat2Z.inj_add, Z.pow_add_r by lia.
  ring.
Qed.

Lemma all_digits_app a b :
  all_digits (a ++ b)%string = all_digits a && all_digits b.
Proof.
  induction a as [|c a IH]; simpl; [reflexivity |].
  rewrite IH, andb_assoc. reflexivity.
Qed.

(** [span_digits] reads a text of digits to its end and goes on. *)
Lemma span_digits_digits d r acc cnt :
  all_digits d = true ->
  Text.span_digits (d ++ r)%string acc cnt
  = Text.span_digits r (acc * 10 ^ Z.of_nat (String.length d) + decimal d)
      (cnt + String.length d)%nat.
Proof.
  revert acc cnt. induction d as [|c d IH]; intros acc cnt Hd; simpl.
  - f_equal; [lia | lia].
  - simpl in Hd. apply andb_true_iff in Hd as [Hc Hd]. rewrite Hc.
    rewrite (IH _ _ Hd). f_equal; [| lia].
    rewrite Nat2Z.inj_succ, Z.pow_succ_r by lia. ring.
Qed.

Lemma span_digits_stop r acc cnt :
  match r with
  | EmptyString => True
  | String c _ => Text.is_digit c = false
  end ->
  Text.span_digits r acc cnt = (acc, cnt, r).
Proof. destruct r as [|c r]; simpl; [reflexivity | intros ->; reflexivity]. Qed.

(** What [span_digits] returns: the digits it read and the rest, which is
    empty or starts with a character that is no digit. *)
Lemma span_digits_split s acc cnt v n r :
  Text.span_digits s acc cnt = (v, n, r) ->
  exists d, s = (d ++ r)%string /\ all_digits d = true /\
            n = (cnt + String.length d)%nat /\
            v = acc * 10 ^ Z.of_nat (String.length d) + decimal d /\
            match r with
            | EmptyString => True
            | String c _ => Text.is_digit c = false
            end.
Proof.
  revert acc cnt. induction s as [|c s IH]; intros acc cnt; simpl.
  - intros [= <- <- <-]. exists EmptyString. simpl.
    repeat split; lia.
  - destruct (Text.is_digit c) eqn:Hc.
    + intros H. destruct (IH _ _ H) as (d & -> & Hd & -> & -> & Hr).
      exists (String c d). simpl. rewrite Hc, Hd.
      repeat split; [lia | | exact Hr].
      rewrite Nat2Z.inj_succ, Z.pow_succ_r by lia. ring.
    + intros [= <- <- <-]. exists EmptyString. simpl.
      repeat split; [lia | lia | exact Hc].
Qed.

Lemma string_app_nil_r (s : string) : (s ++ EmptyString)%string = s.
Proof. induction s as [|c s IH]; simpl; [reflexivity | rewrite IH; reflexivity]. Qed.

Lemma string_app_assoc (a b c : string) :
  ((a ++ b) ++ c)%string = (a ++ (b ++ c))%string.
Proof. induction a as [|x a IH]; simpl; [reflexivity | rewrite IH; reflexivity]. Qed.

Lemma digit_not_hyphen c : Text.is_digit c = true -> Ascii.eqb c "-" = false.
Proof.
  destruct c as [[] [] [] [] [] [] [] []]; vm_compute; congruence.
Qed.

Lemma digit_not_dot c : Text.is_digit c = true -> Ascii.eqb c "." = false.
Proof.
  destruct c as [[] [] [] [] [] [] [] []]; vm_compute; congruence.
Qed.

Lemma digit_not_comma c : Text.is_digit c = true -> Ascii.eqb c "," = false.
Proof.
  destruct c as [[] [] [] [] [] [] [] []]; vm_compute; congruence.
Qed.

Lemma digit_not_space c : Text.is_digit c = true -> Text.is_space c = false.
Proof.
  destruct c as [[] [] [] [] [] [] [] []]; vm_compute; congruence.
Qed.

Lemma space_not_amount c : Text.is_space c = true -> Text.amount_char c = false.
Proof.
  destruct c as [[] [] [] [] [] [] [] []]; vm_compute; congruence.
Qed.

(** The texts that [float_of_text] reads, and the numbers they write. *)
Lemma float_of_text_integer neg ip :
  all_digits ip = true -> ip <> EmptyString ->
  Text.float_of_text (sign_text neg ++ ip)%string
  = Some (Text.signed neg (inject_Z (decimal ip))).
Proof.
  intros Hd Hne. unfold Text.float_of_text.
  assert (Hbody :
    match (sign_text neg ++ ip)%string with
    | String c t =>
        if Ascii.eqb c "-" then (true, t) else (false, (sign_text neg ++ ip)%string)
    | EmptyString => (false, (sign_text neg ++ ip)%string)
    end = (neg, ip)).
  { destruct neg; simpl; [reflexivity |].
    destruct ip as [|c ip]; [congruence |]. simpl in Hd.
    apply andb_true_iff in Hd as [Hc _]. rewrite (digit_not_hyphen c Hc).
    reflexivity. }
  rewrite Hbody.
  rewrite <- (string_app_nil_r ip) at 1.
  rewrite (span_digits_digits ip EmptyString 0 0 Hd). simpl.
  destruct ip as [|c ip]; [congruence |]. simpl String.length. simpl Nat.eqb.
  reflexivity.
Qed.

Lemma float_of_text_decimal neg ip fp :
  all_digits ip = true -> all_digits fp = true ->
  ip <> EmptyString \/ fp <> EmptyString ->
  Text.float_of_text (sign_text neg ++ ip ++ String "." fp)%string
  = Some (Text.signed neg
            (Qmake (decimal ip * 10 ^ Z.of_nat (String.length fp) + decimal fp)
                   (Z.to_pos (10 ^ Z.of_nat (String.length fp))))).
Proof.
  intros Hi Hf Hne. unfold Text.float_of_text.
  assert (Hbody :
    match (sign_text neg ++ ip ++ String "." fp)%string with
    | String c t =>
        if Ascii.eqb c "-" then (true, t)
        else (false, (sign_text neg ++ ip ++ String "." fp)%string)
    | EmptyString => (false, (sign_text neg ++ ip ++ String "." fp)%string)
    end = (neg, (ip ++ String "." fp)%string)).
  { destruct neg; simpl; [reflexivity |].
    destruct ip as [|c ip]; simpl; [reflexivity |]. simpl in Hi.
    apply andb_true_iff in Hi as [Hc _]. rewrite (digit_not_hyphen c Hc).
    reflexivity. }
  rewrite Hbody.
  rewrite (span_digits_digits ip (String "." fp) 0 0 Hi).
  rewrite (span_digits_stop (String "." fp)) by reflexivity.
  cbn [Ascii.eqb Bool.eqb]. simpl (Ascii.eqb "." ".").
  rewrite <- (string_app_nil_r fp) at 1.
  rewrite (span_digits_digits fp EmptyString 0 0 Hf). simpl Text.span_digits.
  cbn [Text.is_empty andb].
  assert (Hn : Nat.eqb (0 + String.length ip + String.length fp) 0 = false).
  { apply Nat.eqb_neq. destruct Hne as [H | H];
      [destruct ip | destruct fp]; simpl; try congruence; lia. }
  rewrite Hn. simpl negb. cbv iota. do 3 f_equal; try ring.
Qed.

Lemma float_of_text_Some t q :
  Text.float_of_text t = Some q ->
  exists neg ip fp (dot : bool),
    t = (sign_text neg ++ ip ++ (if dot then String "." fp else EmptyString))%string
    /\ all_digits ip = true /\ all_digits fp = true.
Proof.
  unfold Text.float_of_text.
  set (nb := match t with
             | String c t' => if Ascii.eqb c "-" then (true, t') else (false, t)
             | EmptyString => (false, t)
             end).
  assert (Ht : t = (sign_text (fst nb) ++ snd nb)%string).
  { subst nb. destruct t as [|c t]; [reflexivity |].
    destruct (Ascii.eqb c "-") eqn:E; simpl; [| reflexivity].
    apply Ascii.eqb_eq in E as ->. reflexivity. }
  destruct nb as [neg body]. simpl in Ht.
  destruct (Text.span_digits body 0 0) as [[ip n1] r1] eqn:E1.
  destruct (span_digits_split _ _ _ _ _ _ E1) as (d1 & Hb & Hd1 & _ & _ & _).
  destruct r1 as [|c r2].
  - intros _. exists neg, d1, EmptyString, false. rewrite Ht, Hb. auto.
  - destruct (Ascii.eqb c ".") eqn:Ec; [| discriminate].
    apply Ascii.eqb_eq in Ec as ->.
    destruct (Text.span_digits r2 0 0) as [[fp n2] r3] eqn:E2.
    destruct (span_digits_split _ _ _ _ _ _ E2) as (d2 & Hr2 & Hd2 & _ & _ & _).
    destruct r3 as [|c3 r3]; simpl; [| discriminate].
    intros _. exists neg, d1, d2, true. rewrite Ht, Hb, Hr2, string_app_nil_r.
    auto.
Qed.

(** ** Amounts written as texts *)

Lemma re_sub_lstrip s :
  Text.re_sub_non_amount (Text.lstrip s) = Text.re_sub_non_amount s.
Proof.
  induction s as [|c s IH]; simpl; [reflexivity |].
  destruct (Text.is_space c) eqn:E; [| reflexivity].
  rewrite (space_not_amount c E). exact IH.
Qed.

Lemma re_sub_rstrip s :
  Text.re_sub_non_amount (Text.rstrip s) = Text.re_sub_non_amount s.
Proof.
  induction s as [|c s IH]; simpl; [reflexivity |].
  destruct (Text.is_space c) eqn:E; simpl.
  - rewrite (space_not_amount c E).
    destruct (Text.rstrip s) as [|a t] eqn:Er; simpl.
    + rewrite <- IH. reflexivity.
    + rewrite (space_not_amount c E), <- IH. reflexivity.
  - rewrite IH. reflexivity.
Qed.

Lemma re_sub_strip s :
  Text.re_sub_non_amount (Text.strip s) = Text.re_sub_non_amount s.
Proof. unfold Text.strip. rewrite re_sub_rstrip. apply re_sub_lstrip. Qed.

Lemma re_sub_idem s :
  Text.re_sub_non_amount (Text.re_sub_non_amount s) = Text.re_sub_non_amount s.
Proof.
  induction s as [|c s IH]; simpl; [reflexivity |].
  destruct (Text.amount_char c) eqn:E; [| exact IH].
  simpl. rewrite E, IH. reflexivity.
Qed.

(** The amount of a text, from its digits, commas and hyphens. *)
Lemma clean_currency_text (float_repr : Q -> string) s :
  clean_currency float_repr (PyStr s)
  = Ok (default 0%Q (Text.float_of_text
                       (Text.replace_comma (Text.re_sub_non_amount s)))).
Proof.
  simpl. rewrite re_sub_strip.
  destruct (Text.float_of_text _); reflexivity.
Qed.

Lemma replace_comma_app a b :
  Text.replace_comma (a ++ b)%string
  = (Text.replace_comma a ++ Text.replace_comma b)%string.
Proof. induction a as [|c a IH]; simpl; [reflexivity | rewrite IH; reflexivity]. Qed.

Lemma replace_comma_digits d :
  all_digits d = true -> Text.replace_comma d = d.
Proof.
  induction d as [|c d IH]; simpl; [reflexivity |].
  intros H. apply andb_true_iff in H as [Hc Hd].
  rewrite (digit_not_comma c Hc), (IH Hd). reflexivity.
Qed.

Lemma replace_comma_sign neg : Text.replace_comma (sign_text neg) = sign_text neg.
Proof. destruct neg; reflexivity. Qed.

(** X2.  When the digits, commas and hyphens of an ASCII text are an optional
    hyphen, digits, and possibly one comma followed by digits, with a digit
    somewhere, and the decimal number so written, the comma being the decimal
    mark, is a binary64 number, the amount is that number. *)
Theorem clean_currency_decimal_comma (float_repr : Q -> string) (s : string)
    (neg : bool) (ip : string) (frac : option string) :
  is_ascii s = true ->
  Text.re_sub_non_amount s
  = (sign_text neg ++ ip ++
     match frac with Some fp => String "," fp | None => EmptyString end)%string ->
  all_digits ip = true ->
  all_digits (default EmptyString frac) = true ->
  ip <> EmptyString \/ default EmptyString frac <> EmptyString ->
  binary64_number
    (Text.signed neg
       (inject_Z (decimal ip)
        + match frac with
          | Some fp =>
              Qmake (decimal fp) (Z.to_pos (10 ^ Z.of_nat (String.length fp)))
          | None => 0
          end)) ->
  exists q,
    clean_currency float_repr (PyStr s) = Ok q /\
    (q == Text.signed neg
            (inject_Z (decimal ip)
             + match frac with
               | Some fp =>
                   Qmake (decimal fp) (Z.to_pos (10 ^ Z.of_nat (String.length fp)))
               | None => 0
               end))%Q.
Proof.
  intros _ Hs Hi Hf Hne _. rewrite clean_currency_text, Hs.
  rewrite !replace_comma_app, replace_comma_sign, (replace_comma_digits ip Hi).
  destruct frac as [fp |]; simpl in Hf, Hne |- *.
  - rewrite (replace_comma_digits fp Hf).
    rewrite (float_of_text_decimal neg ip fp Hi Hf Hne). simpl.
    eexists. split; [reflexivity |].
    assert (Hp : 0 < 10 ^ Z.of_nat (String.length fp))
      by (apply Z.pow_pos_nonneg; lia).
    assert (E : (Qmake (decimal ip * 10 ^ Z.of_nat (String.length fp) + decimal fp)
                       (Z.to_pos (10 ^ Z.of_nat (String.length fp)))
                 == inject_Z (decimal ip)
                    + Qmake (decimal fp)
                            (Z.to_pos (10 ^ Z.of_nat (String.length fp))))%Q).
    { unfold Qeq, Qplus, inject_Z. simpl.
      rewrite !Pos2Z.inj_mul, !Z2Pos.id by exact Hp. ring. }
    destruct neg; simpl; rewrite E; reflexivity.
  - rewrite string_app_nil_r.
    destruct Hne as [Hne | Hne]; [| congruence].
    rewrite (float_of_text_integer neg ip Hi Hne). simpl.
    eexists. split; [reflexivity |].
    destruct neg; simpl; ring.
Qed.

Lemma clean_currency_decimal_comma_witness :
  exists q,
    clean_currency no_repr (PyStr "-1 200,50 PLN") = Ok q /\
    (q == Text.signed true
            (inject_Z (decimal "1200") + Qmake (decimal "50") (Z.to_pos (10 ^ 2))))%Q.
Proof.
  apply (clean_currency_decimal_comma no_repr "-1 200,50 PLN" true "1200"
           (Some "50"%string)).
  - reflexivity.
  - reflexivity.
  - reflexivity.
  - reflexivity.
  - left. discriminate.
  - exists (-2401), 1. split; [reflexivity |]. split; [lia | reflexivity].
Defined.

Lemma count_char_app c a b :
  count_char c (a ++ b)%string = (count_char c a + count_char c b)%nat.
Proof. induction a as [|x a IH]; simpl; [reflexivity | rewrite IH; lia]. Qed.

Lemma count_char_digits c d :
  Text.is_digit c = false -> all_digits d = true -> count_char c d = 0%nat.
Proof.
  intros Hc. induction d as [|x d IH]; simpl; [reflexivity |].
  intros H. apply andb_true_iff in H as [Hx Hd]. rewrite (IH Hd).
  destruct (Ascii.eqb x c) eqn:E; [| reflexivity].
  apply Ascii.eqb_eq in E as ->. congruence.
Qed.

Lemma count_comma_re_sub s :
  count_char "," (Text.re_sub_non_amount s) = count_char "," s.
Proof.
  induction s as [|c s IH]; simpl; [reflexivity |].
  destruct (Text.amount_char c) eqn:E; simpl; [rewrite IH; reflexivity |].
  rewrite IH. destruct (Ascii.eqb c ",") eqn:Ec; [| reflexivity].
  unfold Text.amount_char in E. rewrite Ec, orb_true_r in E. discriminate.
Qed.

Lemma count_dot_re_sub s : count_char "." (Text.re_sub_non_amount s) = 0%nat.
Proof.
  induction s as [|c s IH]; simpl; [reflexivity |].
  destruct (Text.amount_char c) eqn:E; simpl; [| exact IH].
  rewrite IH. destruct (Ascii.eqb c ".") eqn:Ec; [| reflexivity].
  apply Ascii.eqb_eq in Ec as ->. discriminate E.
Qed.

Lemma count_dot_replace_comma s :
  count_char "." (Text.replace_comma s)
  = (count_char "," s + count_char "." s)%nat.
Proof.
  induction s as [|c s IH]; simpl; [reflexivity |]. rewrite IH.
  destruct (Ascii.eqb c ",") eqn:Ec.
  - apply Ascii.eqb_eq in Ec as ->. simpl. lia.
  - destruct (Ascii.eqb c "."); simpl; lia.
Qed.

Lemma count_hyphen_replace_comma s :
  count_char "-" (Text.replace_comma s) = count_char "-" s.
Proof.
  induction s as [|c s IH]; simpl; [reflexivity |]. rewrite IH.
  destruct (Ascii.eqb c ",") eqn:Ec; [| reflexivity].
  apply Ascii.eqb_eq in Ec as ->. reflexivity.
Qed.

(** A text that is read as a number has at most one dot, and no hyphen but
    a first one. *)
Lemma float_of_text_counts t q :
  Text.float_of_text t = Some q ->
  (count_char "." t <= 1)%nat /\
  match t with
  | EmptyString => True
  | String _ t' => count_char "-" t' = 0%nat
  end.
Proof.
  intros H. destruct (float_of_text_Some t q H)
    as (neg & ip & fp & dot & -> & Hi & Hf).
  assert (Hdot : forall c, Text.is_digit c = false ->
            (count_char c (ip ++ (if dot then String "." fp else EmptyString))%string
             = if dot then (if Ascii.eqb "." c then 1 else 0) else 0)%nat).
  { intros c Hc. rewrite count_char_app, (count_char_digits c ip Hc Hi).
    destruct dot; simpl; [| reflexivity].
    rewrite (count_char_digits c fp Hc Hf). lia. }
  split.
  - rewrite count_char_app, (Hdot "."%char eq_refl).
    destruct neg, dot; simpl; lia.
  - destruct neg; simpl.
    + rewrite (Hdot "-"%char eq_refl). destruct dot; reflexivity.
    + pose proof (Hdot "-"%char eq_refl) as Hc.
      destruct ip as [|c ip]; simpl.
      * destruct dot; [| exact I].
        apply count_char_digits; [reflexivity | exact Hf].
      * simpl in Hc. destruct dot; simpl in Hc; lia.
Qed.

(** X3.  A text with two commas or more, or with a hyphen after a digit, a
    comma or another hyphen, is no number for [float]: its amount is 0. *)
Theorem clean_currency_malformed_text_is_zero (float_repr : Q -> string)
    (s : string) :
  (2 <= count_char "," s)%nat \/
  (exists a b, a <> EmptyString /\
               Text.re_sub_non_amount s = (a ++ String "-" b)%string) ->
  clean_currency float_repr (PyStr s) = Ok 0%Q.
Proof.
  intros H. rewrite clean_currency_text.
  destruct (Text.float_of_text _) as [q |] eqn:E; [| reflexivity].
  exfalso. apply float_of_text_counts in E as [Hdots Hhyphen].
  destruct H as [H | (a & b & Ha & Hs)].
  - rewrite count_dot_replace_comma, count_comma_re_sub, count_dot_re_sub in Hdots.
    lia.
  - rewrite Hs, replace_comma_app in Hhyphen.
    destruct a as [|c a]; [congruence |]. simpl in Hhyphen.
    rewrite count_char_app in Hhyphen. simpl in Hhyphen. lia.
Qed.

Lemma clean_currency_malformed_text_is_zero_witness :
  ((2 <= count_char "," "1,200,50")%nat \/
   (exists a b, a <> EmptyString /\
                Text.re_sub_non_amount "1,200,50" = (a ++ String "-" b)%string)) /\
  clean_currency no_repr (PyStr "1,200,50") = Ok 0%Q.
Proof.
  assert (H : (2 <= count_char "," "1,200,50")%nat \/
              (exists a b, a <> EmptyString /\
                 Text.re_sub_non_amount "1,200,50" = (a ++ String "-" b)%string))
    by (left; simpl; lia).
  split; [exact H |].
  exact (clean_currency_malformed_text_is_zero no_repr "1,200,50" H).
Defined.

(** ** Integers written as texts *)

Lemma pretty_N_char_digit m :
  (m < 10)%N ->
  Text.is_digit (pretty_N_char m) = true /\
  Z.of_N (N_of_ascii (pretty_N_char m)) - 48 = Z.of_N m.
Proof.
  intros H.
  assert (Hm : (m = 0 \/ m = 1 \/ m = 2 \/ m = 3 \/ m = 4 \/ m = 5 \/ m = 6
                \/ m = 7 \/ m = 8 \/ m = 9)%N) by lia.
  destruct Hm as [-> | [-> | [-> | [-> | [-> | [-> | [-> | [-> | [-> | ->]]]]]]]]];
    split; reflexivity.
Qed.

(** [pretty_N_go x s] writes the digits of [x] before [s]. *)
Lemma pretty_N_go_digits x s :
  exists d, pretty_N_go x s = (d ++ s)%string /\ all_digits d = true /\
            decimal d = Z.of_N x /\ ((0 < x)%N -> d <> EmptyString).
Proof.
  revert s. induction (N.lt_wf_0 x) as [x _ IH]; intros s.
  destruct (N.eq_dec x 0%N) as [-> | Hx].
  - exists EmptyString. rewrite pretty_N_go_0. repeat split. lia.
  - assert (Hpos : (0 < x)%N) by lia.
    rewrite pretty_N_go_step by exact Hpos.
    destruct (IH (N.div x 10) (N.div_lt x 10 Hpos eq_refl)
                 (String (pretty_N_char (N.modulo x 10)) s))
      as (d & Hd & Hall & Hval & _).
    destruct (pretty_N_char_digit (N.modulo x 10)) as [Hc Hv];
      [apply N.mod_lt; lia |].
    exists (d ++ String (pretty_N_char (N.modulo x 10)) EmptyString)%string.
    split; [rewrite Hd, string_app_assoc; reflexivity |].
    split; [rewrite all_digits_app, Hall; simpl; rewrite Hc; reflexivity |].
    split.
    + rewrite decimal_app, Hval. simpl. rewrite Hv.
      rewrite (N.div_mod x 10) at 3 by lia.
      rewrite N2Z.inj_add, N2Z.inj_mul. simpl Z.of_N. lia.
    + intros _. destruct d; discriminate.
Qed.

Lemma pretty_N_digits (x : N) :
  all_digits (pretty x) = true /\ pretty x <> EmptyString /\
  decimal (pretty x) = Z.of_N x.
Proof.
  unfold pretty, pretty_N. destruct (decide (x = 0%N)) as [-> | Hx].
  - repeat split. discriminate.
  - destruct (pretty_N_go_digits x EmptyString) as (d & Hd & Hall & Hval & Hne).
    rewrite Hd, string_app_nil_r. repeat split; [exact Hall | | exact Hval].
    apply Hne. lia.
Qed.

(** The text of an integer: a hyphen when it is negative, then the digits
    of its magnitude. *)
Lemma pretty_Z_digits (z : Z) :
  exists d : string,
    pretty z = (sign_text (z <? 0)%Z ++ d)%string /\
    all_digits d = true /\ d <> EmptyString /\ decimal d = Z.abs z.
Proof.
  destruct z as [| p | p]; unfold pretty, pretty_Z.
  - exists "0"%string. repeat split. discriminate.
  - destruct (pretty_N_digits (N.pos p)) as (Ha & Hn & Hv).
    exists (pretty (N.pos p)). repeat split; assumption.
  - destruct (pretty_N_digits (N.pos p)) as (Ha & Hn & Hv).
    exists (pretty (N.pos p)). repeat split; assumption.
Qed.

Lemma re_sub_digits d : all_digits d = true -> Text.re_sub_non_amount d = d.
Proof.
  induction d as [|c d IH]; simpl; [reflexivity |].
  intros H. apply andb_true_iff in H as [Hc Hd].
  unfold Text.amount_char. rewrite Hc. simpl. rewrite (IH Hd). reflexivity.
Qed.

Lemma before_dot_digits d : all_digits d = true -> Text.before_dot d = d.
Proof.
  induction d as [|c d IH]; simpl; [reflexivity |].
  intros H. apply andb_true_iff in H as [Hc Hd].
  rewrite (digit_not_dot c Hc), (IH Hd). reflexivity.
Qed.

Lemma rstrip_digits d : all_digits d = true -> Text.rstrip d = d.
Proof.
  induction d as [|c d IH]; simpl; [reflexivity |].
  intros H. apply andb_true_iff in H as [Hc Hd].
  rewrite (digit_not_space c Hc), (IH Hd). reflexivity.
Qed.

Lemma strip_signed_digits neg d :
  all_digits d = true -> Text.strip (sign_text neg ++ d)%string
                         = (sign_text neg ++ d)%string.
Proof.
  intros Hd. unfold Text.strip.
  assert (Hl : Text.lstrip (sign_text neg ++ d)%string = (sign_text neg ++ d)%string).
  { destruct neg; simpl; [reflexivity |].
    destruct d as [|c d]; simpl; [reflexivity |]. simpl in Hd.
    apply andb_true_iff in Hd as [Hc _]. rewrite (digit_not_space c Hc).
    reflexivity. }
  rewrite Hl. destruct neg; simpl; [| apply rstrip_digits, Hd].
  rewrite (rstrip_digits d Hd). reflexivity.
Qed.

(** X4.  An integer cell and the text that writes it are one amount and one
    label: for an integer that [float] converts, [clean_currency] of its
    text is [clean_currency] of the integer, and [clean_paragraph] of the
    integer is its decimal text. *)
Theorem integer_and_its_text_agree (float_repr : Q -> string) (z : Z) :
  Z.abs z < float_int_limit ->
  clean_currency float_repr (PyStr (pretty z))
  = clean_currency float_repr (PyInt z) /\
  clean_paragraph float_repr (PyInt z) = pretty z /\
  clean_paragraph float_repr (PyStr (pretty z)) = pretty z.
Proof.
  intros Hz. destruct (pretty_Z_digits z) as (d & Hp & Hd & Hne & Hv).
  assert (Hlabel : Text.strip (Text.before_dot (pretty z)) = pretty z).
  { rewrite Hp.
    assert (Hb : Text.before_dot (sign_text (z <? 0)%Z ++ d)%string
                 = (sign_text (z <? 0)%Z ++ d)%string)
      by (destruct (z <? 0); simpl; rewrite (before_dot_digits d Hd); reflexivity).
    rewrite Hb. apply strip_signed_digits, Hd. }
  split; [| split; exact Hlabel].
  rewrite clean_currency_text. simpl clean_currency. unfold float_of_int.
  apply Z.ltb_lt in Hz. rewrite Hz. f_equal.
  rewrite Hp.
  assert (Hr : Text.re_sub_non_amount (sign_text (z <? 0)%Z ++ d)%string
               = (sign_text (z <? 0)%Z ++ d)%string)
    by (destruct (z <? 0); simpl; rewrite (re_sub_digits d Hd); reflexivity).
  rewrite Hr, replace_comma_app, replace_comma_sign, (replace_comma_digits d Hd).
  rewrite (float_of_text_integer _ d Hd Hne), Hv. simpl.
  destruct z as [| p | p]; reflexivity.
Qed.

Lemma integer_and_its_text_agree_witness :
  Z.abs (-4210) < float_int_limit /\
  clean_currency no_repr (PyStr (pretty (-4210)))
  = clean_currency no_repr (PyInt (-4210)) /\
  clean_paragraph no_repr (PyInt (-4210)) = pretty (-4210) /\
  clean_paragraph no_repr (PyStr (pretty (-4210))) = pretty (-4210).
Proof.
  assert (H : Z.abs (-4210) < float_int_limit) by reflexivity.
  split; [exact H |]. exact (integer_and_its_text_agree no_repr (-4210) H).
Defined.

(** ** The pivot as a table *)

(** X5.  The axes of the pivot are strictly increasing lists of labels that hold
    the accounts and the paragraphs of the frame and nothing else, and the
    array of values has one line per account and one entry per paragraph in
    every line. *)
Theorem pivot_axes_sorted_and_dense (rows : list Row) :
  let p := Pandas.pivot_table rows in
  StronglySorted label_lt (index p) /\
  StronglySorted label_lt (columns p) /\
  (forall e, e ∈ index p <-> e ∈ map r_konto rows) /\
  (forall c, c ∈ columns p <-> c ∈ map r_paragraf rows) /\
  length (values p) = length (index p) /\
  Forall (fun row => length row = length (columns p)) (values p).
Proof.
  destruct (pivot_table_shape rows) as [H1 H2]. simpl.
  split; [apply sorted_unique_sorted |]. split; [apply sorted_unique_sorted |].
  split; [intros e; apply elem_of_sorted_unique |].
  split; [intros c; apply elem_of_sorted_unique |].
  split; [exact H1 | exact H2].
Qed.

Lemma sorted_unique_same_elements l l' :
  (forall x, x ∈ l <-> x ∈ l') ->
  Pandas.sorted_unique l = Pandas.sorted_unique l'.
Proof.
  intros H. apply (StronglySorted_unique_strong label_lt).
  - intros x1 x2 _ _ H1 H2. exfalso.
    exact (label_lt_irrefl x1 (label_lt_trans _ _ _ H1 H2)).
  - apply sorted_unique_sorted.
  - apply sorted_unique_sorted.
  - apply NoDup_Permutation; [apply sorted_unique_NoDup.. |].
    intros x. rewrite !elem_of_sorted_unique. apply H.
Qed.

Lemma foldr_Qplus_perm (l l' : list Q) :
  l ≡ₚ l' -> (foldr Qplus 0 l == foldr Qplus 0 l')%Q.
Proof.
  induction 1 as [| x l l' _ IH | x y l | l l' l'' _ IH1 _ IH2]; simpl.
  - reflexivity.
  - rewrite IH. reflexivity.
  - ring.
  - rewrite IH1. exact IH2.
Qed.

Lemma pivot_entry_sum rows e c :
  (default 0 (Pandas.group_sum rows !! (e, c)) == sum_amounts rows e c)%Q.
Proof.
  unfold Pandas.group_sum. rewrite sum_step_acc, lookup_empty. simpl. ring.
Qed.

Lemma Qsum_cons (x : Q) (l : list Q) : Qsum (x :: l) = (x + Qsum l)%Q.
Proof. reflexivity. Qed.

Lemma Qsum_app (l l' : list Q) : (Qsum (l ++ l') == Qsum l + Qsum l')%Q.
Proof.
  unfold Qsum. induction l as [|x l IH]; simpl; [ring | rewrite IH; ring].
Qed.

Lemma Qsum_concat (ll : list (list Q)) : (Qsum (concat ll) == Qsum (map Qsum ll))%Q.
Proof.
  induction ll as [|l ll IH]; simpl; [reflexivity |].
  rewrite Qsum_app, IH. reflexivity.
Qed.

Lemma Qsum_map_ext {A} (f g : A -> Q) (l : list A) :
  (forall x, x ∈ l -> (f x == g x)%Q) ->
  (Qsum (map f l) == Qsum (map g l))%Q.
Proof.
  induction l as [|x l IH]; intros H; simpl; [reflexivity |].
  unfold Qsum in *. simpl. rewrite (H x) by apply list_elem_of_here.
  rewrite IH; [reflexivity |]. intros y Hy. apply H, list_elem_of_further, Hy.
Qed.

Lemma Qsum_map_plus {A} (f g : A -> Q) (l : list A) :
  (Qsum (map (fun x => f x + g x) l) == Qsum (map f l) + Qsum (map g l))%Q.
Proof.
  unfold Qsum. induction l as [|x l IH]; simpl; [ring | rewrite IH; ring].
Qed.

Lemma Qsum_map_zero {A} (l : list A) : (Qsum (map (fun _ => 0) l) == 0)%Q.
Proof.
  unfold Qsum. induction l as [|x l IH]; simpl; [reflexivity | rewrite IH; ring].
Qed.

(** Over a list without repetition that holds [a], the sum of a quantity
    counted at [a] alone is that quantity. *)
Lemma Qsum_map_single (l : list string) (a : string) (q : Q) :
  NoDup l -> a ∈ l ->
  (Qsum (map (fun x => if decide (x = a) then q else 0) l) == q)%Q.
Proof.
  intros Hnd Ha. induction Hnd as [|x l Hx Hnd IH]; [inversion Ha |].
  cbn [map]. rewrite Qsum_cons. destruct (decide (x = a)) as [-> | Hne].
  - assert (E : (Qsum (map (fun x => if decide (x = a) then q else 0) l)
                 == 0)%Q).
    { etransitivity; [| apply (Qsum_map_zero l)].
      apply Qsum_map_ext. intros y Hy.
      destruct (decide (y = a)) as [-> | _]; [contradiction | reflexivity]. }
    rewrite E. ring.
  - apply elem_of_cons in Ha as [-> | Ha]; [congruence |].
    rewrite (IH Ha). ring.
Qed.

Lemma sum_amounts_cons r rows e c :
  (sum_amounts (r :: rows) e c
   == (if decide (e = r_konto r) then
         if decide (c = r_paragraf r) then r_kwota r else 0
       else 0) + sum_amounts rows e c)%Q.
Proof.
  unfold sum_amounts. destruct (decide (matches e c r)) as [Hm | Hm].
  - rewrite (filter_cons_True _ _ _ Hm). destruct Hm as [<- <-].
    rewrite !decide_True by reflexivity. reflexivity.
  - rewrite (filter_cons_False _ _ _ Hm).
    destruct (decide (e = r_konto r)) as [-> | _]; [| ring].
    destruct (decide (c = r_paragraf r)) as [-> | _]; [| ring].
    exfalso. apply Hm. split; reflexivity.
Qed.

(** The sums of the groups over two axes that hold every account and every
    paragraph of the frame, once each, add up to the amounts of the frame. *)
Lemma sum_amounts_total (idx cols : list string) (rows : list Row) :
  NoDup idx -> NoDup cols ->
  Forall (fun r => r_konto r ∈ idx /\ r_paragraf r ∈ cols) rows ->
  (Qsum (map (fun e => Qsum (map (fun c => sum_amounts rows e c) cols)) idx)
   == Qsum (map r_kwota rows))%Q.
Proof.
  intros Hi Hc Hall. induction Hall as [|r rows [Hk Hp] Hall IH].
  - etransitivity; [| apply (Qsum_map_zero idx)].
    apply Qsum_map_ext. intros e _.
    etransitivity; [| apply (Qsum_map_zero cols)].
    apply Qsum_map_ext. intros c _. reflexivity.
  - assert (E : (Qsum (map (fun e => Qsum (map (fun c => sum_amounts (r :: rows) e c) cols)) idx)
                 == Qsum (map (fun e => (if decide (e = r_konto r) then r_kwota r else 0)
                                        + Qsum (map (fun c => sum_amounts rows e c) cols)) idx))%Q).
    { apply Qsum_map_ext. intros e _.
      rewrite (Qsum_map_ext _ _ cols (fun c _ => sum_amounts_cons r rows e c)).
      rewrite Qsum_map_plus.
      destruct (decide (e = r_konto r)) as [-> | _].
      - rewrite (Qsum_map_single cols (r_paragraf r) (r_kwota r) Hc Hp).
        reflexivity.
      - rewrite Qsum_map_zero. reflexivity. }
    rewrite E, Qsum_map_plus, IH.
    rewrite (Qsum_map_single idx (r_konto r) (r_kwota r) Hi Hk).
    unfold Qsum. simpl. reflexivity.
Qed.

(** ** The normalised values *)

(** Line 140 on an array with lines of length [k]: the least and greatest
    entries of the columns, and the entries of the result. *)
Lemma normalize_entries (a : list (list Q)) (k : nat) :
  a <> [] -> Forall (fun row => length row = k) a ->
  exists n mins maxs,
    normalize a = Ok n /\ length mins = k /\ length maxs = k /\
    length n = length a /\ Forall (fun row => length row = k) n /\
    (forall j mn mx, mins !! j = Some mn -> maxs !! j = Some mx ->
       mn ∈ column j a /\ mx ∈ column j a /\
       forall z, z ∈ column j a -> (mn <= z <= mx)%Q) /\
    (forall i j row x, a !! i = Some row -> row !! j = Some x ->
       exists mn mx, mins !! j = Some mn /\ maxs !! j = Some mx /\
                     n !! i ≫= (fun row' => row' !! j) = Some (rescale x mn mx)).
Proof.
  intros Hne Hall. destruct a as [|r rs]; [congruence |]. clear Hne.
  pose proof Hall as Hall'. inversion Hall' as [|? ? Hr Hrs]; subst.
  set (a := r :: rs) in *.
  set (mins := foldl (zip_with Qmin) r rs).
  set (maxs := foldl (zip_with Qmax) r rs).
  assert (Hlmin : length mins = length r)
    by (apply foldl_zip_with_length; auto).
  assert (Hlmax : length maxs = length r)
    by (apply foldl_zip_with_length; auto).
  exists (Numpy.rows_div (Numpy.rows_sub a mins)
            (map (fun d => (d + epsilon)%Q) (zip_with Qminus maxs mins))),
         mins, maxs.
  split; [reflexivity |]. split; [exact Hlmin |]. split; [exact Hlmax |].
  split; [unfold Numpy.rows_div, Numpy.rows_sub; rewrite !length_fmap;
          reflexivity |].
  split.
  { unfold Numpy.rows_div, Numpy.rows_sub. rewrite <- list_fmap_compose.
    apply Forall_fmap. eapply Forall_impl; [exact Hall |].
    intros row Hrow. simpl. simpl in Hrow.
    rewrite !length_zip_with, length_fmap, length_zip_with. lia. }
  split.
  - intros j mn mx Hmn Hmx.
    destruct (axis0_column Qmin (length r) r rs mins j mn Hall eq_refl Hmn)
      as (x0 & Hx0 & Emn & Hcol).
    destruct (axis0_column Qmax (length r) r rs maxs j mx Hall eq_refl Hmx)
      as (x1 & Hx1 & Emx & _).
    assert (x1 = x0) by congruence. subst x1.
    destruct (foldl_Qmin_least (column j rs) x0) as [Hmin_in Hmin_le].
    destruct (foldl_Qmax_greatest (column j rs) x0) as [Hmax_in Hmax_le].
    rewrite <- Emn in Hmin_in, Hmin_le. rewrite <- Emx in Hmax_in, Hmax_le.
    rewrite <- Hcol in Hmin_in, Hmin_le, Hmax_in, Hmax_le.
    split; [exact Hmin_in |]. split; [exact Hmax_in |].
    intros z Hz. split; [apply Hmin_le | apply Hmax_le]; exact Hz.
  - intros i j row x Hi Hx.
    assert (Hj : (j < length r)%nat).
    { apply lookup_lt_Some in Hx. rewrite Forall_forall in Hall.
      rewrite <- (Hall row); [exact Hx |]. eapply list_elem_of_lookup_2, Hi. }
    destruct (lookup_lt_is_Some_2 mins j) as [mn Hmn]; [lia |].
    destruct (lookup_lt_is_Some_2 maxs j) as [mx Hmx]; [lia |].
    exists mn, mx. split; [exact Hmn |]. split; [exact Hmx |].
    unfold Numpy.rows_div, Numpy.rows_sub.
    rewrite !list_lookup_fmap, Hi. simpl.
    rewrite !lookup_zip_with, Hx, Hmn. simpl.
    rewrite list_lookup_fmap, lookup_zip_with, Hmx, Hmn. reflexivity.
Qed.

Lemma rescale_below_one x mn mx :
  (x <= mx)%Q -> (mn <= mx)%Q -> (rescale x mn mx < 1)%Q.
Proof.
  intros H1 H2. pose proof epsilon_pos as He. unfold rescale.
  apply Qlt_shift_div_r; lra.
Qed.

Lemma rescale_le x x' mn mx :
  (mn <= mx)%Q -> (x <= x')%Q <-> (rescale x mn mx <= rescale x' mn mx)%Q.
Proof.
  intros H. pose proof epsilon_pos as He. unfold rescale.
  assert (Hd : (0 < mx - mn + epsilon)%Q) by lra.
  assert (Hi : (0 < / (mx - mn + epsilon))%Q) by (apply Qinv_lt_0_compat, Hd).
  unfold Qdiv. split.
  - intros Hx. apply Qmult_le_compat_r; lra.
  - intros Hy. apply Qmult_le_r in Hy; [lra | exact Hi].
Qed.

(** ** The loaders *)

Lemma record_short cells :
  (3 <=? length cells)%nat = false -> Word.record cells = None.
Proof.
  destruct cells as [|c0 [|c1 [|c2 cells]]]; simpl; intros H;
    solve [reflexivity | discriminate].
Qed.

(** A row adds the operation it holds, if it holds one. *)
Lemma append_record cells (data : list Operation) :
  (if (3 <=? length cells)%nat
   then match Word.record cells with
        | Some r => data ++ [r]
        | None => data
        end
   else data) = data ++ option_list (Word.record cells).
Proof.
  destruct (3 <=? length cells)%nat eqn:E.
  - destruct (Word.record cells); simpl; [reflexivity | rewrite app_nil_r; reflexivity].
  - rewrite (record_short cells E). simpl. rewrite app_nil_r. reflexivity.
Qed.

Lemma omap_option_list {A B} (f : A -> option B) (x : A) (l : list A) :
  omap f (x :: l) = option_list (f x) ++ omap f l.
Proof. simpl. destruct (f x); reflexivity. Qed.

Lemma word_rows_loop_readable rows i data :
  Word.rows_loop (S i) (map Got rows) data
  = (data ++ omap (fun texts => Word.record (map Text.strip texts)) rows, true).
Proof.
  revert i data. induction rows as [|texts rows IH]; intros i data.
  - simpl. rewrite app_nil_r. reflexivity.
  - cbn [map Word.rows_loop Nat.eqb]. rewrite append_record, IH.
    rewrite omap_option_list, app_assoc. reflexivity.
Qed.

Lemma word_rows_loop_fails rows rest i data :
  Word.rows_loop (S i) (map Got rows ++ Fails :: rest) data
  = (data ++ omap (fun texts => Word.record (map Text.strip texts)) rows, false).
Proof.
  revert i data. induction rows as [|texts rows IH]; intros i data.
  - simpl. rewrite app_nil_r. reflexivity.
  - cbn [map app Word.rows_loop Nat.eqb]. rewrite append_record, IH.
    rewrite omap_option_list, app_assoc. reflexivity.
Qed.

Lemma word_table_readable rows data :
  Word.rows_loop 0 (map Got rows) data = (data ++ word_table_records rows, true).
Proof.
  destruct rows as [|header rows].
  - simpl. rewrite app_nil_r. reflexivity.
  - cbn [map Word.rows_loop Nat.eqb]. rewrite word_rows_loop_readable.
    reflexivity.
Qed.

Lemma word_tables_loop_app tables rest data :
  Word.tables_loop
    (map (fun rows => Got (map Got rows)) tables ++ rest) data
  = Word.tables_loop rest (data ++ concat (map word_table_records tables)).
Proof.
  revert data. induction tables as [|rows tables IH]; intros data.
  - simpl. rewrite app_nil_r. reflexivity.
  - cbn [map app Word.tables_loop]. rewrite word_table_readable.
    rewrite IH. cbn [map concat]. rewrite app_assoc. reflexivity.
Qed.

Lemma pdf_rows_loop_records table i data :
  Pdf.rows_loop (S i) table data
  = data ++ omap (fun row => Word.record (Pdf.not_none row)) table.
Proof.
  revert i data. induction table as [|row table IH]; intros i data.
  - simpl. rewrite app_nil_r. reflexivity.
  - cbn [Pdf.rows_loop Nat.eqb]. rewrite append_record, IH.
    rewrite omap_option_list, app_assoc. reflexivity.
Qed.

Lemma pdf_page_step page pages data :
  Pdf.pages_loop (Got page :: pages) data
  = Pdf.pages_loop pages (data ++ pdf_page_records page).
Proof.
  destruct page as [[|header table] |]; cbn [Pdf.pages_loop pdf_page_records].
  - simpl. rewrite app_nil_r. reflexivity.
  - cbn [Pdf.rows_loop Nat.eqb drop]. rewrite pdf_rows_loop_records.
    reflexivity.
  - rewrite app_nil_r. reflexivity.
Qed.

Lemma pdf_pages_loop_app pages rest data :
  Pdf.pages_loop (map Got pages ++ rest) data
  = Pdf.pages_loop rest (data ++ concat (map pdf_page_records pages)).
Proof.
  revert data. induction pages as [|page pages IH]; intros data.
  - simpl. rewrite app_nil_r. reflexivity.
  - cbn [map app]. rewrite pdf_page_step, IH. cbn [map concat].
    rewrite app_assoc. reflexivity.
Qed.

(** X10.  A Word document of ASCII texts that is read without an exception
    gives, table after table and row after row, one operation for every row
    below the first row of its table that has three cells or more: the texts
    of its first three cells, stripped.  The first row of every table and
    the rows with fewer than three cells give nothing. *)
Theorem load_from_word_readable (tables : list (list (list string))) :
  Forall (Forall (Forall (fun cell => is_ascii cell = true))) tables ->
  load_from_word (word_readable tables)
  = concat (map word_table_records tables).
Proof.
  intros _. unfold load_from_word, word_readable.
  rewrite <- (app_nil_r (map _ tables)), word_tables_loop_app.
  reflexivity.
Qed.

Lemma load_from_word_readable_witness :
  load_from_word
    (word_readable [[["konto"; "paragraf"; "kwota"];
                     [" Konto_E "; "4210.0"; "1 200,50 PLN"; "x"];
                     ["Konto_F"; "4300"]];
                    [["Konto_G"; "4300"; "7"]]]%string)
  = concat (map word_table_records
              [[["konto"; "paragraf"; "kwota"];
                [" Konto_E "; "4210.0"; "1 200,50 PLN"; "x"];
                ["Konto_F"; "4300"]];
               [["Konto_G"; "4300"; "7"]]]%string) /\
  concat (map word_table_records
            [[["konto"; "paragraf"; "kwota"];
              [" Konto_E "; "4210.0"; "1 200,50 PLN"; "x"];
              ["Konto_F"; "4300"]];
             [["Konto_G"; "4300"; "7"]]]%string)
  = [mkOperation "Konto_E" (PyStr "4210.0") (PyStr "1 200,50 PLN")].
Proof.
  split; [| reflexivity].
  apply (load_from_word_readable
           [[["konto"; "paragraf"; "kwota"];
             [" Konto_E "; "4210.0"; "1 200,50 PLN"; "x"];
             ["Konto_F"; "4300"]];
            [["Konto_G"; "4300"; "7"]]]%string).
  repeat constructor.
Defined.

(** X11.  An exception while a Word document is read loses nothing of what
    was read before it and reads nothing after it: the loader returns what
    it returns on the document cut before the failing table, or, when the
    cells of a row fail, on the document cut before that row.  The cells of
    the first row of a table are never read. *)
Theorem load_from_word_keeps_what_was_read
    (tables : list (list (list string))) (rows : list (list string))
    (header : Word.Row) (later_rows : list Word.Row)
    (later : list Word.Table) :
  let read := map (fun rows => Got (map Got rows)) tables in
  load_from_word (Got (read ++ Fails :: later))
  = load_from_word (word_readable tables) /\
  load_from_word
    (Got (read ++ Got (header :: map Got rows ++ Fails :: later_rows) :: later))
  = load_from_word (word_readable (tables ++ [[] :: rows])) /\
  load_from_word (Got (read ++ [Got (header :: map Got rows)]))
  = load_from_word (word_readable (tables ++ [[] :: rows])).
Proof.
  cbv zeta. unfold load_from_word, word_readable.
  rewrite map_app. cbn [map].
  rewrite <- (app_nil_r (map _ tables)) at 2.
  rewrite !word_tables_loop_app. cbn [Word.tables_loop app].
  cbn [Word.rows_loop Nat.eqb].
  rewrite word_rows_loop_fails, word_rows_loop_readable. auto.
Qed.

(** X12.  A PDF file that is read without an exception gives, page after
    page, one operation for every row below the first row of the table of
    the page that has three cells or more that are not [None]: the first
    three of them.  A page without a table gives nothing; an exception on a
    page keeps what the pages before it gave and reads no page after it. *)
Theorem load_from_pdf_readable (pages : list (option (list Pdf.Row)))
    (later : list Pdf.Page) :
  load_from_pdf (pdf_readable pages) = concat (map pdf_page_records pages) /\
  load_from_pdf (Got (map Got pages ++ Fails :: later))
  = load_from_pdf (pdf_readable pages).
Proof.
  unfold load_from_pdf, pdf_readable.
  rewrite <- (app_nil_r (map Got pages)) at 1 3.
  rewrite !pdf_pages_loop_app. auto.
Qed.

Lemma record_text_cells cells op :
  Word.record cells = Some op ->
  exists c0 c1 c2 rest,
    cells = c0 :: c1 :: c2 :: rest /\ op = mkOperation c0 (PyStr c1) (PyStr c2).
Proof.
  destruct cells as [|c0 [|c1 [|c2 rest]]]; simpl; intros [= <-].
  exists c0, c1, c2, rest. auto.
Qed.

Lemma Forall_append_record (P : Operation -> Prop) cells data :
  Forall P data -> (forall op, Word.record cells = Some op -> P op) ->
  Forall P (data ++ option_list (Word.record cells)).
Proof.
  intros Hd Hr. apply Forall_app. split; [exact Hd |].
  destruct (Word.record cells) as [op |]; simpl; [| constructor].
  constructor; [apply Hr; reflexivity | constructor].
Qed.

(** An operation whose three fields are texts without white space at their
    ends. *)
Lemma word_rows_loop_stripped rows i data :
  let P := fun op => Text.strip (konto op) = konto op /\
             exists p k, paragraf op = PyStr p /\ kwota op = PyStr k /\
                         Text.strip p = p /\ Text.strip k = k in
  Forall P data -> Forall P (fst (Word.rows_loop i rows data)).
Proof.
  intros P. revert i data. induction rows as [|row rows IH]; intros i data Hd.
  - exact Hd.
  - cbn [Word.rows_loop]. destruct (Nat.eqb i 0); [apply IH, Hd |].
    destruct row as [texts |]; [| exact Hd].
    cbv zeta. rewrite append_record. apply IH.
    apply Forall_append_record; [exact Hd |].
    intros op Hop.
    apply record_text_cells in Hop as (c0 & c1 & c2 & rest & Hc & ->).
    destruct texts as [|t0 [|t1 [|t2 texts]]]; try discriminate.
    cbn [map] in Hc. injection Hc as <- <- <- _.
    split; [apply strip_idem |].
    exists (Text.strip t1), (Text.strip t2).
    repeat split; apply strip_idem.
Qed.

Lemma word_tables_loop_stripped tables data :
  let P := fun op => Text.strip (konto op) = konto op /\
             exists p k, paragraf op = PyStr p /\ kwota op = PyStr k /\
                         Text.strip p = p /\ Text.strip k = k in
  Forall P data -> Forall P (fst (Word.tables_loop tables data)).
Proof.
  intros P. revert data. induction tables as [|table tables IH]; intros data Hd.
  - exact Hd.
  - cbn [Word.tables_loop]. destruct table as [rows |]; [| exact Hd].
    pose proof (word_rows_loop_stripped rows 0 data Hd) as Hr.
    destruct (Word.rows_loop 0 rows data) as [data' finished].
    destruct finished; [apply IH, Hr | exact Hr].
Qed.

Lemma pdf_rows_loop_texts table i data :
  Forall text_cells data -> Forall text_cells (Pdf.rows_loop i table data).
Proof.
  revert i data. induction table as [|row table IH]; intros i data Hd.
  - exact Hd.
  - cbn [Pdf.rows_loop]. destruct (Nat.eqb i 0); [apply IH, Hd |].
    cbv zeta. rewrite append_record. apply IH.
    apply Forall_append_record; [exact Hd |].
    intros op Hop.
    apply record_text_cells in Hop as (c0 & c1 & c2 & rest & _ & ->).
    exists c1, c2. auto.
Qed.

Lemma pdf_pages_loop_texts pages data :
  Forall text_cells data -> Forall text_cells (Pdf.pages_loop pages data).
Proof.
  revert data. induction pages as [|page pages IH]; intros data Hd.
  - exact Hd.
  - cbn [Pdf.pages_loop]. destruct page as [[[|row table] |] |];
      [apply IH, Hd | | apply IH, Hd | exact Hd].
    apply IH, pdf_rows_loop_texts, Hd.
Qed.

(** X13.  Whatever the document and whatever fails while it is read, every
    operation the Word loader returns has texts in its three fields, none
    with white space at its ends; every operation the PDF loader returns has
    texts for its paragraph and its amount. *)
Theorem loaded_operations_are_texts (doc : Word.Doc) (pdf : Pdf.Doc) :
  Forall (fun op => Text.strip (konto op) = konto op /\
            exists p k, paragraf op = PyStr p /\ kwota op = PyStr k /\
                        Text.strip p = p /\ Text.strip k = k)
         (load_from_word doc) /\
  Forall text_cells (load_from_pdf pdf).
Proof.
  split.
  - destruct doc as [tables |]; [| constructor].
    apply (word_tables_loop_stripped tables []). constructor.
  - destruct pdf as [pages |]; [| constructor].
    apply pdf_pages_loop_texts. constructor.
Qed.

(** X14.  The operations of the loaders never make the cleaning of the frame
    raise: when the operations the script starts from have amounts that
    convert, and no paragraph that is an integer of more than 4300 digits,
    which [str] does not write, so has the frame extended by what the two
    loaders return, and the pivot is built unless there is no operation at
    all. *)
Theorem loaded_operations_never_fail_cleaning (float_repr : Q -> string)
    (raw : list Operation) (doc : Word.Doc) (pdf : Pdf.Doc) :
  Forall (fun op => exists q, clean_currency float_repr (kwota op) = Ok q) raw ->
  Forall (fun op => forall z, paragraf op = PyInt z -> Z.abs z < 10 ^ 4300) raw ->
  raw ++ load_from_word doc ++ load_from_pdf pdf <> [] ->
  exists p, build float_repr (raw ++ load_from_word doc ++ load_from_pdf pdf)
            = Ok p.
Proof.
  intros Hraw _ Hne.
  assert (Htext : forall l, Forall text_cells l ->
            Forall (fun op => exists q,
                      clean_currency float_repr (kwota op) = Ok q) l).
  { intros l Hl. eapply Forall_impl; [exact Hl |].
    intros op (p & k & _ & ->). rewrite clean_currency_text. eauto. }
  destruct (clean_frame_total float_repr _ Hne) as [rows Hrows].
  { apply Forall_app. split; [exact Hraw |]. apply Forall_app. split.
    - apply Htext. destruct doc as [tables |]; [| constructor].
      eapply Forall_impl; [apply (word_tables_loop_stripped tables []);
                           constructor |].
      intros op (_ & p & k & Hp & Hk & _). exists p, k. auto.
    - apply Htext. destruct pdf as [pages |]; [| constructor].
      apply pdf_pages_loop_texts. constructor. }
  unfold build. rewrite Hrows. simpl. eauto.
Qed.

Lemma loaded_operations_never_fail_cleaning_witness :
  exists p,
    build no_repr
      (raw_data
       ++ load_from_word
            (Got [Got [Fails;
                       Got [" Konto_E "; "4210.0"; "1 200,50 PLN"];
                       Got ["Konto_F"; "4300"];
                       Fails;
                       Got ["Konto_G"; "4300"; "7"]]])%string
       ++ load_from_pdf
            (Got [Got None;
                  Got (Some [[Some "konto"; Some "paragraf"; Some "kwota"];
                             [Some "Konto_H"; None; Some "4300"; Some "-3,5"]]);
                  Fails])%string)
    = Ok p.
Proof.
  apply (loaded_operations_never_fail_cleaning no_repr raw_data).
  - repeat constructor; eexists; reflexivity.
  - repeat constructor; intros z Hz; discriminate Hz.
  - discriminate.
Defined.

(** ** The size of the map, account by account *)

Lemma grid_root_mono n m : 0 <= n <= m -> grid_root n <= grid_root m.
Proof.
  intros H. unfold grid_root. apply Z.sqrt_le_mono, Z.sqrt_le_mono. lia.
Qed.

Lemma map_size_grows_bounds n :
  0 <= n <= max_accounts -> 2 <= map_size n <= 41.
Proof.
  intros Hn. rewrite (map_size_grid_root n) by lia.
  pose proof (grid_root_mono 0 n ltac:(lia)) as H0.
  pose proof (grid_root_mono n max_accounts ltac:(lia)) as H2.
  change (grid_root 0) with 0 in H0.
  change (grid_root max_accounts) with 39 in H2. lia.
Qed.

(** X15.  Up to [max_accounts] accounts, more accounts never give a smaller
    map; the map has 4 neurons a side or more as soon as there is an
    account, and 41 at most. *)
Theorem map_size_grows_with_accounts (n m : Z) :
  0 <= n <= m -> m <= max_accounts ->
  map_size n <= map_size m /\
  (1 <= n -> 4 <= map_size n) /\
  2 <= map_size n <= 41.
Proof.
  intros Hn Hm.
  rewrite (map_size_grid_root n) by lia.
  rewrite (map_size_grid_root m) by lia.
  pose proof (grid_root_mono n m Hn) as H1.
  pose proof (grid_root_mono 0 n ltac:(lia)) as H0.
  pose proof (grid_root_mono n max_accounts ltac:(lia)) as H2.
  change (grid_root 0) with 0 in H0.
  change (grid_root max_accounts) with 39 in H2.
  split; [lia |]. split; [| lia].
  intros Hn1. pose proof (grid_root_mono 1 n ltac:(lia)) as H3.
  change (grid_root 1) with 2 in H3. lia.
Qed.

Lemma map_size_grows_with_accounts_witness :
  map_size 4 <= map_size 2000 /\ (1 <= 4 -> 4 <= map_size 4) /\
  2 <= map_size 4 <= 41.
Proof.
  apply (map_size_grows_with_accounts 4 2000); unfold max_accounts; lia.
Defined.

(** ** The winner on any grid *)

Lemma concat_activation_map (w : Grid) (x : list Q) :
  concat (activation_map w x) = map (sq_distance x) (concat w).
Proof.
  unfold activation_map. induction w as [|row w IH]; simpl; [reflexivity |].
  rewrite IH, map_app. reflexivity.
Qed.

Lemma winner_of_empty (w : Grid) shape x :
  concat w = [] -> winner_of w shape x = Raise ValueError.
Proof.
  intros H. unfold winner_of. rewrite concat_activation_map, H. reflexivity.
Qed.

Lemma winner_of_neuron (w : Grid) shape x :
  concat w <> [] -> exists k, winner_of w shape x = Ok k.
Proof.
  intros H. unfold winner_of.
  destruct (argmin_spec (concat (activation_map w x))) as (p & v & Hp & _).
  { rewrite concat_activation_map. destruct (concat w); [congruence | discriminate]. }
  rewrite Hp. simpl. eauto.
Qed.

Lemma winner_of_in_grid (w : Grid) gx gy x :
  grid_shape w gx gy -> (0 < gx)%nat -> (0 < gy)%nat ->
  exists i j, winner_of w (gx, gy) x = Ok (i, j) /\ (i < gx)%nat /\ (j < gy)%nat.
Proof.
  intros [Hgx Hrows] Hx Hy.
  assert (Hne : concat (activation_map w x) <> []).
  { destruct w as [|row w]; [simpl in Hgx; lia |].
    inversion Hrows as [|? ? Hrow _]; subst.
    destruct row as [|wv row]; [simpl in Hy; lia |]. discriminate. }
  destruct (argmin_spec _ Hne) as (p & v & Hp & Hv & _).
  apply (activation_map_lookup w x gy p v Hrows) in Hv
    as (i & j & wv & Hn & _ & -> & Hj).
  exists i, j. split.
  { unfold winner_of. rewrite Hp. simpl. unfold unravel_index. simpl.
    f_equal. f_equal.
    - rewrite Nat.div_add_l by lia. rewrite Nat.div_small by exact Hj. lia.
    - rewrite Nat.add_comm, Nat.Div0.mod_add. apply Nat.mod_small, Hj. }
  split; [| exact Hj].
  unfold neuron in Hn. destruct (w !! i) as [row |] eqn:Ei; [| discriminate].
  rewrite <- Hgx. eapply lookup_lt_Some, Ei.
Qed.

(** ** The groups are the classes of the winner *)

Lemma dict_get_append k k' name d :
  dict_get k (dict_append k' name d)
  = dict_get k d ++ (if decide (k' = k) then [name] else []).
Proof.
  induction d as [|[k0 names] d IH]; simpl.
  - destruct (decide (k = k')) as [-> | Hne].
    + rewrite decide_True by reflexivity. reflexivity.
    + rewrite decide_False by congruence. reflexivity.
  - destruct (decide (k' = k0)) as [-> | Hne]; simpl.
    + destruct (decide (k = k0)) as [-> | Hne'].
      * rewrite decide_True by reflexivity. reflexivity.
      * rewrite decide_False by congruence. rewrite app_nil_r. reflexivity.
    + destruct (decide (k = k0)) as [-> | Hne'].
      * rewrite decide_False by congruence. rewrite app_nil_r. reflexivity.
      * exact IH.
Qed.

Lemma group_loop_get win pairs d0 d k :
  group_loop win pairs d0 = Ok d ->
  dict_get k d = dict_get k d0 ++ filed_under win k pairs.
Proof.
  revert d0. induction pairs as [|[name row] pairs IH]; intros d0; simpl.
  - intros [= <-]. unfold filed_under. simpl. rewrite app_nil_r. reflexivity.
  - intros H. apply bind_Ok in H as (k' & Hk' & H).
    rewrite (IH _ H), dict_get_append. unfold filed_under. simpl.
    rewrite Hk'. rewrite <- app_assoc.
    destruct (decide (k' = k)); reflexivity.
Qed.

Lemma dict_get_elem k names d :
  NoDup (map fst d) -> (k, names) ∈ d -> dict_get k d = names.
Proof.
  induction d as [|[k0 names0] d IH]; simpl; intros Hnd Hin.
  - inversion Hin.
  - apply NoDup_cons in Hnd as [Hnin Hnd].
    apply elem_of_cons in Hin as [[= -> ->] | Hin].
    + rewrite decide_True by reflexivity. reflexivity.
    + destruct (decide (k = k0)) as [-> | Hne]; [| apply IH; assumption].
      exfalso. apply Hnin. apply list_elem_of_fmap. exists (k0, names). auto.
Qed.

Lemma dict_get_listed k d :
  dict_get k d <> [] -> (k, dict_get k d) ∈ d.
Proof.
  induction d as [|[k0 names0] d IH]; simpl; intros H; [congruence |].
  destruct (decide (k = k0)) as [-> | Hne].
  - apply list_elem_of_here.
  - apply list_elem_of_further, IH, H.
Qed.

Lemma group_loop_classes win pairs d :
  group_loop win pairs [] = Ok d ->
  NoDup (map fst d) /\
  forall k names,
    (k, names) ∈ d <-> names <> [] /\ names = filed_under win k pairs.
Proof.
  intros H. destruct (group_loop_spec _ _ _ _ H) as (_ & Hnd & Hne).
  specialize (Hnd (NoDup_nil_2 : NoDup (map fst ([] : Groups)))).
  specialize (Hne (Forall_nil_2 _)).
  split; [exact Hnd |]. intros k names.
  pose proof (group_loop_get win pairs [] d k H) as Hget. simpl in Hget.
  split.
  - intros Hin. split.
    + rewrite Forall_forall in Hne. apply (Hne _ Hin).
    + rewrite <- Hget. symmetry. apply dict_get_elem; assumption.
  - intros [Hnames ->]. rewrite <- Hget. apply dict_get_listed.
    rewrite Hget. exact Hnames.
Qed.

Lemma filed_under_elem win k pairs name :
  name ∈ filed_under win k pairs <->
  exists row, (name, row) ∈ pairs /\ win row = Ok k.
Proof.
  unfold filed_under. rewrite list_elem_of_omap. split.
  - intros ([name' row] & Hin & Hw). simpl in Hw.
    destruct (win row) as [k' |] eqn:E; [| discriminate].
    destruct (decide (k' = k)) as [-> |]; [| discriminate].
    injection Hw as ->. eauto.
  - intros (row & Hin & Hw). exists (name, row). split; [exact Hin |].
    simpl. rewrite Hw, decide_True by reflexivity. reflexivity.
Qed.

(** X17.  The groups are the classes of the winner: no coordinates are the
    key of two groups, and the list under the coordinates [k] holds the
    accounts whose normalised row has the winner [k], all of them, in the
    order of the index of the pivot; coordinates that win no row are no
    key. *)
Theorem groups_are_winner_classes (win : list Q -> result (nat * nat))
    (pivot_df : Pivot) (data_normalized : list (list Q)) (d : Groups) :
  grouped_accounts win pivot_df data_normalized = Ok d ->
  NoDup (map fst d) /\
  (forall k names,
     (k, names) ∈ d <->
     names <> [] /\
     names = filed_under win k (zip (index pivot_df) data_normalized)) /\
  (forall k names name,
     (k, names) ∈ d ->
     (name ∈ names <->
      exists i row, index pivot_df !! i = Some name /\
                    data_normalized !! i = Some row /\ win row = Ok k)).
Proof.
  unfold grouped_accounts. intros H.
  destruct (group_loop_classes _ _ _ H) as [Hnd Hcl].
  split; [exact Hnd |]. split; [exact Hcl |].
  intros k names name Hin. apply Hcl in Hin as [_ ->].
  rewrite filed_under_elem. split.
  - intros (row & Hpr & Hw). apply list_elem_of_lookup_1 in Hpr as [i Hi].
    apply lookup_zip_with_Some in Hi as (a & b & [= <- <-] & Ha & Hb).
    eauto.
  - intros (i & row & Hi & Hr & Hw). exists row. split; [| exact Hw].
    apply (list_elem_of_lookup_2 _ i). apply lookup_zip_with_Some. eauto.
Qed.

Lemma groups_are_winner_classes_witness :
  NoDup (map fst raw_groups) /\
  (forall k names,
     (k, names) ∈ raw_groups <->
     names <> [] /\
     names = filed_under nearest k (zip (index raw_pivot) raw_normalized)) /\
  (forall k names name,
     (k, names) ∈ raw_groups ->
     (name ∈ names <->
      exists i row, index raw_pivot !! i = Some name /\
                    raw_normalized !! i = Some row /\ nearest row = Ok k)).
Proof.
  apply (groups_are_winner_classes nearest raw_pivot raw_normalized raw_groups).
  vm_compute. reflexivity.
Defined.

(** ** The whole script: how it ends *)

Lemma mapM_Raise {A B} (f : A -> result B) (l : list A) e :
  mapM f l = Raise e -> exists a, a ∈ l /\ f a = Raise e.
Proof.
  induction l as [|a l IH]; simpl; [discriminate |].
  destruct (f a) as [b |e'] eqn:Ea; simpl.
  - destruct (mapM f l) as [bs |e'']; simpl; [discriminate |].
    intros [= ->]. destruct (IH eq_refl) as (a' & Hin & Ha').
    exists a'. split; [apply list_elem_of_further, Hin | exact Ha'].
  - intros [= ->]. exists a. split; [apply list_elem_of_here | exact Ea].
Qed.

Lemma mapM_total {A B} (f : A -> result B) (P : A -> B -> Prop) (l : list A) :
  Forall (fun a => exists b, f a = Ok b /\ P a b) l ->
  exists bs, mapM f l = Ok bs /\ Forall2 P l bs.
Proof.
  induction 1 as [|a l (b & Hb & Hp) _ (bs & Hbs & Hf)]; simpl.
  - exists []. split; [reflexivity | constructor].
  - rewrite Hb, Hbs. simpl. exists (b :: bs).
    split; [reflexivity | constructor; assumption].
Qed.

Lemma clean_currency_Raise (float_repr : Q -> string) v e :
  clean_currency float_repr v = Raise e ->
  e = OverflowError /\ exists z, v = PyInt z /\ float_int_limit <= Z.abs z.
Proof.
  destruct v as [z | f | b | s |]; simpl; try discriminate;
    try (destruct (Text.float_of_text _); discriminate).
  unfold float_of_int. destruct (Z.abs z <? float_int_limit) eqn:E;
    [discriminate |].
  intros [= <-]. split; [reflexivity |]. exists z.
  split; [reflexivity |]. apply Z.ltb_ge, E.
Qed.

Lemma clean_currency_oversized (float_repr : Q -> string) op :
  oversized op -> clean_currency float_repr (kwota op) = Raise OverflowError.
Proof.
  intros (z & -> & Hz). simpl. unfold float_of_int.
  destruct (Z.abs z <? float_int_limit) eqn:E; [| reflexivity].
  apply Z.ltb_lt in E. lia.
Qed.

Lemma top_para_Ok (p : Pivot) (accounts : list string) :
  length (values p) = length (index p) ->
  Forall (fun row => length row = length (columns p)) (values p) ->
  columns p <> [] ->
  Forall (fun a => a ∈ index p) accounts ->
  exists c, top_para p accounts = Ok c /\ c ∈ columns p.
Proof.
  intros Hlen Hshape Hk Hsub.
  destruct (loc_rows_Ok p accounts Hlen Hsub) as (gv & Hgv & Hf).
  assert (Hgs : Forall (fun row => length row = length (columns p)) gv).
  { apply Forall_forall. intros row Hrow.
    apply list_elem_of_lookup_1 in Hrow as [i Hi].
    destruct (Forall2_lookup_r _ _ _ _ _ Hf Hi) as (a & _ & j & _ & Hj).
    rewrite Forall_forall in Hshape. apply Hshape.
    eapply list_elem_of_lookup_2, Hj. }
  set (means := mean (length (columns p)) gv).
  assert (Hml : length means = length (columns p))
    by (apply mean_length, Hgs).
  assert (Hmne : means <> []).
  { intros E. rewrite E in Hml. destruct (columns p); simpl in Hml;
      [congruence | lia]. }
  destruct (argmax_spec means Hmne) as (p0 & v & Hp0 & Hv & _).
  destruct (lookup_lt_is_Some_2 (columns p) p0) as [c Hc].
  { rewrite <- Hml. eapply lookup_lt_Some, Hv. }
  exists c. split; [| eapply list_elem_of_lookup_2, Hc].
  unfold top_para. rewrite Hgv. cbn [bind]. unfold idxmax.
  fold means. rewrite Hp0. cbn [bind]. rewrite Hc. reflexivity.
Qed.

Lemma group_loop_total win pairs d0 :
  (forall x, exists k, win x = Ok k) ->
  exists d, group_loop win pairs d0 = Ok d.
Proof.
  intros Hw. revert d0. induction pairs as [|[name row] pairs IH]; intros d0.
  - simpl. eauto.
  - simpl. destruct (Hw row) as [k ->]. simpl. apply IH.
Qed.

Lemma group_loop_Raise win pairs d0 e :
  pairs <> [] -> (forall x, win x = Raise e) ->
  group_loop win pairs d0 = Raise e.
Proof.
  intros Hne Hw. destruct pairs as [|[name row] pairs]; [congruence |].
  simpl. rewrite Hw. reflexivity.
Qed.

Section RunEnds.

Context `{L : MiniSomLib}.
Variable float_repr : Q -> string.

(** What a pivot that is built brings to the later stages. *)
Lemma build_facts raw p :
  build float_repr raw = Ok p ->
  index p = Pandas.sorted_unique (map konto raw) /\
  columns p = Pandas.sorted_unique (map (label_of float_repr) raw) /\
  index p <> [] /\ columns p <> [] /\
  length (values p) = length (index p) /\
  Forall (fun row => length row = length (columns p)) (values p).
Proof.
  intros Hb.
  destruct (build_Ok float_repr raw p Hb) as (rows & _ & Hp & Hne & Hi & Hc).
  destruct (pivot_table_shape rows) as [Hlen Hshape].
  rewrite <- Hp in Hlen, Hshape.
  split; [exact Hi |]. split; [exact Hc |].
  split; [rewrite Hi; apply sorted_unique_nonempty;
          destruct raw; [congruence | discriminate] |].
  split; [rewrite Hc; apply sorted_unique_nonempty;
          destruct raw; [congruence | discriminate] |].
  auto.
Qed.

(** Once the groups are formed, the script prints them all. *)
Lemma run_from_groups entropy raw p dn d :
  build float_repr raw = Ok p ->
  normalize (values p) = Ok dn ->
  grouped_accounts (winner (trained_som p dn entropy)) p dn = Ok d ->
  exists out,
    run float_repr entropy raw = Ok out /\
    Forall2 (fun g o => o.1 = g /\ o.2 ∈ columns p) d out.
Proof.
  intros Hb Hn Hg.
  destruct (build_facts raw p Hb) as (Hi & Hc & Hine & Hcne & Hlen & Hshape).
  pose proof (normalize_length _ _ Hn) as Hdn.
  pose proof Hg as Hg'. unfold grouped_accounts in Hg'.
  destruct (group_loop_spec _ _ _ _ Hg') as (Hperm & _ & _).
  simpl in Hperm. rewrite fst_zip in Hperm by lia.
  destruct (mapM_total
              (fun '(coords, accounts) =>
                 let* top := top_para p accounts in
                 Ok (coords, accounts, top))
              (fun g o => o.1 = g /\ o.2 ∈ columns p) d) as (out & Ho & Hf).
  { apply Forall_forall. intros [coords accounts] Hin.
    destruct (top_para_Ok p accounts Hlen Hshape Hcne) as (c & Htop & Hcin).
    { apply Forall_forall. intros a Ha. rewrite <- Hperm. unfold members.
      apply list_elem_of_In, in_concat. exists accounts.
      split; [| apply list_elem_of_In, Ha].
      apply in_map_iff. exists (coords, accounts).
      split; [reflexivity | apply list_elem_of_In, Hin]. }
    exists (coords, accounts, c). rewrite Htop. simpl. auto. }
  exists out. split; [| exact Hf].
  unfold run. rewrite Hb. cbn [bind]. rewrite Hn. cbn [bind].
  rewrite Hg. cbn [bind]. exact Ho.
Qed.

(** The four ways the script ends. *)
Lemma run_cases entropy raw :
  (raw = [] /\ run float_repr entropy raw = Raise KeyError) \/
  (raw <> [] /\ Exists oversized raw /\
   build float_repr raw = Raise OverflowError /\
   run float_repr entropy raw = Raise OverflowError) \/
  (raw <> [] /\ ~ Exists oversized raw /\
   exists p dn,
     build float_repr raw = Ok p /\ normalize (values p) = Ok dn /\
     ((concat (weights (trained_som p dn entropy)) = [] /\
       run float_repr entropy raw = Raise ValueError) \/
      (concat (weights (trained_som p dn entropy)) <> [] /\
       exists out, run float_repr entropy raw = Ok out))).
Proof.
  destruct (decide (raw = [])) as [-> | Hne]; [left; auto |]. right.
  destruct (mapM (clean_currency float_repr) (map kwota raw))
    as [amounts | e] eqn:Ea.
  - right. split; [exact Hne |]. split.
    { intros Hex. apply Exists_exists in Hex as (op & Hin & Hov).
      apply mapM_Ok in Ea. apply Forall2_fmap_l in Ea.
      apply list_elem_of_lookup_1 in Hin as [i Hi].
      destruct (Forall2_lookup_l _ _ _ _ _ Ea Hi) as (q & _ & Hq).
      pose proof (clean_currency_oversized float_repr op Hov) as Hr.
      simpl in Hq. congruence. }
    assert (Hb : exists p, build float_repr raw = Ok p).
    { unfold build, clean_frame. rewrite !getitem_Ok by exact Hne.
      cbn [bind]. rewrite Ea. cbn [bind]. eauto. }
    destruct Hb as [p Hb]. destruct (normalize_built float_repr raw p Hb)
      as [dn Hn].
    exists p, dn. split; [exact Hb |]. split; [exact Hn |].
    destruct (build_facts raw p Hb) as (_ & _ & Hine & _ & Hlen & _).
    pose proof (normalize_length _ _ Hn) as Hdn.
    set (som := trained_som p dn entropy).
    destruct (decide (concat (weights som) = [])) as [He | Hw].
    + left. split; [exact He |].
      unfold run. rewrite Hb. cbn [bind]. rewrite Hn. cbn [bind].
      fold som. unfold grouped_accounts.
      rewrite (group_loop_Raise _ _ _ ValueError); [reflexivity | |].
      * destruct (index p); [congruence |].
        destruct dn; [simpl in *; lia | discriminate].
      * intros x. apply winner_of_empty, He.
    + right. split; [exact Hw |].
      destruct (group_loop_total (winner som) (zip (index p) dn) [])
        as [d Hd].
      { intros x. apply winner_of_neuron, Hw. }
      destruct (run_from_groups entropy raw p dn d Hb Hn Hd) as (out & Ho & _).
      eauto.
  - left. split; [exact Hne |].
    destruct (mapM_Raise _ _ _ Ea) as (v & Hin & Hv).
    apply clean_currency_Raise in Hv as (-> & z & -> & Hz).
    apply list_elem_of_fmap in Hin as (op & Hop & Hin).
    split; [| split].
    + apply Exists_exists. exists op. split; [exact Hin |].
      exists z. auto.
    + unfold build, clean_frame. rewrite !getitem_Ok by exact Hne.
      cbn [bind]. rewrite Ea. reflexivity.
    + unfold run, build, clean_frame. rewrite !getitem_Ok by exact Hne.
      cbn [bind]. rewrite Ea. reflexivity.
Qed.

(** X18.  On operations whose paragraphs are texts and whose amounts are
    integers or texts, two exceptions of the script are told by its input:
    it raises [KeyError] when there is no operation, and only then, and
    [OverflowError] when an amount is an integer too large for a float, and
    only then. *)
Theorem run_raises_KeyError_and_OverflowError_by_input (entropy : rng)
    (raw : list Operation) :
  Forall (fun op => exists s, paragraf op = PyStr s) raw ->
  Forall (fun op => (exists z, kwota op = PyInt z) \/
                    (exists s, kwota op = PyStr s)) raw ->
  (run float_repr entropy raw = Raise KeyError <-> raw = []) /\
  (run float_repr entropy raw = Raise OverflowError <->
   raw <> [] /\ Exists oversized raw).
Proof.
  intros _ _.
  destruct (run_cases entropy raw)
    as [[-> Hr] | [(Hne & Hov & Hbr & Hr) | (Hne & Hov & p & dn & Hb & Hn & Hw)]].
  - rewrite Hr. split; [tauto |]. split; [discriminate | tauto].
  - rewrite Hr. split; [split; [discriminate | tauto] | tauto].
  - destruct Hw as [[He Hr] | [Hw [out Ho]]].
    + rewrite Hr. split; [split; [discriminate | congruence] |].
      split; [discriminate | tauto].
    + rewrite Ho. split; [split; [discriminate | congruence] |].
      split; [discriminate | tauto].
Qed.

End RunEnds.

Lemma run_raises_KeyError_and_OverflowError_by_input_witness :
  (run (L := sample_lib) no_repr 0%nat
     [mkOperation "Konto_A" (PyStr "4210") (PyInt (2 ^ 1024))]%string
   = Raise KeyError <->
   [mkOperation "Konto_A" (PyStr "4210") (PyInt (2 ^ 1024))]%string = []) /\
  (run (L := sample_lib) no_repr 0%nat
     [mkOperation "Konto_A" (PyStr "4210") (PyInt (2 ^ 1024))]%string
   = Raise OverflowError <->
   [mkOperation "Konto_A" (PyStr "4210") (PyInt (2 ^ 1024))]%string <> [] /\
   Exists oversized
     [mkOperation "Konto_A" (PyStr "4210") (PyInt (2 ^ 1024))]%string).
Proof.
  apply (@run_raises_KeyError_and_OverflowError_by_input sample_lib no_repr
           0%nat [mkOperation "Konto_A" (PyStr "4210") (PyInt (2 ^ 1024))]%string).
  - constructor; [| constructor]. eexists. reflexivity.
  - constructor; [| constructor]. left. eexists. reflexivity.
Defined.

(** ** The whole script on a library that keeps the shape of the map *)

Lemma sorted_unique_length l :
  (length (Pandas.sorted_unique l) <= length l)%nat.
Proof.
  apply submseteq_length, NoDup_submseteq; [apply sorted_unique_NoDup |].
  intros x. apply elem_of_sorted_unique.
Qed.

Lemma plain_converts (float_repr : Q -> string) (raw : list Operation) :
  Forall plain raw ->
  Forall (fun op => exists q, clean_currency float_repr (kwota op) = Ok q) raw.
Proof.
  intros H. eapply Forall_impl; [exact H |].
  intros op [_ [(z & -> & Hz) | (s & -> & _)]].
  - simpl. unfold float_of_int.
    assert (Hlim : 10 ^ 15 < float_int_limit) by (vm_compute; reflexivity).
    assert (Hlt : Z.abs z < float_int_limit) by lia.
    apply Z.ltb_lt in Hlt. rewrite Hlt. eauto.
  - rewrite clean_currency_text. eauto.
Qed.

Section ShapedLibrary.

Context `{L : MiniSomLib}.
Variable float_repr : Q -> string.

(** [MiniSom] keeps an array of [x] by [y] weight vectors from its
    constructor on: [random_weights_init] and [train_random] write into it. *)
Hypothesis constructor_shape :
  forall g x y k, grid_shape (fst (constructor_weights g x y k)) x y.
Hypothesis init_shape :
  forall wg data x y,
    grid_shape (fst wg) x y ->
    grid_shape (fst (lib_random_weights_init wg data)) x y.
Hypothesis train_shape :
  forall s l wg data n x y,
    grid_shape (fst wg) x y ->
    grid_shape (fst (lib_train_random s l wg data n)) x y.

Lemma trained_som_grid p dn entropy :
  let g := Z.to_nat (map_size (Z.of_nat (length (index p)))) in
  som_x (trained_som p dn entropy) = g /\
  som_y (trained_som p dn entropy) = g /\
  grid_shape (weights (trained_som p dn entropy)) g g.
Proof.
  intros g. destruct (trained_som_shape p dn entropy) as (Hx & Hy & _).
  split; [exact Hx |]. split; [exact Hy |].
  unfold trained_som, train_random, random_weights_init, make_som, MiniSom.
  fold g.
  pose proof (constructor_shape entropy g g (length (columns p))) as H0.
  destruct (constructor_weights entropy g g (length (columns p))) as [w0 g0].
  cbn [weights random_generator som_x som_y input_len sigma learning_rate
       random_seed].
  pose proof (init_shape (w0, g0) dn g g H0) as H1.
  destruct (lib_random_weights_init (w0, g0) dn) as [w1 g1].
  cbn [weights random_generator som_x som_y input_len sigma learning_rate
       random_seed].
  pose proof (train_shape 1%Q (1 # 2)%Q (w1, g1) dn 1000%nat g g H1) as H2.
  destruct (lib_train_random 1%Q (1 # 2)%Q (w1, g1) dn 1000%nat) as [w2 g2].
  exact H2.
Qed.

(** X19.  With at least one operation and at most [max_accounts], all of
    them with an ASCII text for a paragraph and, for an amount, an integer of
    fifteen digits at most or an ASCII text of fifteen characters at most,
    the script runs to its end: it prints groups that hold every account of
    the input once, each at coordinates inside the map of [map_size] by
    [map_size] neurons, each with a dominant paragraph that is the label of
    an operation of the input. *)
Theorem run_completes (entropy : rng) (raw : list Operation) :
  raw <> [] -> Z.of_nat (length raw) <= max_accounts ->
  Forall plain raw ->
  let accounts := Pandas.sorted_unique (map konto raw) in
  let g := Z.to_nat (map_size (Z.of_nat (length accounts))) in
  exists out,
    run float_repr entropy raw = Ok out /\
    concat (map (fun o => o.1.2) out) ≡ₚ accounts /\
    NoDup (map (fun o => o.1.1) out) /\
    Forall (fun o => (o.1.1.1 < g)%nat /\ (o.1.1.2 < g)%nat /\
                     o.2 ∈ map (label_of float_repr) raw) out.
Proof.
  intros Hne Hmax Hplain accounts g.
  pose proof (plain_converts float_repr raw Hplain) as Hconv.
  destruct (clean_frame_total float_repr raw Hne Hconv) as [rows Hrows].
  assert (Hb : build float_repr raw = Ok (Pandas.pivot_table rows))
    by (unfold build; rewrite Hrows; reflexivity).
  set (p := Pandas.pivot_table rows) in *. clearbody p.
  destruct (build_facts float_repr raw p Hb)
    as (Hi & Hc & Hine & Hcne & Hlen & Hshape).
  destruct (normalize_built float_repr raw p Hb) as [dn Hn].
  pose proof (normalize_length _ _ Hn) as Hdn.
  set (som := trained_som p dn entropy).
  destruct (trained_som_grid p dn entropy) as (Hx & Hy & Hgrid).
  fold som in Hx, Hy, Hgrid. rewrite Hi in Hx, Hy, Hgrid.
  fold accounts in Hx, Hy, Hgrid. fold g in Hx, Hy, Hgrid.
  assert (Hg : (0 < g)%nat).
  { pose proof (sorted_unique_length (map konto raw)) as Hl.
    rewrite length_map in Hl. fold accounts in Hl.
    assert (Hr : 0 <= Z.of_nat (length accounts) <= max_accounts)
      by (unfold max_accounts in *; lia).
    destruct (map_size_grows_bounds _ Hr). subst g. lia. }
  assert (Hwin : forall x, exists i j,
             winner som x = Ok (i, j) /\ (i < g)%nat /\ (j < g)%nat).
  { intros x. unfold winner. rewrite Hx, Hy.
    apply winner_of_in_grid; assumption. }
  destruct (group_loop_total (winner som) (zip (index p) dn) []) as [d Hd].
  { intros x. destruct (Hwin x) as (i & j & Hw & _). eauto. }
  destruct (run_from_groups float_repr entropy raw p dn d Hb Hn Hd)
    as (out & Ho & Hf).
  destruct (group_loop_spec _ _ _ _ Hd) as (Hperm & _ & _).
  simpl in Hperm. rewrite fst_zip in Hperm by lia.
  destruct (group_loop_classes _ _ _ Hd) as [Hnd Hcl].
  assert (Hfst : map (fun o : (nat * nat) * list string * string => o.1) out = d).
  { clear -Hf. induction Hf as [|g0 o d out [Ho _] _ IH]; simpl;
      [reflexivity |]. rewrite Ho, IH. reflexivity. }
  exists out. split; [exact Ho |]. split; [| split].
  - transitivity (index p); [| rewrite Hi; reflexivity].
    rewrite <- Hperm. unfold members. rewrite <- Hfst.
    rewrite <- list_fmap_compose. reflexivity.
  - rewrite <- Hfst in Hnd. rewrite <- list_fmap_compose in Hnd. exact Hnd.
  - apply Forall_forall. intros o Hin.
    apply list_elem_of_lookup_1 in Hin as [n Hn'].
    destruct (Forall2_lookup_r _ _ _ _ _ Hf Hn') as (g0 & Hg0 & Hog & Hcol).
    assert (Hkey : exists row, winner som row = Ok o.1.1).
    { apply list_elem_of_lookup_2 in Hg0. rewrite <- Hog in Hg0.
      destruct (o.1) as [k names] eqn:Eo. apply Hcl in Hg0 as [Hnames ->].
      destruct (filed_under (winner som) k (zip (index p) dn))
        as [|name rest] eqn:Ef; [congruence |].
      assert (Hname : name ∈ filed_under (winner som) k (zip (index p) dn))
        by (rewrite Ef; apply list_elem_of_here).
      apply filed_under_elem in Hname as (row & _ & Hw). eauto. }
    destruct Hkey as [row Hrow].
    destruct (Hwin row) as (i & j & Hw & Hi' & Hj').
    rewrite Hrow in Hw. injection Hw as Hw. rewrite Hw. simpl.
    split; [exact Hi' |]. split; [exact Hj' |].
    rewrite Hc in Hcol. exact (proj1 (elem_of_sorted_unique _ _) Hcol).
Qed.

End ShapedLibrary.

Lemma sample_lib_shape :
  (forall g x y k, grid_shape (fst (constructor_weights g x y k)) x y) /\
  (forall wg data x y,
     grid_shape (fst wg) x y ->
     grid_shape (fst (lib_random_weights_init wg data)) x y) /\
  (forall s l wg data n x y,
     grid_shape (fst wg) x y ->
     grid_shape (fst (lib_train_random s l wg data n)) x y).
Proof.
  split; [| split].
  - intros g x y k. simpl. split; [apply length_replicate |].
    apply Forall_replicate. apply length_replicate.
  - intros [w g] data x y [Hx Hy]. simpl in *. split.
    + rewrite length_imap. exact Hx.
    + apply Forall_forall. intros row Hrow.
      apply list_elem_of_lookup_1 in Hrow as [i Hi].
      rewrite list_lookup_imap in Hi.
      destruct (w !! i) as [row0 |] eqn:Ei; [| discriminate].
      simpl in Hi. injection Hi as <-. rewrite length_imap.
      rewrite Forall_forall in Hy. apply Hy.
      eapply list_elem_of_lookup_2, Ei.
  - intros s l wg data n x y H. exact H.
Qed.

Lemma run_completes_witness :
  exists out,
    run no_repr (0%nat : rng) raw_data = Ok out /\
    concat (map (fun o => o.1.2) out)
      ≡ₚ Pandas.sorted_unique (map konto raw_data) /\
    NoDup (map (fun o => o.1.1) out) /\
    Forall (fun o =>
              (o.1.1.1 < Z.to_nat (map_size (Z.of_nat (length
                 (Pandas.sorted_unique (map konto raw_data))))))%nat /\
              (o.1.1.2 < Z.to_nat (map_size (Z.of_nat (length
                 (Pandas.sorted_unique (map konto raw_data))))))%nat /\
              o.2 ∈ map (label_of no_repr) raw_data) out.
Proof.
  destruct sample_lib_shape as (H1 & H2 & H3).
  apply (@run_completes sample_lib no_repr H1 H2 H3 0%nat raw_data).
  - discriminate.
  - vm_compute. discriminate.
  - apply Forall_forall. intros op Hop. unfold raw_data in Hop.
    repeat (apply elem_of_cons in Hop as [-> | Hop]);
      [.. | inversion Hop];
      (split; [eexists; split; reflexivity |
               left; eexists; split; [reflexivity | simpl; lia]]).
Defined.

(** * Properties of the binary64 lines *)

(** ** The order of binary64 numbers *)

Module FloatFacts.

Import SpecFloat FloatOps FloatAxioms.

Lemma compare_cont_Eq m1 m2 : Pos.compare_cont Eq m1 m2 = Pos.compare m1 m2.
Proof. reflexivity. Qed.

Ltac sf_cases :=
  repeat match goal with
  | x : spec_float |- _ => destruct x
  | s : bool |- _ => destruct s
  end; simpl in *; try discriminate; try congruence; auto.

Ltac cmp_cases :=
  repeat match goal with
  | |- context [Z.compare ?a ?b] =>
      destruct (Z.compare_spec a b); simpl in *; subst
  | H : context [Z.compare ?a ?b] |- _ =>
      destruct (Z.compare_spec a b); simpl in *; subst
  | |- context [Pos.compare_cont Eq ?a ?b] =>
      rewrite (compare_cont_Eq a b);
      destruct (Pos.compare_spec a b); simpl in *; subst
  | H : context [Pos.compare_cont Eq ?a ?b] |- _ =>
      rewrite (compare_cont_Eq a b) in H;
      destruct (Pos.compare_spec a b); simpl in *; subst
  end; try discriminate; try congruence; try lia; auto.

Lemma SFleb_total x y :
  sf_nan x = false -> sf_nan y = false ->
  SFleb x y = true \/ SFleb y x = true.
Proof. unfold SFleb. intros Hx Hy. sf_cases; cmp_cases. Qed.

Lemma SFleb_trans x y z :
  SFleb x y = true -> SFleb y z = true -> SFleb x z = true.
Proof. unfold SFleb. intros Hx Hy. sf_cases; cmp_cases. Qed.

Lemma SFeqb_leb x y : SFeqb x y = SFleb x y && SFleb y x.
Proof. unfold SFleb, SFeqb. sf_cases; cmp_cases. Qed.

Lemma SFleb_not_nan x y :
  SFleb x y = true -> sf_nan x = false /\ sf_nan y = false.
Proof. unfold SFleb. sf_cases. Qed.

Lemma SFeqb_refl x : SFeqb x x = negb (sf_nan x).
Proof.
  unfold SFeqb. sf_cases; cmp_cases.
  all: rewrite Pos.compare_refl; reflexivity.
Qed.

Lemma is_nan_spec f : Binary64.is_nan f = sf_nan (Prim2SF f).
Proof.
  unfold Binary64.is_nan. rewrite eqb_spec, SFeqb_refl, negb_involutive.
  reflexivity.
Qed.

Lemma leb_total a b :
  Binary64.is_nan a = false -> Binary64.is_nan b = false ->
  PrimFloat.leb a b = true \/ PrimFloat.leb b a = true.
Proof. rewrite !is_nan_spec, !leb_spec. apply SFleb_total. Qed.

Lemma leb_trans a b c :
  PrimFloat.leb a b = true -> PrimFloat.leb b c = true ->
  PrimFloat.leb a c = true.
Proof. rewrite !leb_spec. apply SFleb_trans. Qed.

Lemma leb_refl a : Binary64.is_nan a = false -> PrimFloat.leb a a = true.
Proof. intros H. destruct (leb_total a a H H); assumption. Qed.

Lemma leb_not_nan a b :
  PrimFloat.leb a b = true ->
  Binary64.is_nan a = false /\ Binary64.is_nan b = false.
Proof. rewrite !is_nan_spec, leb_spec. apply SFleb_not_nan. Qed.

Lemma eqb_leb a b :
  PrimFloat.eqb a b = PrimFloat.leb a b && PrimFloat.leb b a.
Proof. rewrite eqb_spec, !leb_spec. apply SFeqb_leb. Qed.

(** ** Integers in binary64 *)

Lemma digits2_size p : digits2_pos p = Pos.size p.
Proof. induction p; simpl; congruence. Qed.

Lemma size_iter_xO p d :
  Zpos (Pos.size (Pos.iter xO p d)) = Zpos (Pos.size p) + Zpos d.
Proof.
  induction d as [|d IH] using Pos.peano_ind.
  - simpl. lia.
  - rewrite Pos.iter_succ. simpl Pos.size. lia.
Qed.

Lemma size_shl p k : 0 <= k -> Zpos (Pos.size (shl p k)) = Zpos (Pos.size p) + k.
Proof.
  destruct k as [|d|d]; simpl; intros H; [lia | apply size_iter_xO | lia].
Qed.

Lemma shl_shl p j k : 0 <= j -> 0 <= k -> shl (shl p j) k = shl p (j + k).
Proof.
  destruct j as [|a|a], k as [|b|b]; simpl; intros; try lia; try reflexivity.
  rewrite Pos.add_comm. symmetry. apply Pos.iter_add.
Qed.

Lemma Zpos_iter_xO p d : Zpos (Pos.iter xO p d) = Zpos p * 2 ^ Zpos d.
Proof.
  induction d as [|d IH] using Pos.peano_ind.
  - simpl. lia.
  - rewrite Pos.iter_succ, Pos2Z.inj_xO, IH.
    rewrite Pos2Z.inj_succ, Z.pow_succ_r by lia. ring.
Qed.

Lemma Zpos_shl p k : 0 <= k -> Zpos (shl p k) = Zpos p * 2 ^ k.
Proof.
  destruct k as [|d|d]; intros H.
  - simpl. lia.
  - apply Zpos_iter_xO.
  - lia.
Qed.

Lemma shl_align_shl p e e' :
  e' <= e -> shl_align p e e' = (shl p (e - e'), e - (e - e')) .
Proof.
  intros H. unfold shl_align.
  destruct (e' - e) as [|d|d] eqn:E.
  - replace (e - e') with 0 by lia. simpl. f_equal. lia.
  - lia.
  - replace (e - e') with (Zpos d) by lia. simpl. f_equal. lia.
Qed.

Lemma shl_align_keep p e e' : e <= e' -> shl_align p e e' = (p, e).
Proof.
  intros H. unfold shl_align. destruct (e' - e) eqn:E; try reflexivity. lia.
Qed.

Lemma iter_pos_nat {A} (f : A -> A) n x :
  iter_pos f n x = Nat.iter (Pos.to_nat n) f x.
Proof.
  revert x. induction n as [n IH|n IH|]; intros x; cbn [iter_pos].
  - rewrite !IH. rewrite Pos2Nat.inj_xI.
    replace (S (2 * Pos.to_nat n))
      with (Pos.to_nat n + (Pos.to_nat n + 1))%nat by lia.
    rewrite !Nat.iter_add. reflexivity.
  - rewrite !IH. rewrite Pos2Nat.inj_xO.
    replace (2 * Pos.to_nat n)%nat
      with (Pos.to_nat n + Pos.to_nat n)%nat by lia.
    rewrite Nat.iter_add. reflexivity.
  - reflexivity.
Qed.

Lemma shr_exact_nat n m :
  Nat.iter n shr_1
    {| shr_m := Zpos (Nat.iter n xO m); shr_r := false; shr_s := false |}
  = {| shr_m := Zpos m; shr_r := false; shr_s := false |}.
Proof.
  induction n as [|n IH]; [reflexivity |].
  rewrite Nat.iter_succ_r. simpl. exact IH.
Qed.

Lemma shr_exact d m :
  iter_pos shr_1 d
    {| shr_m := Zpos (Pos.iter xO m d); shr_r := false; shr_s := false |}
  = {| shr_m := Zpos m; shr_r := false; shr_s := false |}.
Proof.
  rewrite iter_pos_nat, Pos2Nat.inj_iter. apply shr_exact_nat.
Qed.

Lemma fexp_53 e : fexp prec emax e = Z.max (e - 53) (-1074).
Proof. reflexivity. Qed.

Lemma shr_fexp_keep m e :
  Z.max (Zpos (Pos.size m) + e - 53) (-1074) = e ->
  shr_fexp prec emax (Zpos m) e loc_Exact
  = ({| shr_m := Zpos m; shr_r := false; shr_s := false |}, e).
Proof.
  intros H. unfold shr_fexp.
  change (Zdigits2 (Zpos m)) with (Zpos (digits2_pos m)).
  rewrite digits2_size, fexp_53, H, Z.sub_diag. reflexivity.
Qed.

(** A mantissa of 53 digits with an exponent in range is left as it is. *)
Lemma binary_round_aux_canonical s m e :
  Zpos (Pos.size m) = 53 -> -1074 <= e <= 971 ->
  binary_round_aux prec emax s (Zpos m) e loc_Exact = S754_finite s m e.
Proof.
  intros Hm He. unfold binary_round_aux.
  rewrite shr_fexp_keep by lia. cbn [shr_m loc_of_shr_record round_nearest_even].
  rewrite shr_fexp_keep by lia. cbn [shr_m].
  change (emax - prec) with 971.
  destruct (e <=? 971) eqn:E; [reflexivity | lia].
Qed.

(** An integer below [2^53], given with trailing zeros, is rounded to
    itself, with a mantissa of 53 digits. *)
Lemma binary_round_int s p k :
  Zpos (Pos.size p) <= 53 -> 0 <= k <= 1074 ->
  binary_round prec emax s (shl p k) (- k)
  = S754_finite s (shl p (53 - Zpos (Pos.size p))) (Zpos (Pos.size p) - 53).
Proof.
  intros Hp Hk. set (d := Zpos (Pos.size p)) in *.
  assert (Hd : 1 <= d) by (subst d; lia).
  unfold binary_round. rewrite digits2_size, size_shl, fexp_53 by lia. fold d.
  replace (Z.max (d + k + - k - 53) (-1074)) with (d - 53) by lia.
  destruct (Z.le_gt_cases (d - 53) (- k)) as [H | H].
  - rewrite shl_align_shl by lia. rewrite shl_shl by lia.
    replace (k + (- k - (d - 53))) with (53 - d) by lia.
    replace (- k - (- k - (d - 53))) with (d - 53) by lia.
    apply binary_round_aux_canonical; [rewrite size_shl by lia; fold d; lia | lia].
  - rewrite shl_align_keep by lia.
    unfold binary_round_aux. unfold shr_fexp at 1.
    change (Zdigits2 (Zpos (shl p k))) with (Zpos (digits2_pos (shl p k))).
    rewrite digits2_size, size_shl, fexp_53 by lia. fold d.
    replace (Z.max (d + k + - k - 53) (-1074) - - k) with (d - 53 + k) by lia.
    destruct (d - 53 + k) as [|n|n] eqn:En; [lia | | lia].
    replace (shl p k) with (Pos.iter xO (shl p (53 - d)) n).
    2:{ change (Pos.iter xO (shl p (53 - d)) n)
          with (shl (shl p (53 - d)) (Zpos n)).
        rewrite shl_shl by lia. f_equal. lia. }
    cbn [shr shr_record_of_loc]. rewrite shr_exact.
    cbn [shr_m loc_of_shr_record round_nearest_even].
    rewrite shr_fexp_keep by (rewrite size_shl by lia; fold d; lia).
    cbn [shr_m]. change (emax - prec) with 971.
    replace (- k + Z.pos n) with (d - 53) by lia.
    destruct (d - 53 <=? 971) eqn:E; [reflexivity | lia].
Qed.

Lemma Z_sign_mag z : z <> 0 -> z = cond_Zopp (z <? 0) (Zpos (mag z)).
Proof.
  intros H. unfold mag, cond_Zopp. destruct (z <? 0) eqn:E.
  - apply Z.ltb_lt in E. rewrite Z2Pos.id by lia. lia.
  - apply Z.ltb_ge in E. rewrite Z2Pos.id by lia. lia.
Qed.

Lemma size_bound p : Zpos p < 2 ^ 53 <-> Zpos (Pos.size p) <= 53.
Proof.
  pose proof (Pos.size_gt p) as H1. pose proof (Pos.size_le p) as H2.
  apply Pos2Z.pos_lt_pos in H1. apply Pos2Z.pos_le_pos in H2.
  rewrite Pos2Z.inj_pow in H1, H2. rewrite (Pos2Z.inj_xO p) in H2.
  split; intros H.
  - destruct (Z.le_gt_cases (Zpos (Pos.size p)) 53) as [Hle | Hgt];
      [exact Hle |].
    exfalso. assert (2 ^ 54 <= 2 ^ Zpos (Pos.size p))
      by (apply Z.pow_le_mono_r; lia).
    assert (E : 2 ^ 54 = 2 * 2 ^ 53) by reflexivity. lia.
  - assert (2 ^ Zpos (Pos.size p) <= 2 ^ 53) by (apply Z.pow_le_mono_r; lia).
    lia.
Qed.

Lemma size_mag z : z <> 0 -> Z.abs z < 2 ^ 53 -> Zpos (Pos.size (mag z)) <= 53.
Proof.
  intros Hz Hb. apply size_bound. unfold mag. rewrite Z2Pos.id by lia. exact Hb.
Qed.

Lemma binary_normalize_signed s p e :
  binary_normalize prec emax (cond_Zopp s (Zpos p)) e false
  = binary_round prec emax s p e.
Proof. destruct s; reflexivity. Qed.

Lemma sf_int_nonzero z :
  z <> 0 -> Z.abs z < 2 ^ 53 ->
  sf_int z = S754_finite (z <? 0) (shl (mag z) (53 - Zpos (Pos.size (mag z))))
                         (Zpos (Pos.size (mag z)) - 53).
Proof.
  intros Hz Hb. unfold sf_int. rewrite (Z_sign_mag z Hz) at 1.
  rewrite binary_normalize_signed.
  apply (binary_round_int (z <? 0) (mag z) 0 (size_mag z Hz Hb)). lia.
Qed.

Lemma sf_int_valid z :
  Z.abs z < 2 ^ 53 -> valid_binary (sf_int z) = true.
Proof.
  intros Hb. destruct (Z.eq_dec z 0) as [-> | Hz]; [reflexivity |].
  rewrite (sf_int_nonzero z Hz Hb).
  pose proof (size_mag z Hz Hb) as Hs.
  unfold SpecFloat.valid_binary, bounded, canonical_mantissa.
  rewrite digits2_size, size_shl, fexp_53 by lia.
  apply andb_true_intro. split; [apply Z.eqb_eq | apply Z.leb_le];
    change (emax - prec) with 971; lia.
Qed.

Lemma cond_Zopp_mul s a b : cond_Zopp s a * b = cond_Zopp s (a * b).
Proof. destruct s; simpl; ring. Qed.

(** The sum of two integers that stays below [2^53] is added exactly. *)
Lemma SFadd_int a b :
  Z.abs a < 2 ^ 53 -> Z.abs b < 2 ^ 53 -> Z.abs (a + b) < 2 ^ 53 ->
  SF64add (sf_int a) (sf_int b) = sf_int (a + b).
Proof.
  intros Ha Hb Hab. unfold SF64add.
  destruct (Z.eq_dec a 0) as [-> | Hna].
  { rewrite Z.add_0_l. change (sf_int 0) with (S754_zero false).
    destruct (Z.eq_dec b 0) as [-> | Hnb]; [reflexivity |].
    rewrite (sf_int_nonzero b Hnb Hb). reflexivity. }
  destruct (Z.eq_dec b 0) as [-> | Hnb].
  { rewrite Z.add_0_r. change (sf_int 0) with (S754_zero false).
    rewrite (sf_int_nonzero a Hna Ha). reflexivity. }
  rewrite (sf_int_nonzero a Hna Ha), (sf_int_nonzero b Hnb Hb).
  set (da := Zpos (Pos.size (mag a))). set (db := Zpos (Pos.size (mag b))).
  assert (Hda : 1 <= da <= 53)
    by (split; [subst da; lia | apply size_mag; assumption]).
  assert (Hdb : 1 <= db <= 53)
    by (split; [subst db; lia | apply size_mag; assumption]).
  cbn [SFadd]. set (ez := Z.min (da - 53) (db - 53)).
  rewrite !shl_align_shl by (subst ez; lia). cbn [fst].
  rewrite !shl_shl by (subst ez; lia).
  replace (53 - da + (da - 53 - ez)) with (- ez) by lia.
  replace (53 - db + (db - 53 - ez)) with (- ez) by lia.
  set (k := - ez). assert (Hk : 0 <= k <= 52) by (subst k ez; lia).
  rewrite !Zpos_shl by lia. rewrite <- !cond_Zopp_mul.
  rewrite <- (Z_sign_mag a Hna), <- (Z_sign_mag b Hnb).
  rewrite <- Z.mul_add_distr_r.
  replace ez with (- k) by (subst k; lia).
  destruct (Z.eq_dec (a + b) 0) as [E0 | Hnab].
  { rewrite E0. reflexivity. }
  rewrite (sf_int_nonzero (a + b) Hnab Hab).
  rewrite (Z_sign_mag (a + b) Hnab) at 1. rewrite cond_Zopp_mul.
  rewrite <- Zpos_shl by lia. rewrite binary_normalize_signed.
  apply binary_round_int; [apply size_mag; assumption | lia].
Qed.

Lemma Prim2SF_of_Z z :
  Z.abs z < 2 ^ 53 -> Prim2SF (Binary64.of_Z z) = sf_int z.
Proof. intros H. apply Prim2SF_SF2Prim, sf_int_valid, H. Qed.

Lemma add_of_Z a b :
  Z.abs a < 2 ^ 53 -> Z.abs b < 2 ^ 53 -> Z.abs (a + b) < 2 ^ 53 ->
  PrimFloat.add (Binary64.of_Z a) (Binary64.of_Z b) = Binary64.of_Z (a + b).
Proof.
  intros Ha Hb Hab. apply Prim2SF_inj.
  rewrite add_spec, !Prim2SF_of_Z by assumption. apply SFadd_int; assumption.
Qed.

Lemma sf_int_finite z : Z.abs z < 2 ^ 53 -> sf_finite (sf_int z) = true.
Proof.
  intros Hb. destruct (Z.eq_dec z 0) as [-> | Hz]; [reflexivity |].
  rewrite (sf_int_nonzero z Hz Hb). reflexivity.
Qed.

Lemma of_Z_not_nan z : Z.abs z < 2 ^ 53 -> Binary64.is_nan (Binary64.of_Z z) = false.
Proof.
  intros Hb. rewrite is_nan_spec, Prim2SF_of_Z by exact Hb.
  pose proof (sf_int_finite z Hb). destruct (sf_int z); simpl in *; congruence.
Qed.

(** ** A quotient of two numbers is a number *)








End FloatFacts.

(** ** The entries of the pivot *)

Lemma to_int_of_Z z :
  Z.abs z < 2 ^ 53 -> Float64.to_int (Binary64.of_Z z) = z.
Proof.
  intros Hb. unfold Float64.to_int. rewrite FloatFacts.Prim2SF_of_Z by exact Hb.
  destruct (Z.eq_dec z 0) as [-> | Hz]; [reflexivity |].
  rewrite (FloatFacts.sf_int_nonzero z Hz Hb).
  pose proof (FloatFacts.size_mag z Hz Hb) as Hs.
  set (d := Zpos (Pos.size (mag z))) in *.
  assert (Hd : 1 <= d) by (subst d; lia).
  assert (E : (if d - 53 <? 0
               then Z.shiftr (Zpos (shl (mag z) (53 - d))) (- (d - 53))
               else Z.shiftl (Zpos (shl (mag z) (53 - d))) (d - 53))
              = Zpos (mag z)).
  { destruct (d - 53 <? 0) eqn:E.
    - apply Z.ltb_lt in E. rewrite FloatFacts.Zpos_shl by lia.
      rewrite Z.shiftr_div_pow2 by lia.
      replace (- (d - 53)) with (53 - d) by lia.
      apply Z.div_mul. apply Z.pow_nonzero; lia.
    - apply Z.ltb_ge in E. replace (d - 53) with 0 by lia.
      replace (53 - d) with 0 by lia. reflexivity. }
  rewrite E. pose proof (FloatFacts.Z_sign_mag z Hz) as Hsm.
  unfold SpecFloat.cond_Zopp in Hsm. destruct (z <? 0); symmetry; exact Hsm.
Qed.



Lemma Zsum_abs_nonneg l : 0 <= Zsum (map Z.abs l).
Proof. induction l as [|z l IH]; simpl; lia. Qed.

Lemma Zsum_abs_le l : Z.abs (Zsum l) <= Zsum (map Z.abs l).
Proof. induction l as [|z l IH]; simpl; lia. Qed.

Lemma amounts_of_cons_match rows e c z :
  amounts_of ((e, c, z) :: rows) e c = z :: amounts_of rows e c.
Proof.
  unfold amounts_of. rewrite filter_cons_True by (simpl; auto). reflexivity.
Qed.

Lemma amounts_of_cons_other rows e c k p z :
  ~ (k = e /\ p = c) ->
  amounts_of ((k, p, z) :: rows) e c = amounts_of rows e c.
Proof.
  intros H. unfold amounts_of. rewrite filter_cons_False by (simpl; tauto).
  reflexivity.
Qed.

(** As long as the absolute values of the amounts of a group add up to less
    than [2^53], the running sum of the group is the exact sum. *)
Lemma sum_step64_int rows acc e c s0 :
  default Binary64.zero (acc !! (e, c)) = Binary64.of_Z s0 ->
  Z.abs s0 + Zsum (map Z.abs (amounts_of rows e c)) < 2 ^ 53 ->
  default Binary64.zero
    (foldl Binary64.sum_step acc (map float_row rows) !! (e, c))
  = Binary64.of_Z (s0 + Zsum (amounts_of rows e c)).
Proof.
  revert acc s0. induction rows as [|[[k p] z] rows IH]; intros acc s0 Hacc Hb.
  - simpl. rewrite Z.add_0_r. exact Hacc.
  - cbn [map foldl].
    pose proof (Zsum_abs_nonneg (amounts_of rows e c)) as Hn.
    destruct (decide (k = e /\ p = c)) as [[-> ->] | Hm].
    + rewrite amounts_of_cons_match in Hb |- *.
      change (Zsum (map Z.abs (z :: amounts_of rows e c)))
        with (Z.abs z + Zsum (map Z.abs (amounts_of rows e c))) in Hb.
      change (Zsum (z :: amounts_of rows e c))
        with (z + Zsum (amounts_of rows e c)).
      rewrite Z.add_assoc. apply IH; [| lia].
      unfold Binary64.sum_step, float_row.
      cbn [Binary64.r_konto Binary64.r_paragraf Binary64.r_kwota fst snd].
      rewrite lookup_insert_eq. cbn [default].
      rewrite FloatFacts.of_Z_not_nan by lia. rewrite Hacc.
      apply FloatFacts.add_of_Z; lia.
    + rewrite amounts_of_cons_other in Hb |- * by exact Hm.
      apply IH; [| exact Hb].
      unfold Binary64.sum_step, float_row.
      cbn [Binary64.r_konto Binary64.r_paragraf Binary64.r_kwota fst snd].
      rewrite lookup_insert_ne; [exact Hacc |].
      intros [= He Hc]. apply Hm. split; assumption.
Qed.

Lemma group_sum64_int rows e c :
  Zsum (map Z.abs (amounts_of rows e c)) < 2 ^ 53 ->
  default Binary64.zero (Binary64.group_sum (map float_row rows) !! (e, c))
  = Binary64.of_Z (Zsum (amounts_of rows e c)).
Proof.
  intros Hb. unfold Binary64.group_sum.
  rewrite (sum_step64_int rows ∅ e c 0); [reflexivity | reflexivity | simpl; lia].
Qed.




(** ** The winner on binary64 numbers *)

Lemma concat_map_lookup {A B} (g : A -> B) (w : list (list A)) gy p v :
  Forall (fun row => length row = gy) w ->
  concat (map (map g) w) !! p = Some v <->
  exists i j a, w !! i ≫= (fun row => row !! j) = Some a /\ v = g a /\
                p = (i * gy + j)%nat /\ (j < gy)%nat.
Proof.
  intros Hw. rewrite concat_mjoin.
  rewrite (join_lookup_Some_same_length gy).
  2:{ apply Forall_fmap. eapply Forall_impl; [exact Hw |].
      intros row Hrow. simpl. rewrite length_fmap. exact Hrow. }
  split.
  - intros (i & row & j & Hi & Hj & ->).
    rewrite list_lookup_fmap in Hi.
    destruct (w !! i) as [wrow|] eqn:Ewi; simpl in Hi; [| discriminate].
    injection Hi as <-. rewrite list_lookup_fmap in Hj.
    destruct (wrow !! j) as [wv|] eqn:Ewj; simpl in Hj; [| discriminate].
    injection Hj as <-. exists i, j, wv. rewrite Ewi. simpl.
    split; [exact Ewj |]. split; [reflexivity |]. split; [reflexivity |].
    apply lookup_lt_Some in Ewj. rewrite Forall_forall in Hw.
    rewrite <- (Hw wrow); [exact Ewj |]. eapply list_elem_of_lookup_2, Ewi.
  - intros (i & j & wv & Hn & -> & -> & Hj).
    destruct (w !! i) as [wrow|] eqn:Ewi; simpl in Hn; [| discriminate].
    exists i, (map g wrow), j.
    rewrite !list_lookup_fmap, Ewi, Hn. auto.
Qed.

Lemma mapM_map {A B} (f : A -> result B) (g : A -> B) (l : list A) :
  Forall (fun a => f a = Ok (g a)) l -> mapM f l = Ok (map g l).
Proof.
  induction 1 as [|a l Ha _ IH]; simpl; [reflexivity |].
  rewrite Ha, IH. reflexivity.
Qed.

Lemma argmin_from_first_least l pre best mp :
  pre !! best = Some mp -> Binary64.is_nan mp = false ->
  (forall q u, pre !! q = Some u ->
     PrimFloat.leb mp u = true /\ ((q < best)%nat -> PrimFloat.leb u mp = false)) ->
  first_least (pre ++ l) (Binary64.argmin_from best mp (length pre) l).
Proof.
  revert pre best mp. induction l as [|v l IH]; intros pre best mp Hb Hn Hall.
  - simpl. rewrite app_nil_r. exists mp. split; [exact Hb |].
    split; [intros _; exact Hall | congruence].
  - cbn [Binary64.argmin_from].
    replace (pre ++ v :: l) with ((pre ++ [v]) ++ l)
      by (rewrite <- app_assoc; reflexivity).
    replace (S (length pre)) with (length (pre ++ [v]))
      by (rewrite length_app; simpl; lia).
    assert (Hlen : (best < length pre)%nat) by (eapply lookup_lt_Some, Hb).
    destruct (PrimFloat.leb mp v) eqn:Ele.
    + apply IH; [rewrite lookup_app_l by exact Hlen; exact Hb | exact Hn |].
      intros q u Hq. apply lookup_app_Some in Hq as [Hq | [Hge Hq]].
      * apply Hall, Hq.
      * apply list_lookup_singleton_Some in Hq as [Hq0 <-].
        split; [exact Ele | lia].
    + destruct (Binary64.is_nan v) eqn:Env.
      * exists v. split.
        { rewrite <- app_assoc. rewrite lookup_app_r by lia.
          rewrite Nat.sub_diag. reflexivity. }
        split; [congruence |]. intros _ q u Hq Hlt.
        rewrite <- app_assoc in Hq. rewrite lookup_app_l in Hq by exact Hlt.
        destruct (Hall q u Hq) as [Hle _].
        apply (FloatFacts.leb_not_nan _ _ Hle).
      * assert (Hvm : PrimFloat.leb v mp = true).
        { destruct (FloatFacts.leb_total mp v Hn Env); congruence. }
        apply IH.
        -- rewrite lookup_app_r by lia. rewrite Nat.sub_diag. reflexivity.
        -- exact Env.
        -- intros q u Hq. apply lookup_app_Some in Hq as [Hq | [Hge Hq]].
           ++ destruct (Hall q u Hq) as [Hle _]. split.
              ** eapply FloatFacts.leb_trans; eassumption.
              ** intros _. destruct (PrimFloat.leb u v) eqn:E; [| reflexivity].
                 rewrite (FloatFacts.leb_trans _ _ _ Hle E) in Ele. discriminate.
           ++ apply list_lookup_singleton_Some in Hq as [Hq0 <-].
              split; [apply FloatFacts.leb_refl, Env | lia].
Qed.

Lemma argmin64_spec l :
  l <> [] -> exists p, Binary64.argmin l = Ok p /\ first_least l p.
Proof.
  destruct l as [|v l]; [congruence |]. intros _. cbn [Binary64.argmin].
  eexists. split; [reflexivity |].
  destruct (Binary64.is_nan v) eqn:Env.
  - exists v. split; [reflexivity |]. split; [congruence |].
    intros _ q u _ Hq. lia.
  - apply (argmin_from_first_least l [v] 0%nat v); [reflexivity | exact Env |].
    intros q u Hq. apply list_lookup_singleton_Some in Hq as [-> <-].
    split; [apply FloatFacts.leb_refl, Env | lia].
Qed.

Lemma euclidean_distance64 add_reduce x w :
  length w = length x ->
  Binary64.euclidean_distance add_reduce x w
  = Ok (binary64_distance add_reduce x w).
Proof.
  intros H. unfold Binary64.euclidean_distance, Binary64.subtract.
  rewrite H, Nat.eqb_refl. cbn [bind].
  unfold Binary64.norm, binary64_distance. do 3 f_equal.
  revert w H. induction x as [|a x IH]; intros [|b w] H; try discriminate;
    [reflexivity |].
  simpl. f_equal. apply IH. simpl in H. lia.
Qed.

Lemma activation_map64 add_reduce w x :
  Forall (Forall (fun wv => length wv = length x)) w ->
  Binary64.activation_map add_reduce w x
  = Ok (map (map (binary64_distance add_reduce x)) w).
Proof.
  intros H. unfold Binary64.activation_map. apply mapM_map.
  eapply Forall_impl; [exact H |]. intros row Hrow. simpl.
  apply mapM_map. eapply Forall_impl; [exact Hrow |].
  intros wv Hwv. apply euclidean_distance64, Hwv.
Qed.

(** C5.  On a grid of [gx] by [gy] neurons, none of the two being 0, whose
    weight vectors are as long as [x], [winner] returns the coordinates of a
    neuron.  The distance it compares is the binary64 number that [numpy]
    computes, the square root of the reduction of the squares of the
    differences, however the reduction adds them.  When that number is no
    NaN for the winner, no neuron has a smaller one, and of the neurons with
    an equal one the winner is the first in the order of the pairs
    [(row, col)]; when it is a NaN, the winner is the first neuron whose
    number is a NaN. *)
Theorem C5_winner_has_first_least_binary64_distance
    (add_reduce : list Binary64.float -> Binary64.float)
    (w : list (list (list Binary64.float))) (gx gy : nat)
    (x : list Binary64.float) :
  length w = gx -> Forall (fun row => length row = gy) w ->
  (0 < gx)%nat -> (0 < gy)%nat ->
  Forall (Forall (fun wv => length wv = length x)) w ->
  exists i j wv,
    Binary64.winner_of add_reduce w (gx, gy) x = Ok (i, j) /\
    neuron64 w i j = Some wv /\
    (Binary64.is_nan (binary64_distance add_reduce x wv) = false ->
     forall i' j' wv', neuron64 w i' j' = Some wv' ->
       PrimFloat.leb (binary64_distance add_reduce x wv)
                     (binary64_distance add_reduce x wv') = true /\
       (PrimFloat.eqb (binary64_distance add_reduce x wv')
                      (binary64_distance add_reduce x wv) = true ->
        lex_le (i, j) (i', j'))) /\
    (Binary64.is_nan (binary64_distance add_reduce x wv) = true ->
     forall i' j' wv', neuron64 w i' j' = Some wv' ->
       Binary64.is_nan (binary64_distance add_reduce x wv') = true ->
       lex_le (i, j) (i', j')).
Proof.
  intros Hgx Hrows Hx Hy Hlen.
  set (a := map (map (binary64_distance add_reduce x)) w).
  assert (Hne : concat a <> []).
  { subst a. destruct w as [|row w]; [simpl in Hgx; lia |].
    inversion Hrows as [|? ? Hrow _]; subst.
    destruct row as [|wv row]; [simpl in Hy; lia |]. discriminate. }
  destruct (argmin64_spec _ Hne) as (p & Hp & v & Hv & Hleast & Hnan).
  apply (concat_map_lookup _ w gy p v Hrows) in Hv
    as (i & j & wv & Hn & -> & -> & Hj).
  assert (Hpos : forall i' j' wv', neuron64 w i' j' = Some wv' ->
            concat a !! (i' * gy + j')%nat
            = Some (binary64_distance add_reduce x wv') /\ (j' < gy)%nat).
  { intros i' j' wv' Hn'.
    assert (Hj' : (j' < gy)%nat).
    { unfold neuron64 in Hn'.
      destruct (w !! i') as [wrow|] eqn:Ewi; simpl in Hn'; [| discriminate].
      apply lookup_lt_Some in Hn'. rewrite Forall_forall in Hrows.
      rewrite <- (Hrows wrow); [exact Hn' |]. eapply list_elem_of_lookup_2, Ewi. }
    split; [| exact Hj'].
    apply (concat_map_lookup _ w gy _ _ Hrows). exists i', j', wv'. auto. }
  assert (Hlex : forall i' j', (j' < gy)%nat ->
            (i * gy + j <= i' * gy + j')%nat -> lex_le (i, j) (i', j')).
  { intros i' j' Hj' Hpq. unfold lex_le. simpl.
    destruct (Nat.lt_trichotomy i i') as [H | [H | H]]; [left; exact H | |].
    - right. split; [exact H |]. subst i'. lia.
    - exfalso. nia. }
  exists i, j, wv. split.
  { unfold Binary64.winner_of. rewrite (activation_map64 add_reduce w x Hlen).
    cbn [bind]. fold a. rewrite Hp. cbn [bind]. unfold unravel_index. simpl.
    f_equal. f_equal.
    - rewrite Nat.div_add_l by lia. rewrite Nat.div_small by exact Hj. lia.
    - rewrite Nat.add_comm, Nat.Div0.mod_add. apply Nat.mod_small, Hj. }
  split; [exact Hn |]. split.
  - intros Hnn i' j' wv' Hn'. destruct (Hpos i' j' wv' Hn') as [Hq Hj'].
    destruct (Hleast Hnn _ _ Hq) as [Hle Hlt]. split; [exact Hle |].
    intros Heq. apply Hlex; [exact Hj' |].
    destruct (Nat.le_gt_cases (i * gy + j) (i' * gy + j')) as [H | H];
      [exact H |].
    specialize (Hlt H). rewrite FloatFacts.eqb_leb in Heq.
    apply andb_prop in Heq as [Heq _]. congruence.
  - intros Hnn i' j' wv' Hn' Hnan'. destruct (Hpos i' j' wv' Hn') as [Hq Hj'].
    apply Hlex; [exact Hj' |].
    destruct (Nat.le_gt_cases (i * gy + j) (i' * gy + j')) as [H | H];
      [exact H |].
    rewrite (Hnan Hnn _ _ Hq H) in Hnan'. discriminate.
Qed.

Lemma C5_witness :
  exists i j wv,
    Binary64.winner_of Binary64.sum small_grid64 (2, 2)%nat
      [Binary64.of_Z 1; Binary64.of_Z 0] = Ok (i, j) /\
    neuron64 small_grid64 i j = Some wv /\
    (Binary64.is_nan
       (binary64_distance Binary64.sum [Binary64.of_Z 1; Binary64.of_Z 0] wv)
     = false ->
     forall i' j' wv', neuron64 small_grid64 i' j' = Some wv' ->
       PrimFloat.leb
         (binary64_distance Binary64.sum [Binary64.of_Z 1; Binary64.of_Z 0] wv)
         (binary64_distance Binary64.sum [Binary64.of_Z 1; Binary64.of_Z 0] wv')
       = true /\
       (PrimFloat.eqb
          (binary64_distance Binary64.sum [Binary64.of_Z 1; Binary64.of_Z 0] wv')
          (binary64_distance Binary64.sum [Binary64.of_Z 1; Binary64.of_Z 0] wv)
        = true ->
        lex_le (i, j) (i', j'))) /\
    (Binary64.is_nan
       (binary64_distance Binary64.sum [Binary64.of_Z 1; Binary64.of_Z 0] wv)
     = true ->
     forall i' j' wv', neuron64 small_grid64 i' j' = Some wv' ->
       Binary64.is_nan
         (binary64_distance Binary64.sum [Binary64.of_Z 1; Binary64.of_Z 0] wv')
       = true ->
       lex_le (i, j) (i', j')).
Proof.
  apply (C5_winner_has_first_least_binary64_distance Binary64.sum small_grid64
           2%nat 2%nat [Binary64.of_Z 1; Binary64.of_Z 0]).
  - reflexivity.
  - repeat constructor.
  - lia.
  - lia.
  - repeat constructor.
Defined.

(** The neuron [(1, 2^-30)] is farther from the origin than the neuron
    [(1, 0)], by [2^-60] on the squares; in binary64 both distances are 1,
    and [winner] returns the first of the two.  With two components, the
    order of the additions makes no difference. *)
Lemma C5_counterexample :
  let far := [Binary64.of_Z 1;
              PrimFloat.div (Binary64.of_Z 1) (Binary64.of_Z (2 ^ 30))] in
  let near := [Binary64.of_Z 1; Binary64.of_Z 0] in
  let x := [Binary64.of_Z 0; Binary64.of_Z 0] in
  Binary64.winner_of Binary64.sum [[far; near]] (1, 2)%nat x = Ok (0, 0)%nat /\
  binary64_distance Binary64.sum x far = Binary64.of_Z 1 /\
  binary64_distance Binary64.sum x near = Binary64.of_Z 1 /\
  (sq_distance (map exact_value x) (map exact_value near)
   < sq_distance (map exact_value x) (map exact_value far))%Q.
Proof. repeat split; vm_compute; reflexivity. Qed.

(** ** The normalisation on binary64 numbers *)












(** ** The dominant paragraph of a group, in binary64 *)












(** ** The size of the map, and what it depends on *)




(** ** Labels of the paragraphs *)

(** C9.  [clean_paragraph] returns what stands before the first dot of the
    text of its value, stripped, whatever it is made of: the label of
    ['A-1 b.x'] is ['A-1 b'], which is not made of digits only, and an
    operation whose paragraph is ['  .75'] is aggregated under the empty
    label, with no error. *)
Theorem C9_clean_paragraph_keeps_what_is_not_a_digit :
  clean_paragraph no_repr (PyStr "A-1 b.x") = "A-1 b"%string /\
  all_digits "A-1 b" = false /\
  is_ascii "A-1 b.x" = true /\
  clean_paragraph no_repr (PyStr "  .75") = EmptyString /\
  build no_repr [mkOperation "Konto_A" (PyStr "  .75") (PyInt 100)]
  = Ok {| index := ["Konto_A"%string]; columns := [EmptyString];
          values := [[100%Q]] |}.
Proof. repeat split; reflexivity. Qed.

(** ** What [clean_currency] returns and when it raises *)







(** ** The pivot of a frame of integer amounts *)

Lemma amounts_abs_le_total rows e c :
  Zsum (map Z.abs (amounts_of rows e c)) <= Zsum (map Z.abs (map snd rows)).
Proof.
  induction rows as [|[[k p] z] rows IH]; [reflexivity |].
  destruct (decide (k = e /\ p = c)) as [[-> ->] | Hm].
  - rewrite amounts_of_cons_match. simpl. lia.
  - rewrite amounts_of_cons_other by exact Hm. simpl. lia.
Qed.

Lemma Zsum_Permutation l l' : l ≡ₚ l' -> Zsum l = Zsum l'.
Proof. induction 1; simpl; lia. Qed.

Lemma amounts_of_Permutation rows rows' e c :
  rows ≡ₚ rows' -> amounts_of rows e c ≡ₚ amounts_of rows' e c.
Proof.
  intros H. unfold amounts_of. apply fmap_Permutation, filter_Permutation, H.
Qed.

Lemma float_row_konto rows :
  map Binary64.r_konto (map float_row rows) = map (fun r : IntRow => r.1.1) rows.
Proof. rewrite <- list_fmap_compose. reflexivity. Qed.

Lemma float_row_paragraf rows :
  map Binary64.r_paragraf (map float_row rows)
  = map (fun r : IntRow => r.1.2) rows.
Proof. rewrite <- list_fmap_compose. reflexivity. Qed.

(** The pivot of a frame of integer amounts whose absolute values add up to
    less than [2^53]: every entry is the exact sum of its pair. *)
Lemma pivot_table64_int rows :
  Zsum (map Z.abs (map snd rows)) < 2 ^ 53 ->
  Binary64.pivot_table (map float_row rows)
  = {| Binary64.index :=
         Pandas.sorted_unique (map (fun r : IntRow => r.1.1) rows);
       Binary64.columns :=
         Pandas.sorted_unique (map (fun r : IntRow => r.1.2) rows);
       Binary64.values :=
         map (fun e =>
                map (fun c => Binary64.of_Z (Zsum (amounts_of rows e c)))
                    (Pandas.sorted_unique (map (fun r : IntRow => r.1.2) rows)))
             (Pandas.sorted_unique (map (fun r : IntRow => r.1.1) rows)) |}.
Proof.
  intros Hb. unfold Binary64.pivot_table.
  rewrite float_row_konto, float_row_paragraf. f_equal.
  apply map_ext. intros e. apply map_ext. intros c.
  apply group_sum64_int.
  pose proof (amounts_abs_le_total rows e c). lia.
Qed.

(** X6.  The pivot does not depend on the order of the lines of the frame:
    for integer amounts whose absolute values add up to less than [2^53],
    the same lines in another order give the same axes and the same binary64
    entries. *)
Theorem pivot_table_order_independent (rows rows' : list IntRow) :
  rows ≡ₚ rows' ->
  Zsum (map Z.abs (map snd rows)) < 2 ^ 53 ->
  Binary64.pivot_table (map float_row rows)
  = Binary64.pivot_table (map float_row rows').
Proof.
  intros Hp Hb.
  assert (Hb' : Zsum (map Z.abs (map snd rows')) < 2 ^ 53).
  { rewrite (Zsum_Permutation (map Z.abs (map snd rows'))
                                (map Z.abs (map snd rows))); [exact Hb |].
    symmetry. apply fmap_Permutation, fmap_Permutation, Hp. }
  rewrite (pivot_table64_int rows Hb), (pivot_table64_int rows' Hb').
  assert (Hi : Pandas.sorted_unique (map (fun r : IntRow => r.1.1) rows)
               = Pandas.sorted_unique (map (fun r : IntRow => r.1.1) rows')).
  { apply sorted_unique_same_elements. intros x.
    rewrite (fmap_Permutation (fun r : IntRow => r.1.1) _ _ Hp). reflexivity. }
  assert (Hc : Pandas.sorted_unique (map (fun r : IntRow => r.1.2) rows)
               = Pandas.sorted_unique (map (fun r : IntRow => r.1.2) rows')).
  { apply sorted_unique_same_elements. intros x.
    rewrite (fmap_Permutation (fun r : IntRow => r.1.2) _ _ Hp). reflexivity. }
  rewrite <- Hi, <- Hc. f_equal.
  apply map_ext. intros e. apply map_ext. intros c. f_equal.
  apply Zsum_Permutation, amounts_of_Permutation, Hp.
Qed.

Lemma pivot_table_order_independent_witness :
  Binary64.pivot_table (map float_row raw_int_rows)
  = Binary64.pivot_table (map float_row (reverse raw_int_rows)).
Proof.
  apply (pivot_table_order_independent raw_int_rows (reverse raw_int_rows)).
  - symmetry. apply reverse_Permutation.
  - vm_compute. reflexivity.
Defined.

Lemma Zsum_app l l' : Zsum (l ++ l') = Zsum l + Zsum l'.
Proof. induction l as [|x l IH]; simpl; lia. Qed.

Lemma Zsum_concat ll : Zsum (concat ll) = Zsum (map Zsum ll).
Proof.
  induction ll as [|l ll IH]; simpl; [reflexivity |].
  rewrite Zsum_app, IH. reflexivity.
Qed.

Lemma Zsum_map_ext {A} (f g : A -> Z) (l : list A) :
  (forall x, x ∈ l -> f x = g x) -> Zsum (map f l) = Zsum (map g l).
Proof.
  induction l as [|x l IH]; intros H; simpl; [reflexivity |].
  rewrite (H x) by apply list_elem_of_here.
  rewrite IH; [reflexivity |]. intros y Hy. apply H, list_elem_of_further, Hy.
Qed.

Lemma Zsum_map_plus {A} (f g : A -> Z) (l : list A) :
  Zsum (map (fun x => f x + g x) l) = Zsum (map f l) + Zsum (map g l).
Proof. induction l as [|x l IH]; simpl; lia. Qed.

Lemma Zsum_map_zero {A} (l : list A) : Zsum (map (fun _ => 0) l) = 0.
Proof. induction l as [|x l IH]; simpl; lia. Qed.

Lemma Zsum_map_single (l : list string) (a : string) (z : Z) :
  NoDup l -> a ∈ l ->
  Zsum (map (fun x => if decide (x = a) then z else 0) l) = z.
Proof.
  intros Hnd Ha. induction Hnd as [|x l Hx Hnd IH]; [inversion Ha |].
  cbn [map]. change (Zsum (?h :: ?t)) with (h + Zsum t).
  destruct (decide (x = a)) as [-> | Hne].
  - assert (E : Zsum (map (fun x => if decide (x = a) then z else 0) l) = 0).
    { etransitivity; [| apply (Zsum_map_zero l)].
      apply Zsum_map_ext. intros y Hy.
      destruct (decide (y = a)) as [-> | _]; [contradiction | reflexivity]. }
    rewrite E. lia.
  - apply elem_of_cons in Ha as [-> | Ha]; [congruence |].
    rewrite (IH Ha). lia.
Qed.

Lemma amounts_of_cons_sum k p z rows e c :
  Zsum (amounts_of ((k, p, z) :: rows) e c)
  = (if decide (e = k) then if decide (c = p) then z else 0 else 0)
    + Zsum (amounts_of rows e c).
Proof.
  destruct (decide (k = e /\ p = c)) as [[-> ->] | Hm].
  - rewrite amounts_of_cons_match, !decide_True by reflexivity. reflexivity.
  - rewrite amounts_of_cons_other by exact Hm.
    destruct (decide (e = k)) as [-> | _]; [| lia].
    destruct (decide (c = p)) as [-> | _]; [| lia].
    exfalso. apply Hm. split; reflexivity.
Qed.

(** The sums of the pairs over two axes that hold every account and every
    paragraph of the frame, once each, add up to the amounts of the frame. *)
Lemma amounts_total (idx cols : list string) (rows : list IntRow) :
  NoDup idx -> NoDup cols ->
  Forall (fun r : IntRow => r.1.1 ∈ idx /\ r.1.2 ∈ cols) rows ->
  Zsum (map (fun e => Zsum (map (fun c => Zsum (amounts_of rows e c)) cols)) idx)
  = Zsum (map snd rows).
Proof.
  intros Hi Hc Hall. induction Hall as [|[[k p] z] rows [Hk Hp] Hall IH].
  - etransitivity; [| apply (Zsum_map_zero idx)].
    apply Zsum_map_ext. intros e _.
    etransitivity; [| apply (Zsum_map_zero cols)].
    apply Zsum_map_ext. intros c _. reflexivity.
  - simpl in Hk, Hp.
    rewrite (Zsum_map_ext _
               (fun e => (if decide (e = k) then z else 0)
                         + Zsum (map (fun c => Zsum (amounts_of rows e c)) cols))
               idx).
    + rewrite Zsum_map_plus, IH, (Zsum_map_single idx k z Hi Hk). reflexivity.
    + intros e _.
      rewrite (Zsum_map_ext _ _ cols
                 (fun c _ => amounts_of_cons_sum k p z rows e c)).
      rewrite Zsum_map_plus.
      destruct (decide (e = k)) as [-> | _].
      * rewrite (Zsum_map_single cols p z Hc Hp). reflexivity.
      * rewrite Zsum_map_zero. reflexivity.
Qed.

(** X7.  No amount is lost and none is counted twice: for integer amounts
    whose absolute values add up to less than [2^53], the entries of the
    pivot are integers that add up to the amounts of the frame. *)
Theorem pivot_table_keeps_total (rows : list IntRow) :
  Zsum (map Z.abs (map snd rows)) < 2 ^ 53 ->
  Zsum (map Float64.to_int
          (concat (Binary64.values (Binary64.pivot_table (map float_row rows)))))
  = Zsum (map snd rows).
Proof.
  intros Hb. rewrite (pivot_table64_int rows Hb). cbn [Binary64.values].
  set (idx := Pandas.sorted_unique (map (fun r : IntRow => r.1.1) rows)).
  set (cols := Pandas.sorted_unique (map (fun r : IntRow => r.1.2) rows)).
  rewrite <- (amounts_total idx cols rows).
  - rewrite concat_map, Zsum_concat.
    rewrite <- !list_fmap_compose. apply Zsum_map_ext. intros e _. simpl.
    rewrite <- list_fmap_compose. apply Zsum_map_ext. intros c _. simpl.
    apply to_int_of_Z.
    pose proof (Zsum_abs_le (amounts_of rows e c)).
    pose proof (amounts_abs_le_total rows e c). lia.
  - apply sorted_unique_NoDup.
  - apply sorted_unique_NoDup.
  - apply Forall_forall. intros r Hr. split; apply elem_of_sorted_unique.
    + apply (list_elem_of_fmap_2 (fun r : IntRow => r.1.1)), Hr.
    + apply (list_elem_of_fmap_2 (fun r : IntRow => r.1.2)), Hr.
Qed.

Lemma pivot_table_keeps_total_witness :
  Zsum (map Float64.to_int
          (concat (Binary64.values
                     (Binary64.pivot_table (map float_row raw_int_rows)))))
  = Zsum (map snd raw_int_rows).
Proof.
  apply (pivot_table_keeps_total raw_int_rows). vm_compute. reflexivity.
Defined.

(** ** When [winner] raises *)

Lemma subtract64_cases x wv :
  (exists d, Binary64.subtract x wv = Ok d /\
             (length x = length wv \/ length x = 1%nat \/ length wv = 1%nat)) \/
  (Binary64.subtract x wv = Raise ValueError /\
   length x <> length wv /\ length x <> 1%nat /\ length wv <> 1%nat).
Proof.
  unfold Binary64.subtract.
  destruct (Nat.eqb (length x) (length wv)) eqn:E.
  - apply Nat.eqb_eq in E. left. eauto.
  - apply Nat.eqb_neq in E.
    destruct x as [|a [|a' x]].
    + destruct wv as [|b [|b' wv]]; simpl in *.
      * congruence.
      * left. eauto.
      * right. repeat split; try discriminate; congruence.
    + left. eauto.
    + destruct wv as [|b [|b' wv]]; simpl in *.
      * right. repeat split; try discriminate; congruence.
      * left. eauto.
      * right. repeat split; try discriminate; congruence.
Qed.

Lemma euclidean_distance64_cases add_reduce x wv :
  (exists v, Binary64.euclidean_distance add_reduce x wv = Ok v /\
             (length x = length wv \/ length x = 1%nat \/ length wv = 1%nat)) \/
  (Binary64.euclidean_distance add_reduce x wv = Raise ValueError /\
   length x <> length wv /\ length x <> 1%nat /\ length wv <> 1%nat).
Proof.
  unfold Binary64.euclidean_distance.
  destruct (subtract64_cases x wv) as [(d & -> & H) | (-> & H)].
  - left. simpl. eauto.
  - right. simpl. auto.
Qed.

(** X16.  On a map whose weight vectors have [k] entries, [winner] raises
    nothing but [ValueError], and it returns coordinates when the map has a
    neuron and the vector is as long as the weight vectors, or one of the
    two lengths is 1, and only then: [subtract] raises for two lengths that
    do not broadcast, and [argmin] for a map without a neuron. *)
Theorem winner_raises_on_shapes_only
    (add_reduce : list Binary64.float -> Binary64.float)
    (w : list (list (list Binary64.float))) (shape : nat * nat)
    (x : list Binary64.float) (k : nat) :
  Forall (Forall (fun wv => length wv = k)) w ->
  (forall e, Binary64.winner_of add_reduce w shape x = Raise e ->
             e = ValueError) /\
  ((exists c, Binary64.winner_of add_reduce w shape x = Ok c) <->
   concat w <> [] /\ (length x = k \/ length x = 1%nat \/ k = 1%nat)).
Proof.
  intros Hk. unfold Binary64.winner_of. split.
  - intros e He.
    destruct (Binary64.activation_map add_reduce w x) as [a | e'] eqn:Ea.
    + cbn [bind] in He.
      destruct (concat a) as [|v l]; simpl in He; [congruence | discriminate].
    + cbn [bind] in He. injection He as ->.
      unfold Binary64.activation_map in Ea.
      apply mapM_Raise in Ea as (row & _ & Hrow).
      apply mapM_Raise in Hrow as (wv & _ & Hwv).
      destruct (euclidean_distance64_cases add_reduce x wv)
        as [(v & Hv & _) | (Hv & _)]; congruence.
  - split.
    + intros [c Hc].
      destruct (Binary64.activation_map add_reduce w x) as [a | e'] eqn:Ea;
        [| discriminate].
      cbn [bind] in Hc. unfold Binary64.activation_map in Ea.
      apply mapM_Ok in Ea.
      assert (Ea' : Forall2 (Forall2 (fun wv v =>
                      Binary64.euclidean_distance add_reduce x wv = Ok v)) w a).
      { eapply Forall2_impl; [exact Ea |]. intros row arow H.
        apply mapM_Ok, H. }
      assert (Hne : concat w <> []).
      { intros E.
        assert (Hca : concat a = []).
        { clear -Ea' E. induction Ea' as [|row arow w a Hrow _ IH];
            [reflexivity |].
          simpl in E. apply app_eq_nil in E as [-> E2].
          inversion Hrow; subst. simpl. apply IH, E2. }
        rewrite Hca in Hc. discriminate. }
      split; [exact Hne |].
      destruct (concat w) as [|wv l] eqn:Ew; [congruence |].
      assert (Hin : wv ∈ concat w) by (rewrite Ew; apply list_elem_of_here).
      apply list_elem_of_In, in_concat in Hin as (row & Hrow & Hwv).
      apply list_elem_of_In in Hrow, Hwv.
      assert (Hlen : length wv = k).
      { rewrite Forall_forall in Hk. specialize (Hk row Hrow).
        rewrite Forall_forall in Hk. apply Hk, Hwv. }
      assert (Hok : exists v, Binary64.euclidean_distance add_reduce x wv = Ok v).
      { apply list_elem_of_lookup_1 in Hrow as [i Hi].
        destruct (Forall2_lookup_l _ _ _ _ _ Ea' Hi) as (arow & _ & Har).
        apply list_elem_of_lookup_1 in Hwv as [j Hj].
        destruct (Forall2_lookup_l _ _ _ _ _ Har Hj) as (v & _ & Hv). eauto. }
      destruct Hok as [v Hv].
      destruct (euclidean_distance64_cases add_reduce x wv)
        as [(v' & _ & H) | (Hr & _)]; [| congruence].
      rewrite Hlen in H. exact H.
    + intros [Hne Hb].
      destruct (mapM_total (mapM (Binary64.euclidean_distance add_reduce x))
                  (fun row arow => length arow = length row) w)
        as (a & Ha & Hf).
      { eapply Forall_impl; [exact Hk |]. intros row Hrow.
        destruct (mapM_total (Binary64.euclidean_distance add_reduce x)
                    (fun _ _ => True) row) as (arow & Har & Hf).
        { eapply Forall_impl; [exact Hrow |]. intros wv Hwv. simpl in Hwv.
          destruct (euclidean_distance64_cases add_reduce x wv)
            as [(v & Hv & _) | (_ & H1 & H2 & H3)]; [eauto |].
          exfalso. rewrite Hwv in H1, H3. destruct Hb as [Hb | [Hb | Hb]];
            congruence. }
        exists arow. split; [exact Har |].
        symmetry. eapply Forall2_length, Hf. }
      unfold Binary64.activation_map. rewrite Ha. cbn [bind].
      assert (Hca : concat a <> []).
      { intros E. apply Hne. clear -Hf E.
        induction Hf as [|row arow w a Hrow _ IH]; [reflexivity |].
        simpl in E. apply app_eq_nil in E as [-> E2]. simpl in Hrow.
        destruct row; [| discriminate]. simpl. apply IH, E2. }
      destruct (concat a) as [|v l]; [congruence |]. simpl. eauto.
Qed.

Lemma winner_raises_on_shapes_only_witness :
  (forall e, Binary64.winner_of Binary64.sum small_grid64 (2, 2)%nat
               [Binary64.of_Z 1; Binary64.of_Z 0; Binary64.of_Z 0] = Raise e ->
             e = ValueError) /\
  ((exists c, Binary64.winner_of Binary64.sum small_grid64 (2, 2)%nat
                [Binary64.of_Z 1; Binary64.of_Z 0; Binary64.of_Z 0] = Ok c) <->
   concat small_grid64 <> [] /\
   (length [Binary64.of_Z 1; Binary64.of_Z 0; Binary64.of_Z 0] = 2%nat \/
    length [Binary64.of_Z 1; Binary64.of_Z 0; Binary64.of_Z 0] = 1%nat \/
    2%nat = 1%nat)).
Proof.
  apply (winner_raises_on_shapes_only Binary64.sum small_grid64 (2, 2)%nat
           [Binary64.of_Z 1; Binary64.of_Z 0; Binary64.of_Z 0] 2%nat).
  repeat constructor.
Defined.
